(** * ProjetHypercube: token passing over an n-dimensional hypercube of processes

    A shallow embedding of [hypercube.c] (and of [main]), and the properties of
    its topology construction, its per-worker forwarding loop and its
    coordinator that the specification states.

    Conventions.
    - A C [int] is a [Z]; every arithmetic operation of the program is written
      with its 32-bit two's-complement wrap-around (module [Int]).
    - A file descriptor is an [int]; the descriptor table of a process is the
      finite set of its open descriptors, and [pipe] hands out the two lowest
      unused ones below the per-process limit, as POSIX prescribes.
    - [exit], and the faults the C code can run into (division by zero, an
      access to the tables [pipes] and [connectedPipes] out of bounds), are
      the [Exit] and [Fault] results of the monad [res].
    - [signal()] has the BSD semantics of the C library the program is built
      with: the installed function stays installed, and a system call during
      which it ran is restarted. *)

From Stdlib Require Import ZArith Lia Ascii.
From stdpp Require Import base numbers list gmap strings pretty.

Local Open Scope Z_scope.

(** ** C integers *)

Module Int.

Definition INT_MAX : Z := 2147483647.
Definition INT_MIN : Z := -2147483648.

(** Reduction of a mathematical integer to the [int] it is stored as. *)
Definition wrap (z : Z) : Z := (z + 2 ^ 31) `mod` 2 ^ 32 - 2 ^ 31.

Definition in_range (z : Z) : Prop := INT_MIN ≤ z ≤ INT_MAX.

Definition add (a b : Z) : Z := wrap (a + b).
Definition sub (a b : Z) : Z := wrap (a - b).
Definition mul (a b : Z) : Z := wrap (a * b).
(** [a << b]; a shift count outside [0, 31] is undefined in C, the model
    shifts and truncates. *)
Definition shl (a b : Z) : Z := wrap (Z.shiftl a b).
Definition xor (a b : Z) : Z := Z.lxor a b.
(** [!a] *)
Definition lnot (a : Z) : Z := if bool_decide (a = 0) then 1 else 0.

End Int.

(** ** Results of effectful code *)

Inductive fault := DivisionByZero | OutOfBounds.

Inductive res (A : Type) :=
  | Ret (a : A)
  | Exit (status : Z)
  | Fault (f : fault).
Arguments Ret {A} a.
Arguments Exit {A} status.
Arguments Fault {A} f.

Definition EXIT_FAILURE : Z := 1.

#[global] Instance res_ret : MRet res := λ A a, Ret a.
#[global] Instance res_bind : MBind res := λ A B f m,
  match m with
  | Ret a => f a
  | Exit s => Exit s
  | Fault e => Fault e
  end.

(** [l[k]] for a C array [l]: reading outside the array is a fault. *)
Definition aget {A} (l : list A) (k : Z) : res A :=
  if bool_decide (0 ≤ k) then
    match l !! Z.to_nat k with
    | Some x => Ret x
    | None => Fault OutOfBounds
    end
  else Fault OutOfBounds.

(** [l[k] = x] *)
Definition aset {A} (l : list A) (k : Z) (x : A) : res (list A) :=
  if bool_decide (0 ≤ k < Z.of_nat (length l)) then Ret (<[Z.to_nat k := x]> l)
  else Fault OutOfBounds.

(** ** Descriptor tables and [pipe] *)

(** The lowest descriptor below [limit] that is not open. *)
Definition lowest_free (limit : Z) (open : gset Z) : option Z :=
  snd <$> list_find (λ fd, fd ∉ open) (seqZ 0 limit).

(** [pipe(fds)]: [Some (fds[0], fds[1], table')], or [None] for the [-1] of a
    table that is full. *)
Definition sys_pipe (limit : Z) (open : gset Z) : option (Z * Z * gset Z) :=
  r ← lowest_free limit open;
  w ← lowest_free limit ({[r]} ∪ open);
  Some (r, w, {[w]} ∪ ({[r]} ∪ open)).

(** [close(fd)] *)
Definition sys_close (fd : Z) (open : gset Z) : gset Z := open ∖ {[fd]}.

(** ** createPipes *)

(** The [pipes] table: [pipes[i][0]] is the read end and [pipes[i][1]] the
    write end of the i-th pipe. *)
Definition pipe_t : Type := Z * Z.
Definition rd (p : pipe_t) : Z := p.1.
Definition wr (p : pipe_t) : Z := p.2.

(** The body of the [for] loop of [createPipes], for [count] pipes. *)
Fixpoint pipe_loop (count : nat) (limit : Z) (open : gset Z)
  : res (list pipe_t * gset Z) :=
  match count with
  | O => Ret ([], open)
  | S c =>
      match sys_pipe limit open with
      | None => Exit EXIT_FAILURE
      | Some (r, w, open') =>
          '(ps, open'') ← pipe_loop c limit open';
          Ret ((r, w) :: ps, open'')
      end
  end.

Definition nbPipes_of (n : Z) : Z := Int.mul (Int.shl 1 n) n.

(** [createPipes(n)]: the new values of the globals [nbPipes] and [pipes], and
    the descriptor table of the calling process. *)
Definition createPipes (limit : Z) (open : gset Z) (n : Z)
  : res (Z * list pipe_t * gset Z) :=
  let nbPipes := nbPipes_of n in
  '(pipes, open') ← pipe_loop (Z.to_nat nbPipes) limit open;
  Ret (nbPipes, pipes, open').

(** All descriptors of a pipe table. *)
Definition table_fds (pipes : list pipe_t) : list Z :=
  pipes ≫= (λ p, [rd p; wr p]).

(** ** createProcesses: the endpoints of a child *)

(** [i ^ (1 << j)] *)
Definition neighbour_of (i j : Z) : Z := Int.xor i (Int.shl 1 j).

(** The first [for] loop of the child branch, for [count] more dimensions
    starting at [j]: it fills [connectedPipes] and closes the two ends the
    child does not use. *)
Fixpoint connect_loop (count : nat) (j n i : Z) (pipes : list pipe_t)
    (connectedPipes : list Z) (open : gset Z) : res (list Z * gset Z) :=
  match count with
  | O => Ret (connectedPipes, open)
  | S c =>
      let neighbour := neighbour_of i j in
      own ← aget pipes (Int.add (Int.mul i n) j);
      cp1 ← aset connectedPipes (Int.mul 2 j) (rd own);
      nb ← aget pipes (Int.add (Int.mul neighbour n) j);
      cp2 ← aset cp1 (Int.add (Int.mul 2 j) 1) (wr nb);
      let open1 := sys_close (wr own) open in
      let open2 := sys_close (rd nb) open1 in
      connect_loop c (Int.add j 1) n i pipes cp2 open2
  end.

(** The flag [needClose] of the second loop, for the pipe [p = pipes[j]]. *)
Definition needClose (connectedPipes : list Z) (p : pipe_t) : bool :=
  negb (existsb (λ c, bool_decide (rd p = c) || bool_decide (wr p = c))
          connectedPipes).

(** The second [for] loop of the child branch. *)
Definition close_unconnected (connectedPipes : list Z) (pipes : list pipe_t)
    (open : gset Z) : gset Z :=
  foldl (λ o p, if needClose connectedPipes p
                then sys_close (wr p) (sys_close (rd p) o) else o)
        open pipes.

(** The child branch of [createProcesses] for vertex [i], up to the call of
    [passToken]: the array [connectedPipes] and the descriptor table of the
    child. [malloc] returns [n * 2] cells, every one of which is written
    before it is read; they start at 0 here. *)
Definition child_setup (n i : Z) (pipes : list pipe_t) (open : gset Z)
  : res (list Z * gset Z) :=
  let cp0 := replicate (Z.to_nat (Int.mul n 2)) 0 in
  '(cp, open1) ← connect_loop (Z.to_nat n) 0 n i pipes cp0 open;
  Ret (cp, close_unconnected cp pipes open1).

(** The descriptor [passToken] reads for dimension [j], and the one it writes
    for dimension [j]. *)
Definition recv_fd (connectedPipes : list Z) (j : Z) : res Z :=
  aget connectedPipes (Int.mul 2 j).
Definition send_fd (connectedPipes : list Z) (j : Z) : res Z :=
  aget connectedPipes (Int.add (Int.mul 2 j) 1).

(** The read ends and the write ends a child keeps. *)
Definition read_ends (n : Z) (connectedPipes : list Z) : list Z :=
  omap (λ j : nat, connectedPipes !! (2 * j)%nat) (seq 0 (Z.to_nat n)).
Definition write_ends (n : Z) (connectedPipes : list Z) : list Z :=
  omap (λ j : nat, connectedPipes !! (2 * j + 1)%nat) (seq 0 (Z.to_nat n)).

(** ** Notions used to state the properties *)

(** The dimensions whose table size [n * 2^n] fits in an [int]. *)
Definition dim_ok (n : Z) : Prop := 0 ≤ n ≤ 26.

(** The pipe at table index [k]. *)
Definition chan (pipes : list pipe_t) (k : Z) : pipe_t := pipes !!! Z.to_nat k.

(** Table indices of the two pipes of vertex [v] along dimension [k]: its own,
    and the one of its neighbour [v ^ (1 << k)]. *)
Definition own_idx (n v k : Z) : Z := v * n + k.
Definition nb_idx (n v k : Z) : Z := Z.lxor v (2 ^ k) * n + k.

(** The contents of [connectedPipes] for vertex [v]: for each dimension [k] the
    read end of its own pipe and the write end of the pipe of its neighbour. *)
Definition wired (n : Z) (pipes : list pipe_t) (v : Z) (cp : list Z) : Prop :=
  Z.of_nat (length cp) = 2 * n
  ∧ ∀ k, 0 ≤ k < n →
      cp !! Z.to_nat (2 * k) = Some (rd (chan pipes (own_idx n v k)))
      ∧ cp !! Z.to_nat (2 * k + 1) = Some (wr (chan pipes (nb_idx n v k))).

(** The channel at table index [k] is the one a child with the array
    [connectedPipes] writes to, respectively reads from, along dimension [j]. *)
Definition sends_on (pipes : list pipe_t) (connectedPipes : list Z) (j k : Z) : Prop :=
  ∃ p, 0 ≤ k ∧ pipes !! Z.to_nat k = Some p ∧ send_fd connectedPipes j = Ret (wr p).
Definition receives_on (pipes : list pipe_t) (connectedPipes : list Z) (j k : Z) : Prop :=
  ∃ p, 0 ≤ k ∧ pipes !! Z.to_nat k = Some p ∧ recv_fd connectedPipes j = Ret (rd p).

(** What a child holds after the partition: [n] distinct read ends and [n]
    distinct write ends of the table, and no other descriptor of the table is
    left open in it. *)
Definition holds_endpoints (n : Z) (pipes : list pipe_t) (connectedPipes : list Z)
    (open : gset Z) : Prop :=
  Z.of_nat (length (read_ends n connectedPipes)) = n
  ∧ NoDup (read_ends n connectedPipes)
  ∧ (∀ fd, fd ∈ read_ends n connectedPipes → fd ∈ rd <$> pipes)
  ∧ Z.of_nat (length (write_ends n connectedPipes)) = n
  ∧ NoDup (write_ends n connectedPipes)
  ∧ (∀ fd, fd ∈ write_ends n connectedPipes → fd ∈ wr <$> pipes)
  ∧ (∀ fd, fd ∈ table_fds pipes →
       fd ∈ open ↔ fd ∈ read_ends n connectedPipes ∨ fd ∈ write_ends n connectedPipes).

(** Two children share no read end and no write end. *)
Definition no_shared_endpoint (n : Z) (cp cp' : list Z) : Prop :=
  (∀ fd, fd ∈ read_ends n cp → fd ∉ read_ends n cp')
  ∧ (∀ fd, fd ∈ write_ends n cp → fd ∉ write_ends n cp').

(** ** The coordinator: registry, signals, [waitChild] *)

(** The signals the program names. *)
Inductive signal := SIGINT | SIGUSR1 | SIGSTOP | SIGCONT.

#[global] Instance signal_eq_dec : EqDecision signal.
Proof. solve_decision. Defined.

(** What [signal()] has set for a signal: the default action, or the function
    [handler]. *)
Inductive disposition := SIG_DFL | Handler.

(** The globals of the parent process and its signal dispositions. [childs]
    has [nbProcesses] cells. *)
Record coordinator := {
  nbProcesses : Z;
  childs : list Z;
  n_sigusr1 : Z;
  sa_handler : signal → disposition;
  terminated : bool;
}.

(** One call [kill(pid, sig)]. *)
Definition kill_call : Type := Z * signal.

(** [for (i = 0; i < nbProcesses; i++) kill(childs[i], sig);] *)
Definition kill_all (st : coordinator) (sig : signal) : list kill_call :=
  (λ pid, (pid, sig)) <$> take (Z.to_nat (nbProcesses st)) (childs st).

(** [handler(signum)]: the new globals and the calls of [kill] it makes. *)
Definition handler (signum : signal) (st : coordinator) : coordinator * list kill_call :=
  if decide (signum = SIGUSR1) then
    let kills := if bool_decide (n_sigusr1 st ≠ 0) then kill_all st SIGSTOP
                 else kill_all st SIGCONT in
    ({| nbProcesses := nbProcesses st; childs := childs st;
        n_sigusr1 := Int.lnot (n_sigusr1 st);
        sa_handler := sa_handler st; terminated := terminated st |}, kills)
  else if decide (signum = SIGINT) then (st, kill_all st SIGINT)
  else (st, []).

(** The coordinator is paused when the last toggle sent [SIGSTOP]; the flag
    [n_sigusr1] is then 0. *)
Definition paused (st : coordinator) : bool := bool_decide (n_sigusr1 st = 0).

(** Delivery of a signal to the parent process: the installed function runs,
    or the default action is taken, which for [SIGINT] and [SIGUSR1] ends the
    process and calls nothing. *)
Definition deliver (sig : signal) (st : coordinator) : coordinator * list kill_call :=
  match sa_handler st sig with
  | Handler => handler sig st
  | SIG_DFL =>
      match sig with
      | SIGINT | SIGUSR1 =>
          ({| nbProcesses := nbProcesses st; childs := childs st;
              n_sigusr1 := n_sigusr1 st; sa_handler := sa_handler st;
              terminated := true |}, [])
      | SIGSTOP | SIGCONT => (st, [])
      end
  end.

(** The [fork] loop of [createProcesses] as the parent sees it; [fork_result i]
    is what the i-th call of [fork] returns in the parent. *)
Fixpoint fork_loop (count : nat) (i : nat) (fork_result : nat → Z) : res (list Z) :=
  match count with
  | O => Ret []
  | S c =>
      let pid := fork_result i in
      if bool_decide (pid = -1) then Exit EXIT_FAILURE
      else rest ← fork_loop c (S i) fork_result; Ret (pid :: rest)
  end.

(** The parent in [createProcesses(n)], up to and including its only call of
    [signal]: [signal(SIGUSR1, handler)]. Every other signal keeps the
    disposition the process started with. *)
Definition createProcesses_parent (n : Z) (fork_result : nat → Z) : res coordinator :=
  let nbProcesses := Int.shl 1 n in
  childs ← fork_loop (Z.to_nat nbProcesses) 0 fork_result;
  Ret {| nbProcesses := nbProcesses; childs := childs; n_sigusr1 := 1;
         sa_handler := λ s, if decide (s = SIGUSR1) then Handler else SIG_DFL;
         terminated := false |}.

(** What a call [waitpid(pid, &state, 0)] that returns has done: it returns
    the pid after the child has ended, or it returns -1 with [EINTR]. *)
Inductive wait_result := Reaped | Interrupted.

(** [waitChild()]: one call of [waitpid] per child, whose return value is not
    looked at; [waitpid_result i] is the outcome of the i-th call, whatever it
    is ([waitpid] below gives the outcomes the program can meet). The result
    is the list of children that have been reaped when [waitChild] returns. *)
Fixpoint waitChild_loop (childs : list Z) (i : nat) (waitpid_result : nat → wait_result)
  : list Z :=
  match childs with
  | [] => []
  | pid :: rest =>
      match waitpid_result i with
      | Reaped => pid :: waitChild_loop rest (S i) waitpid_result
      | Interrupted => waitChild_loop rest (S i) waitpid_result
      end
  end.

Definition waitChild (st : coordinator) (waitpid_result : nat → wait_result) : list Z :=
  waitChild_loop (take (Z.to_nat (nbProcesses st)) (childs st)) 0 waitpid_result.





(** ** The worker: [passToken] *)

(** [struct timeval]; [time_t] and [suseconds_t] are [long]. *)
Record timeval := { tv_sec : Z; tv_usec : Z }.

(** The three lines [passToken] prints to its file. *)
Inductive log_line :=
  | LogSeed (token : Z)
  | LogFirst (token : Z)
  | LogArrival (token : Z) (microSec : Z).

Definition logged_token (l : log_line) : Z :=
  match l with
  | LogSeed t | LogFirst t | LogArrival t _ => t
  end.

Definition LF : string := String "010"%char EmptyString.

(** The text each [fprintf] writes: ["token: %d\n"],
    ["first received token: %d\n"] and ["Token: %d, Time : %ld\n"]. *)
Definition render (l : log_line) : string :=
  match l with
  | LogSeed t => "token: " +:+ pretty t +:+ LF
  | LogFirst t => "first received token: " +:+ pretty t +:+ LF
  | LogArrival t us => "Token: " +:+ pretty t +:+ ", Time : " +:+ pretty us +:+ LF
  end.

Definition file_contents (file : list log_line) : string :=
  foldr (λ l rest, render l +:+ rest) "" file.

(** The locals of [passToken] that change, and the output file. *)
Record locals := { token : Z; start : timeval; file : list log_line }.

(** What a running worker acts on: its locals and the contents of the pipes of
    the system, one queue of token values per entry of the table [pipes]. *)
Definition pstate : Type := locals * list (list Z).

(** Code of a worker: it transforms the state and returns, exits or faults. *)
Definition M (A : Type) : Type := pstate → pstate * res A.

#[global] Instance M_ret : MRet M := λ A a s, (s, Ret a).
#[global] Instance M_bind : MBind M := λ A B f m s,
  match m s with
  | (s', Ret a) => f a s'
  | (s', Exit st) => (s', Exit st)
  | (s', Fault e) => (s', Fault e)
  end.

Definition lift {A} (r : res A) : M A := λ s, (s, r).
Definition get_token : M Z := λ s, (s, Ret (token s.1)).
Definition set_token (t : Z) : M unit := λ s,
  (({| token := t; start := start s.1; file := file s.1 |}, s.2), Ret ()).
Definition get_start : M timeval := λ s, (s, Ret (start s.1)).
Definition set_start (tv : timeval) : M unit := λ s,
  (({| token := token s.1; start := tv; file := file s.1 |}, s.2), Ret ()).
(** [fprintf(file, ...); fflush(file);] *)
Definition fprintf (l : log_line) : M unit := λ s,
  (({| token := token s.1; start := start s.1; file := file s.1 ++ [l] |}, s.2), Ret ()).

(** The table index of the pipe whose read end, respectively write end, is the
    descriptor [fd]. *)
Definition pipe_of_rd (pipes : list pipe_t) (fd : Z) : option nat :=
  fst <$> list_find (λ p, rd p = fd) pipes.
Definition pipe_of_wr (pipes : list pipe_t) (fd : Z) : option nat :=
  fst <$> list_find (λ p, wr p = fd) pipes.

(** A read end is readable when its pipe holds a value. *)
Definition readable (pipes : list pipe_t) (queues : list (list Z)) (fd : Z) : bool :=
  match pipe_of_rd pipes fd ≫= (λ i, queues !! i) with
  | Some (_ :: _) => true
  | _ => false
  end.

(** [if (read(fd, &token, sizeof(token)) != sizeof(token)) { perror; exit }]:
    the oldest value of the pipe goes to [token]; a read that does not return
    a whole token ends the process. *)
Definition read_token (pipes : list pipe_t) (fd : Z) : M unit := λ s,
  match pipe_of_rd pipes fd with
  | Some i =>
      match s.2 !! i with
      | Some (v :: q) =>
          (({| token := v; start := start s.1; file := file s.1 |}, <[i := q]> s.2), Ret ())
      | _ => (s, Exit EXIT_FAILURE)
      end
  | None => (s, Exit EXIT_FAILURE)
  end.

(** [if (write(fd, &token, sizeof(token)) == -1) { perror; exit }] *)
Definition write_token (pipes : list pipe_t) (fd : Z) : M unit := λ s,
  match pipe_of_wr pipes fd with
  | Some i =>
      match s.2 !! i with
      | Some q => ((s.1, <[i := q ++ [token s.1]]> s.2), Ret ())
      | None => (s, Exit EXIT_FAILURE)
      end
  | None => (s, Exit EXIT_FAILURE)
  end.

(** [a % b] on [int]s. *)
Definition c_rem (a b : Z) : res Z :=
  if bool_decide (b = 0) then Fault DivisionByZero else Ret (Z.rem a b).

(** [setReadfds(n, &readfds)]: the set of the read ends, and the largest of
    them. [FD_SET] is defined for the descriptors an [fd_set] has a bit for,
    those from 0 to [FD_SETSIZE - 1]; the set below is what the loop builds
    from such descriptors, and says nothing of what the code does with
    others. *)
Fixpoint setReadfds_loop (count : nat) (i : Z) (connectedPipes : list Z)
    (nfds : Z) (readfds : gset Z) : res (Z * gset Z) :=
  match count with
  | O => Ret (nfds, readfds)
  | S c =>
      fd ← aget connectedPipes (Int.mul 2 i);
      setReadfds_loop c (Int.add i 1) connectedPipes
        (if bool_decide (fd > nfds) then fd else nfds) ({[fd]} ∪ readfds)
  end.

Definition setReadfds (n : Z) (connectedPipes : list Z) : res (Z * gset Z) :=
  setReadfds_loop (Z.to_nat n) 0 connectedPipes 0 ∅.

(** What [select] leaves in [readfds]: the descriptors of the set that are
    readable. With none of them readable the call does not return. As for
    [setReadfds], this is the call for a set of descriptors below
    [FD_SETSIZE]. *)
Definition select (pipes : list pipe_t) (queues : list (list Z)) (readfds : gset Z)
  : gset Z :=
  filter (λ fd, readable pipes queues fd = true) readfds.

(** The [for] loop in the body of the [while]: every read end that [select]
    reported is read once. *)
Fixpoint read_loop (count : nat) (i : Z) (pipes : list pipe_t)
    (connectedPipes : list Z) (readfds : gset Z) : M unit :=
  match count with
  | O => mret ()
  | S c =>
      fd ← lift (aget connectedPipes (Int.mul 2 i));
      (if bool_decide (fd ∈ readfds) then read_token pipes fd else mret ());;
      read_loop c (Int.add i 1) pipes connectedPipes readfds
  end.

(** [(stop.tv_sec - start.tv_sec) * 1000000L + (stop.tv_usec - start.tv_usec)],
    computed in [long]. *)
Definition elapsed (start stop : timeval) : Z :=
  (tv_sec stop - tv_sec start) * 1000000 + (tv_usec stop - tv_usec start).

(** The body of the [while] loop of [passToken], entered when [select] has
    returned with the set [readfds]: [now] is what [gettimeofday] gives and
    [r] what [rand()] returns. *)
Definition loop_body (n : Z) (pipes : list pipe_t) (connectedPipes : list Z)
    (readfds : gset Z) (now : timeval) (r : N) : M (Z * gset Z) :=
  read_loop (Z.to_nat n) 0 pipes connectedPipes readfds;;
  t ← get_token; set_token (Int.add t 1);;
  st ← get_start;
  (if bool_decide (tv_sec st = 0) then
     set_start now;;
     t ← get_token; fprintf (LogFirst t)
   else
     t ← get_token; fprintf (LogArrival t (elapsed st now));;
     set_start now);;
  pipe_index ← lift (c_rem (Z.of_N r) n);
  fd ← lift (aget connectedPipes (Int.add (Int.mul 2 pipe_index) 1));
  write_token pipes fd;;
  lift (setReadfds n connectedPipes).

(** [passToken] from its first line to the first call of [select];
    [fopen_ok] tells whether [fopen] returned a file. The result is the
    descriptor set the first [select] is called with. The directory and the
    file name are computed before (see [filename] below). The [sprintf] of the
    file name writes past the bytes asked of [malloc] ([filename_alloc] and
    [filename_written] below measure by how much); the result type has no
    fault for it, and the function is embedded as the program behaves when
    that write stays within the block the allocator returned. *)
Definition passToken_start (id n : Z) (pipes : list pipe_t) (connectedPipes : list Z)
    (fopen_ok : bool) (now : timeval) (r : N) : M (Z * gset Z) :=
  if negb fopen_ok then lift (Exit EXIT_FAILURE)
  else
    (if bool_decide (id = 0) then
       set_start now;;
       t ← get_token; set_token (Int.add t 1);;
       pipe_index ← lift (c_rem (Z.of_N r) n);
       t ← get_token; fprintf (LogSeed t);;
       fd ← lift (aget connectedPipes (Int.add (Int.mul 2 pipe_index) 1));
       write_token pipes fd
     else mret ());;
    lift (setReadfds n connectedPipes).

(** The locals at the entry of [passToken]. *)
Definition locals_init : locals :=
  {| token := 0; start := {| tv_sec := 0; tv_usec := 0 |}; file := [] |}.

(** ** The system of processes *)

(** A child process: forked and wired, about to call [passToken]; blocked in
    [select] with the descriptor set [readfds]; or gone, by [exit] or by a
    fault. *)
Inductive proc :=
  | Forked (connectedPipes : list Z)
  | Waiting (connectedPipes : list Z) (readfds : gset Z) (l : locals)
  | Ended (status : Z) (l : locals)
  | Crashed (f : fault) (l : locals).

Definition log_of (p : proc) : list log_line :=
  match p with
  | Forked _ => []
  | Waiting _ _ l | Ended _ l | Crashed _ l => file l
  end.

Record system := { procs : list proc; queues : list (list Z) }.

(** The log of vertex [v]. *)
Definition log_at (s : system) (v : nat) : list log_line :=
  from_option log_of [] (procs s !! v).

(** The number of token values waiting in the pipes. *)
Definition in_flight (s : system) : nat := length (concat (queues s)).

(** One scheduling decision: process [ev_vertex] runs up to its next call of
    [select]; [ev_now] is the time it reads, [ev_rand] the value [rand()]
    gives it and [ev_fopen] the outcome of its [fopen]. *)
Record event := { ev_vertex : nat; ev_now : timeval; ev_rand : N; ev_fopen : bool }.

Definition resume (connectedPipes : list Z) (out : pstate * res (Z * gset Z)) : proc :=
  match out.2 with
  | Ret (_, readfds) => Waiting connectedPipes readfds out.1.1
  | Exit status => Ended status out.1.1
  | Fault f => Crashed f out.1.1
  end.

(** One step of the system. A process that is blocked in [select] stays as it
    is until one of its read ends holds a value. A process that has ended
    takes no further step; what the end of a process does to the processes
    that share a pipe with it (end of file, [SIGPIPE]) is not modelled, and
    the properties of runs are stated for runs in which no process ends.
    A step takes a process from one call of [select] to its next one in one
    go: the states of a run are those in which no process is between a [read]
    and the [write] that follows it. What is proved of runs is stated on the
    contents of the files and on which process [select] wakes, which the
    moments in between do not change. *)
Definition step (n : Z) (pipes : list pipe_t) (e : event) (s : system) : system :=
  let v := ev_vertex e in
  match procs s !! v with
  | Some (Forked cp) =>
      let out := passToken_start (Z.of_nat v) n pipes cp (ev_fopen e) (ev_now e)
                   (ev_rand e) (locals_init, queues s) in
      {| procs := <[v := resume cp out]> (procs s); queues := out.1.2 |}
  | Some (Waiting cp readfds l) =>
      let ready := select pipes (queues s) readfds in
      if decide (ready = ∅) then s
      else
        let out := loop_body n pipes cp ready (ev_now e) (ev_rand e) (l, queues s) in
        {| procs := <[v := resume cp out]> (procs s); queues := out.1.2 |}
  | _ => s
  end.

Definition run (n : Z) (pipes : list pipe_t) (es : list event) (s : system) : system :=
  foldl (λ s e, step n pipes e s) s es.

(** The children [createProcesses] forks, each after its own wiring. *)
Fixpoint spawn (count : nat) (i : Z) (n : Z) (pipes : list pipe_t) (open : gset Z)
  : list proc :=
  match count with
  | O => []
  | S c =>
      match child_setup n i pipes open with
      | Ret (cp, _) => Forked cp
      | Exit status => Ended status locals_init
      | Fault f => Crashed f locals_init
      end :: spawn c (Int.add i 1) n pipes open
  end.

(** [createPipes(n); createProcesses(n);] up to the end of the [fork] loop:
    the pipe table and the system of children, all pipes empty. *)
Definition boot (limit : Z) (open0 : gset Z) (n : Z) : res (list pipe_t * system) :=
  '(_, pipes, open) ← createPipes limit open0 n;
  Ret (pipes, {| procs := spawn (Z.to_nat (Int.shl 1 n)) 0 n pipes open;
                 queues := replicate (length pipes) [] |}).

(** ** [main] *)

Definition is_space (c : ascii) : bool :=
  bool_decide (c = " "%char) || bool_decide (9 ≤ nat_of_ascii c ≤ 13)%nat.

Definition digit_of (c : ascii) : option Z :=
  let k := Z.of_nat (nat_of_ascii c) in
  if bool_decide (48 ≤ k ≤ 57) then Some (k - 48) else None.

Fixpoint atoi_digits (s : string) (acc : Z) : Z :=
  match s with
  | String c rest =>
      match digit_of c with
      | Some d => atoi_digits rest (Int.add (Int.mul acc 10) d)
      | None => acc
      end
  | EmptyString => acc
  end.

Fixpoint atoi_skip (s : string) : string :=
  match s with
  | String c rest => if is_space c then atoi_skip rest else s
  | EmptyString => s
  end.

(** [atoi]: leading white space, an optional sign, then decimal digits; there
    is no check of any kind. *)
Definition atoi (s : string) : Z :=
  match atoi_skip s with
  | String "-"%char rest => Int.sub 0 (atoi_digits rest 0)
  | String "+"%char rest => atoi_digits rest 0
  | rest => atoi_digits rest 0
  end.

(** [main(argc, argv)] up to the end of the [fork] loop of [createProcesses]. *)
Definition main (limit : Z) (open0 : gset Z) (argv : list string)
  : res (Z * list pipe_t * system) :=
  if bool_decide (length argv ≠ 2%nat) then Exit 1
  else
    let n := atoi (default "" (argv !! 1%nat)) in
    '(pipes, s) ← boot limit open0 n;
    Ret (n, pipes, s).

(** ** The name of the log file *)

(** [intToBinary(num, n)]: the loop fills [binary[n-1]] down to [binary[0]]. *)
Fixpoint intToBinary_loop (count : nat) (num : Z) (binary : string) : string :=
  match count with
  | O => binary
  | S c =>
      intToBinary_loop c (Z.shiftr num 1)
        (String (if bool_decide (Z.land num 1 ≠ 0) then "1"%char else "0"%char) binary)
  end.

Definition intToBinary (num n : Z) : string := intToBinary_loop (Z.to_nat n) num "".

(** [sprintf(dirName, "%d", n)] *)
Definition dirName (n : Z) : string := pretty n.

(** The return value of [snprintf(NULL, 0, ...)] for an output [s]: its
    length, or a negative value when the length does not fit in an [int]. *)
Definition snprintf_ret (s : string) : Z :=
  let len := Z.of_nat (String.length s) in
  if bool_decide (len ≤ Int.INT_MAX) then len else -1.

(** The argument of [malloc] for [filename]:
    [snprintf(NULL, 0, "%s/%s", dirName, binaryString) + 1]. *)
Definition filename_alloc (id n : Z) : Z :=
  Int.add (snprintf_ret (dirName n +:+ "/" +:+ intToBinary id n)) 1.

(** What [sprintf(filename, "%s/%s.txt", dirName, binaryString)] writes, and
    the number of bytes it writes, the terminating 0 included. *)
Definition filename (id n : Z) : string :=
  dirName n +:+ "/" +:+ intToBinary id n +:+ ".txt".

Definition filename_written (id n : Z) : Z :=
  Z.of_nat (String.length (filename id n)) + 1.

(** ** Notions used to state the properties of the worker *)

(** The table indices of the [count] pipes vertex [v] reads from, from
    dimension [i] on. *)
Fixpoint own_slots (n v : Z) (count : nat) (i : Z) : list nat :=
  match count with
  | O => []
  | S c => Z.to_nat (own_idx n v i) :: own_slots n v c (i + 1)
  end.

(** The pipes after the oldest value, if any, of each pipe in [slots] has been
    taken out. *)
Definition drain (slots : list nat) (queues : list (list Z)) : list (list Z) :=
  foldl (λ qs p, alter tail p qs) queues slots.

(** The descriptor set [setReadfds] builds for vertex [v]. *)
Definition readfds_of (n : Z) (pipes : list pipe_t) (v : Z) (readfds : gset Z) : Prop :=
  ∀ fd, fd ∈ readfds ↔ ∃ i, 0 ≤ i < n ∧ fd = rd (chan pipes (own_idx n v i)).

(** The pipe of vertex [v] along dimension [i] holds a value. *)
Definition ready_at (n v : Z) (queues : list (list Z)) (i : Z) : Prop :=
  ∃ x rest, queues !! Z.to_nat (own_idx n v i) = Some (x :: rest).

(** [x] is the value the [for] loop reads last: the oldest value of the pipe of
    the highest dimension that holds one. *)
Definition read_last (n v : Z) (queues : list (list Z)) (x : Z) : Prop :=
  ∃ i rest, 0 ≤ i < n
    ∧ queues !! Z.to_nat (own_idx n v i) = Some (x :: rest)
    ∧ ∀ i', i < i' < n → queues !! Z.to_nat (own_idx n v i') = Some [].

(** The line the body of the loop prints for the token [t]. *)
Definition arrival_line (start now : timeval) (t : Z) : log_line :=
  if bool_decide (tv_sec start = 0) then LogFirst t
  else LogArrival t (elapsed start now).

(** The second half of C3 as the specification words it: there is a pass
    through the body of the loop, with two or more read ends ready, after which
    the token is something else than the value read last incremented once. *)
Definition round_with_more_than_one_increment : Prop :=
  ∃ limit open0 n nb pipes open v cp open_v (qs : list (list Z)) nfds fds
    l now r l' qs' out x,
    1 ≤ n
    ∧ createPipes limit open0 n = Ret (nb, pipes, open)
    ∧ 0 ≤ v < 2 ^ n
    ∧ child_setup n v pipes open = Ret (cp, open_v)
    ∧ length qs = length pipes
    ∧ setReadfds n cp = Ret (nfds, fds)
    ∧ (2 ≤ size (select pipes qs fds))%nat
    ∧ loop_body n pipes cp (select pipes qs fds) now r (l, qs) = ((l', qs'), Ret out)
    ∧ read_last n v qs x
    ∧ token l' ≠ Int.add x 1.

(** ** Notions used to state the properties of the system *)

(** The pipes hold one token and nothing else: the value [t], in the pipe
    vertex [d] reads along dimension [j]. *)
Definition single_token (n : Z) (len : nat) (d j t : Z) : list (list Z) :=
  <[Z.to_nat (own_idx n d j) := [t]]> (replicate len []).

(** The token values in the log of vertex [v], in the order they were
    printed. *)
Definition tokens_at (s : system) (v : nat) : list Z := logged_token <$> log_at s v.

(** Consecutive values of a log grow by 2 or more. *)
Definition increasing_by_two (ts : list Z) : Prop :=
  ∀ i a b, ts !! i = Some a → ts !! S i = Some b → a + 2 ≤ b.

(** Consecutive values of a log do not decrease. *)
Definition non_decreasing (ts : list Z) : Prop :=
  ∀ i a b, ts !! i = Some a → ts !! S i = Some b → a ≤ b.

(** Consecutive values of a log differ by exactly 1. *)
Definition increasing_by_one (ts : list Z) : Prop :=
  ∀ i a b, ts !! i = Some a → ts !! S i = Some b → b = a + 1.

(** What holds of each process in a run of the system. *)
Definition proc_inv (n : Z) (pipes : list pipe_t) (v : nat) (p : proc) : Prop :=
  match p with
  | Forked cp => wired n pipes (Z.of_nat v) cp
  | Waiting cp readfds l =>
      wired n pipes (Z.of_nat v) cp
      ∧ readfds_of n pipes (Z.of_nat v) readfds
      ∧ (v = 0%nat → ∃ rest, file l = LogSeed 1 :: rest)
      ∧ (v ≠ 0%nat → file l = [] → tv_sec (start l) = 0)
  | Ended _ _ | Crashed _ _ => False
  end.

(** What holds of the logs while the token [t] is on its way to vertex [d]. *)
Definition logs_inv (s : system) (d t : Z) : Prop :=
  ∀ v, increasing_by_two (tokens_at s v)
       ∧ (∀ a, a ∈ tokens_at s v → a ≤ t)
       ∧ (Z.of_nat v = d → ∀ a, a ∈ tokens_at s v → a + 1 ≤ t)
       ∧ (v ≠ 0%nat → ∀ a, a ∈ tokens_at s v → 2 ≤ a).

(** The invariant of a run that has taken at most [m] steps and in which no
    [fopen] has failed: the processes are wired and none has ended, and either
    nothing has been sent or logged yet, or exactly one token is in the
    pipes. *)
Definition inv (n : Z) (pipes : list pipe_t) (m : Z) (s : system) : Prop :=
  Z.of_nat (length (procs s)) = 2 ^ n
  ∧ (∀ v p, procs s !! v = Some p → proc_inv n pipes v p)
  ∧ ((queues s = replicate (length pipes) [] ∧ ∀ v, log_at s v = [])
     ∨ ∃ d j t,
         0 ≤ d < 2 ^ n ∧ 0 ≤ j < n ∧ 1 ≤ t ≤ m
         ∧ queues s = single_token n (length pipes) d j t
         ∧ (∀ cp, procs s !! 0%nat ≠ Some (Forked cp))
         ∧ logs_inv s d t
         ∧ (t = 1 → d ≠ 0)
         ∧ (t = 1 ∨ ∃ w rest, w ≠ 0%nat ∧ log_at s w = LogFirst 2 :: rest)).

(** The system after process [v] has become [p] and the pipes [qs]. *)
Definition upd (s : system) (v : nat) (p : proc) (qs : list (list Z)) : system :=
  {| procs := <[v := p]> (procs s); queues := qs |}.

(** What one step of a run can be, when [fopen] succeeds. *)
Inductive step_case (n : Z) (pipes : list pipe_t) (e : event) (s s' : system) : Prop :=
  | StepIdle : s' = s → step_case n pipes e s s'
  | StepStart cp fds :
      procs s !! ev_vertex e = Some (Forked cp) →
      ev_vertex e ≠ 0%nat →
      readfds_of n pipes (Z.of_nat (ev_vertex e)) fds →
      s' = upd s (ev_vertex e) (Waiting cp fds locals_init) (queues s) →
      step_case n pipes e s s'
  | StepSeed cp fds k :
      procs s !! ev_vertex e = Some (Forked cp) →
      ev_vertex e = 0%nat →
      queues s = replicate (length pipes) [] →
      0 ≤ k < n →
      readfds_of n pipes 0 fds →
      s' = upd s 0 (Waiting cp fds
                      {| token := 1; start := ev_now e; file := [LogSeed 1] |})
             (single_token n (length pipes) (Z.lxor 0 (2 ^ k)) k 1) →
      step_case n pipes e s s'
  | StepForward cp fds fds' l j t k :
      procs s !! ev_vertex e = Some (Waiting cp fds l) →
      queues s = single_token n (length pipes) (Z.of_nat (ev_vertex e)) j t →
      0 ≤ j < n → 0 ≤ k < n →
      readfds_of n pipes (Z.of_nat (ev_vertex e)) fds' →
      s' = upd s (ev_vertex e)
             (Waiting cp fds'
                {| token := t + 1; start := ev_now e;
                   file := file l ++ [arrival_line (start l) (ev_now e) (t + 1)] |})
             (single_token n (length pipes)
                (Z.lxor (Z.of_nat (ev_vertex e)) (2 ^ k)) k (t + 1)) →
      step_case n pipes e s s'.

(** The text [s] begins with [prefix]. *)
Definition starts_with (prefix s : string) : Prop := ∃ rest, s = prefix +:+ rest.

(** The scheduling decision "process [v] runs", at some time, with some value
    of [rand()] and a successful [fopen]. *)
Definition runs (v : nat) : event :=
  {| ev_vertex := v; ev_now := {| tv_sec := 100; tv_usec := 5 |};
     ev_rand := 7; ev_fopen := true |}.


(** Vertex [v] has entered [passToken]. *)
Definition started (s : system) (v : nat) : Prop :=
  ∀ cp, procs s !! v ≠ Some (Forked cp).

(** How many more times vertex 1 may have to run before its file has a first
    line, once vertex 0 has sent the token: twice when it has not entered
    [passToken] yet, once when it has, not at all when the line is there. *)
Definition pending_runs (s : system) : nat :=
  match log_at s 1 with
  | _ :: _ => 0
  | [] =>
      match procs s !! 1%nat with
      | Some (Forked _) => 2
      | _ => 1
      end
  end.

(** The number of events of [es] in which vertex [v] runs. *)
Definition runs_of (v : nat) (es : list event) : nat :=
  length (filter (λ e, ev_vertex e = v) es).

(** ** The rest of [createProcesses] *)

(** The parent after the [fork] loop:
    [for (i = 0; i < nbPipes; i++) { close(pipes[i][0]); close(pipes[i][1]); }] *)
Fixpoint close_pipes_loop (count : nat) (i : Z) (pipes : list pipe_t) (open : gset Z)
  : res (gset Z) :=
  match count with
  | O => Ret open
  | S c =>
      p ← aget pipes i;
      close_pipes_loop c (Int.add i 1) pipes (sys_close (wr p) (sys_close (rd p) open))
  end.

Definition parent_close_pipes (nbPipes : Z) (pipes : list pipe_t) (open : gset Z)
  : res (gset Z) :=
  close_pipes_loop (Z.to_nat nbPipes) 0 pipes open.

(** The child after [passToken] has returned:
    [for (j = 0; j < n * 2; j++) close(connectedPipes[j]);] *)
Fixpoint close_connected_loop (count : nat) (j : Z) (connectedPipes : list Z)
    (open : gset Z) : res (gset Z) :=
  match count with
  | O => Ret open
  | S c =>
      fd ← aget connectedPipes j;
      close_connected_loop c (Int.add j 1) connectedPipes (sys_close fd open)
  end.

Definition child_close_connected (n : Z) (connectedPipes : list Z) (open : gset Z)
  : res (gset Z) :=
  close_connected_loop (Z.to_nat (Int.mul n 2)) 0 connectedPipes open.

(** ** Further notions used to state properties *)

(** The number a string of binary digits writes, most significant digit
    first. *)
Fixpoint binary_value_from (s : string) (acc : Z) : Z :=
  match s with
  | EmptyString => acc
  | String c rest =>
      binary_value_from rest (2 * acc + (if bool_decide (c = "1"%char) then 1 else 0))
  end.

Definition binary_value (s : string) : Z := binary_value_from s 0.

(** The signals of [sigs] delivered to the parent one after the other: the
    globals at the end and the calls of [kill] made, in order. *)
Fixpoint deliver_each (sigs : list signal) (st : coordinator)
  : coordinator * list kill_call :=
  match sigs with
  | [] => (st, [])
  | sig :: rest =>
      let out := deliver sig st in
      let out' := deliver_each rest out.1 in
      (out'.1, out.2 ++ out'.2)
  end.

(** The calls of [kill] of [k] toggles in a row, the first of which stops the
    children. *)
Definition alternate_stop_cont (st : coordinator) (k : nat) : list kill_call :=
  mjoin ((λ i : nat, kill_all st (if Nat.even i then SIGSTOP else SIGCONT)) <$> seq 0 k).

(** The number of lines written so far to the files of all the vertices. *)
Definition lines_logged (s : system) : nat :=
  sum_list_with (λ p, length (log_of p)) (procs s).

(** The line is one of the form ["Token: %d, Time : %ld\n"]. *)
Definition is_arrival (l : log_line) : bool :=
  match l with
  | LogArrival _ _ => true
  | _ => false
  end.

(** The shape of the file of vertex [v]: nothing, or one first line, which is
    the line ["token: 1"] for vertex 0 and a line ["first received token: %d"]
    for another vertex, followed by lines ["Token: %d, Time : %ld"] only. *)
Definition log_shape (v : nat) (log : list log_line) : Prop :=
  match log with
  | [] => True
  | first :: rest =>
      (if decide (v = 0%nat) then first = LogSeed 1 else ∃ t, first = LogFirst t)
      ∧ Forall (λ l, is_arrival l = true) rest
  end.

(** What holds of the locals of every process that waits in [select], in a run
    in which the clock never reads 0 seconds. *)
Definition shape_inv (s : system) : Prop :=
  ∀ v cp fds l, procs s !! v = Some (Waiting cp fds l) →
    log_shape v (file l) ∧ (file l ≠ [] → tv_sec (start l) ≠ 0).

(** The token values written so far to the files of all the vertices, file
    after file. *)
Definition all_tokens (s : system) : list Z :=
  procs s ≫= (λ p, logged_token <$> log_of p).

(** Between two passes, the token in the pipes is the number of lines written
    so far. *)
Definition count_inv (s : system) : Prop :=
  (lines_logged s = 0%nat ∧ concat (queues s) = [])
  ∨ ((0 < lines_logged s)%nat ∧ concat (queues s) = [Z.of_nat (lines_logged s)]).

(** Whether the binary writing of a vertex number has an odd number of 1s. *)
Fixpoint pos_parity (p : positive) : bool :=
  match p with
  | xH => true
  | xO q => pos_parity q
  | xI q => negb (pos_parity q)
  end.

Definition bit_parity (v : Z) : bool :=
  match v with
  | Zpos p => pos_parity p
  | _ => false
  end.

Definition N_parity (x : N) : bool :=
  match x with
  | N0 => false
  | Npos p => pos_parity p
  end.

(** The tokens a vertex logs, and the token on its way to a vertex, are odd or
    even according to the number of 1s of the vertex. *)
Definition parity_inv (n : Z) (len : nat) (s : system) : Prop :=
  (∀ v a, a ∈ tokens_at s v → Z.odd a = negb (bit_parity (Z.of_nat v)))
  ∧ (∀ d j t, 0 ≤ d < 2 ^ n → 0 ≤ j < n →
       queues s = single_token n len d j t → Z.odd t = bit_parity d).
(** * Properties *)

(** ** Integer ranges *)

Lemma wrap_id z : Int.in_range z → Int.wrap z = z.
Proof.
  unfold Int.in_range, Int.INT_MIN, Int.INT_MAX, Int.wrap. intros Hz.
  rewrite Z.mod_small; lia.
Qed.


Lemma dim_ok_pow n : dim_ok n → 1 ≤ 2 ^ n ≤ 67108864.
Proof.
  intros [H0 H1]. split.
  - pose proof (Z.pow_pos_nonneg 2 n). lia.
  - change 67108864 with (2 ^ 26). apply Z.pow_le_mono_r; lia.
Qed.

Lemma pow_lt_dim n j : dim_ok n → 0 ≤ j < n → 1 ≤ 2 ^ j ∧ 2 * 2 ^ j ≤ 2 ^ n.
Proof.
  intros Hn Hj. split.
  - pose proof (Z.pow_pos_nonneg 2 j). lia.
  - rewrite <- Z.pow_succ_r by lia. apply Z.pow_le_mono_r; lia.
Qed.

Lemma shl_one j : 0 ≤ j ≤ 26 → Int.shl 1 j = 2 ^ j.
Proof.
  intros Hj. unfold Int.shl. rewrite Z.shiftl_1_l.
  apply wrap_id. pose proof (dim_ok_pow j Hj).
  unfold Int.in_range, Int.INT_MIN, Int.INT_MAX. lia.
Qed.

Lemma nbPipes_of_ok n : dim_ok n → nbPipes_of n = 2 ^ n * n.
Proof.
  intros Hn. unfold nbPipes_of. rewrite shl_one by exact Hn.
  apply wrap_id. pose proof (dim_ok_pow n Hn). destruct Hn.
  unfold Int.in_range, Int.INT_MIN, Int.INT_MAX. nia.
Qed.

Lemma index_ok n i j :
  dim_ok n → 0 ≤ i < 2 ^ n → 0 ≤ j < n →
  Int.add (Int.mul i n) j = i * n + j ∧ 0 ≤ i * n + j < 2 ^ n * n.
Proof.
  intros Hn Hi Hj. pose proof (dim_ok_pow n Hn). destruct Hn.
  unfold Int.add, Int.mul.
  rewrite (wrap_id (i * n)) by (unfold Int.in_range, Int.INT_MIN, Int.INT_MAX; nia).
  rewrite wrap_id by (unfold Int.in_range, Int.INT_MIN, Int.INT_MAX; nia).
  nia.
Qed.

Lemma lxor_bound a b n :
  0 ≤ n → 0 ≤ a < 2 ^ n → 0 ≤ b < 2 ^ n → 0 ≤ Z.lxor a b < 2 ^ n.
Proof.
  intros Hn Ha Hb.
  assert (H0 : 0 ≤ Z.lxor a b) by (apply Z.lxor_nonneg; lia).
  split; [exact H0|].
  pose proof (Z.pow_pos_nonneg 2 n) as Hpos.
  destruct (decide (Z.lxor a b = 0)) as [->|Hne]; [lia|].
  apply Z.log2_lt_pow2; [lia|].
  eapply Z.le_lt_trans; [apply Z.log2_lxor; lia|].
  assert (Hlog : ∀ c, 0 ≤ c < 2 ^ n → Z.log2 c < n).
  { intros c Hc. destruct (decide (c = 0)) as [->|Hc0].
    - change (Z.log2 0) with 0. destruct (decide (n = 0)) as [->|]; [|lia].
      change (2 ^ 0) with 1 in Ha, Hb.
      assert (a = 0) by lia. assert (b = 0) by lia.
      subst. rewrite Z.lxor_0_l in Hne. lia.
    - apply Z.log2_lt_pow2; lia. }
  apply Z.max_lub_lt; auto.
Qed.

Lemma neighbour_of_ok n i j :
  dim_ok n → 0 ≤ i < 2 ^ n → 0 ≤ j < n →
  neighbour_of i j = Z.lxor i (2 ^ j) ∧ 0 ≤ Z.lxor i (2 ^ j) < 2 ^ n.
Proof.
  intros Hn Hi Hj. unfold neighbour_of, Int.xor.
  rewrite shl_one by (destruct Hn; lia). split; [done|].
  apply lxor_bound; [destruct Hn; lia|done|].
  pose proof (pow_lt_dim n j Hn Hj). lia.
Qed.

Lemma neighbour_ne i j : 0 ≤ j → Z.lxor i (2 ^ j) ≠ i.
Proof.
  intros Hj Heq.
  assert (H : Z.lxor i (Z.lxor i (2 ^ j)) = 0) by (rewrite Heq; apply Z.lxor_nilpotent).
  rewrite <- Z.lxor_assoc, Z.lxor_nilpotent, Z.lxor_0_l in H.
  pose proof (Z.pow_pos_nonneg 2 j). lia.
Qed.

Lemma neighbour_inj v w j : Z.lxor v (2 ^ j) = Z.lxor w (2 ^ j) → v = w.
Proof.
  intros Heq.
  assert (H : Z.lxor (Z.lxor v (2 ^ j)) (2 ^ j) = Z.lxor (Z.lxor w (2 ^ j)) (2 ^ j))
    by (rewrite Heq; done).
  rewrite !Z.lxor_assoc, !Z.lxor_nilpotent, !Z.lxor_0_r in H. exact H.
Qed.

Lemma index_inj n v j w k :
  0 ≤ j < n → 0 ≤ k < n → v * n + j = w * n + k → v = w ∧ j = k.
Proof.
  intros Hj Hk Heq.
  assert (Hv : (v * n + j) `div` n = v) by (rewrite Z.div_add_l, Z.div_small; lia).
  assert (Hw : (w * n + k) `div` n = w) by (rewrite Z.div_add_l, Z.div_small; lia).
  rewrite Heq, Hw in Hv. subst w. lia.
Qed.

(** ** Descriptors handed out by [pipe] *)

Lemma lowest_free_Some limit open fd :
  lowest_free limit open = Some fd → (fd ∉ open) ∧ (0 ≤ fd < limit).
Proof.
  unfold lowest_free. intros H.
  apply fmap_Some in H as ([i x] & Hfind & ->). simpl.
  apply list_find_Some in Hfind as (Hl & Hx & _).
  split; [exact Hx|]. apply lookup_seqZ in Hl. lia.
Qed.

Lemma lowest_free_is_Some limit open :
  Z.of_nat (size open) < limit → is_Some (lowest_free limit open).
Proof.
  intros Hsize. unfold lowest_free.
  destruct (list_find _ _) as [[i x]|] eqn:Hfind; [by eexists|].
  exfalso. apply list_find_None in Hfind.
  assert (Hsub : list_to_set (C := gset Z) (seqZ 0 limit) ⊆ open).
  { intros x Hx. apply elem_of_list_to_set in Hx.
    rewrite Forall_forall in Hfind. specialize (Hfind x Hx).
    destruct (decide (x ∈ open)); [done|]. by destruct Hfind. }
  apply subseteq_size in Hsub.
  rewrite size_list_to_set in Hsub by apply NoDup_seqZ.
  rewrite length_seqZ in Hsub. lia.
Qed.

Lemma sys_pipe_Some limit open r w open' :
  sys_pipe limit open = Some (r, w, open') →
  (r ∉ open) ∧ (w ∉ open) ∧ r ≠ w ∧ open' = {[w]} ∪ ({[r]} ∪ open)
  ∧ (0 ≤ r < limit) ∧ (0 ≤ w < limit).
Proof.
  unfold sys_pipe. intros H.
  destruct (lowest_free limit open) as [r'|] eqn:Hr; [|done]. simpl in H.
  destruct (lowest_free limit ({[r']} ∪ open)) as [w'|] eqn:Hw; [|done].
  simpl in H. injection H as <- <- <-.
  apply lowest_free_Some in Hr as [Hr Hrl].
  apply lowest_free_Some in Hw as [Hw Hwl].
  split_and!; try lia; set_solver.
Qed.

Lemma sys_pipe_is_Some limit open :
  Z.of_nat (size open) + 2 ≤ limit →
  ∃ r w open', sys_pipe limit open = Some (r, w, open')
               ∧ size open' = S (S (size open)).
Proof.
  intros Hsize. unfold sys_pipe.
  destruct (lowest_free_is_Some limit open) as [r Hr]; [lia|].
  pose proof (lowest_free_Some _ _ _ Hr) as [Hr' _].
  assert (Hs1 : size ({[r]} ∪ open) = S (size open)).
  { rewrite size_union by set_solver. by rewrite size_singleton. }
  destruct (lowest_free_is_Some limit ({[r]} ∪ open)) as [w Hw]; [lia|].
  pose proof (lowest_free_Some _ _ _ Hw) as [Hw' _].
  exists r, w, ({[w]} ∪ ({[r]} ∪ open)). rewrite Hr. simpl. rewrite Hw. simpl.
  split; [done|].
  rewrite size_union by set_solver. by rewrite size_singleton, Hs1.
Qed.

Lemma pipe_loop_Ret limit c : ∀ open ps open',
  pipe_loop c limit open = Ret (ps, open') →
  length ps = c ∧ NoDup (table_fds ps)
  ∧ (∀ fd, fd ∈ table_fds ps → (fd ∉ open) ∧ (0 ≤ fd < limit))
  ∧ open' = list_to_set (table_fds ps) ∪ open.
Proof.
  induction c as [|c IH]; intros open ps open' H; simpl in H.
  - injection H as <- <-. split_and!; try done.
    + constructor.
    + intros fd Hfd. by apply elem_of_nil in Hfd.
    + set_solver.
  - destruct (sys_pipe limit open) as [[[r w] open1]|] eqn:Hp; [|done].
    destruct (pipe_loop c limit open1) as [[ps1 open2]| |] eqn:Hl; try done.
    simpl in H. injection H as <- <-.
    apply sys_pipe_Some in Hp as (Hr & Hw & Hrw & -> & Hrl & Hwl).
    destruct (IH _ _ _ Hl) as (Hlen & Hnd & Hfresh & ->).
    unfold table_fds in *. simpl. split_and!.
    + by rewrite Hlen.
    + apply NoDup_cons. split.
      * intros Hin. apply elem_of_cons in Hin as [?|Hin]; [done|].
        apply Hfresh in Hin. set_solver.
      * apply NoDup_cons. split; [|done].
        intros Hin. apply Hfresh in Hin. set_solver.
    + intros fd Hfd.
      apply elem_of_cons in Hfd as [->|Hfd]; [done|].
      apply elem_of_cons in Hfd as [->|Hfd]; [done|].
      apply Hfresh in Hfd. set_solver.
    + set_solver.
Qed.

Lemma pipe_loop_success limit c : ∀ open,
  Z.of_nat (size open) + 2 * Z.of_nat c ≤ limit →
  ∃ ps open', pipe_loop c limit open = Ret (ps, open').
Proof.
  induction c as [|c IH]; intros open Hsize; simpl.
  - by eexists _, _.
  - destruct (sys_pipe_is_Some limit open) as (r & w & open1 & -> & Hs); [lia|].
    destruct (IH open1) as (ps & open2 & ->); [lia|].
    simpl. by eexists _, _.
Qed.

(** ** The pipe table *)

Lemma aget_Ret {A} (l : list A) k x :
  0 ≤ k → l !! Z.to_nat k = Some x → aget l k = Ret x.
Proof. intros Hk Hl. unfold aget. rewrite bool_decide_true by done. by rewrite Hl. Qed.

Lemma aset_Ret {A} (l : list A) k x :
  0 ≤ k < Z.of_nat (length l) → aset l k x = Ret (<[Z.to_nat k := x]> l).
Proof. intros Hk. unfold aset. by rewrite bool_decide_true. Qed.

Lemma table_fds_lookup pipes a p :
  pipes !! a = Some p → rd p ∈ table_fds pipes ∧ wr p ∈ table_fds pipes.
Proof.
  intros Hp. unfold table_fds.
  split; apply list_elem_of_bind; exists p;
    (split; [set_solver|by eapply list_elem_of_lookup_2]).
Qed.

Lemma table_fds_distinct pipes : ∀ a b p q,
  NoDup (table_fds pipes) → pipes !! a = Some p → pipes !! b = Some q →
  (rd p = rd q → a = b) ∧ (wr p = wr q → a = b) ∧ (rd p = wr q → False).
Proof.
  induction pipes as [|x ps IH]; intros a b p q Hnd Ha Hb; [done|].
  change (table_fds (x :: ps)) with (rd x :: wr x :: table_fds ps) in Hnd.
  apply NoDup_cons in Hnd as [Hr Hnd]. apply NoDup_cons in Hnd as [Hw Hnd].
  destruct a as [|a], b as [|b]; simpl in Ha, Hb.
  - injection Ha as <-. injection Hb as <-. split_and!; [done|done|].
    intros Heq. apply Hr. rewrite Heq. left.
  - injection Ha as <-. apply table_fds_lookup in Hb as [Hb1 Hb2].
    split_and!; intros Heq.
    + exfalso. apply Hr. right. by rewrite Heq.
    + exfalso. apply Hw. by rewrite Heq.
    + apply Hr. right. by rewrite Heq.
  - injection Hb as <-. apply table_fds_lookup in Ha as [Ha1 Ha2].
    split_and!; intros Heq.
    + exfalso. apply Hr. right. by rewrite <- Heq.
    + exfalso. apply Hw. by rewrite <- Heq.
    + apply Hw. by rewrite <- Heq.
  - destruct (IH a b p q Hnd Ha Hb) as (H1 & H2 & H3).
    split_and!; [intros; f_equal; auto|intros; f_equal; auto|done].
Qed.

Lemma omap_total {A B} (f : A → option B) (g : A → B) (l : list A) :
  (∀ x, x ∈ l → f x = Some (g x)) → omap f l = g <$> l.
Proof.
  induction l as [|x l IH]; intros Hf; [done|]. simpl.
  rewrite Hf by left. f_equal. apply IH. intros y Hy. apply Hf. by right.
Qed.

Lemma needClose_false cp p :
  needClose cp p = false ↔ rd p ∈ cp ∨ wr p ∈ cp.
Proof.
  unfold needClose. rewrite negb_false_iff.
  induction cp as [|c cp IH]; simpl.
  - split; [done|]. intros [H|H]; by apply elem_of_nil in H.
  - rewrite orb_true_iff, IH, orb_true_iff, !bool_decide_eq_true, !elem_of_cons.
    tauto.
Qed.

Lemma close_unconnected_spec cp pipes : ∀ open fd,
  fd ∈ close_unconnected cp pipes open ↔
  fd ∈ open ∧ ∀ p, p ∈ pipes → needClose cp p = true → fd ≠ rd p ∧ fd ≠ wr p.
Proof.
  unfold close_unconnected.
  induction pipes as [|x ps IH]; intros open fd; simpl.
  - split; [|by intros []]. intros Hfd. split; [done|].
    intros p Hp. by apply elem_of_nil in Hp.
  - rewrite IH. split.
    + intros [Hfd Hrest]. split.
      * destruct (needClose cp x); [unfold sys_close in Hfd; set_solver|done].
      * intros p Hp Hc. apply elem_of_cons in Hp as [->|Hp]; [|by apply Hrest].
        rewrite Hc in Hfd. unfold sys_close in Hfd. set_solver.
    + intros [Hfd Hrest]. split.
      * destruct (needClose cp x) eqn:Hc; [|done].
        destruct (Hrest x) as [? ?]; [left|done|]. unfold sys_close. set_solver.
      * intros p Hp. apply Hrest. by right.
Qed.

Section topology.
Context (n : Z) (pipes : list pipe_t).
Hypothesis Hn : dim_ok n.
Hypothesis Hlen : Z.of_nat (length pipes) = 2 ^ n * n.
Hypothesis Hnd : NoDup (table_fds pipes).

Local Abbreviation chan := (chan pipes).
Local Abbreviation own_idx := (own_idx n).
Local Abbreviation nb_idx := (nb_idx n).


Lemma chan_lookup k : 0 ≤ k < 2 ^ n * n → pipes !! Z.to_nat k = Some (chan k).
Proof. intros Hk. apply list_lookup_lookup_total_lt. lia. Qed.

Lemma chan_inj a b :
  0 ≤ a < 2 ^ n * n → 0 ≤ b < 2 ^ n * n →
  (rd (chan a) = rd (chan b) → a = b) ∧ (wr (chan a) = wr (chan b) → a = b)
  ∧ rd (chan a) ≠ wr (chan b).
Proof.
  intros Ha Hb.
  destruct (table_fds_distinct pipes _ _ _ _ Hnd (chan_lookup a Ha) (chan_lookup b Hb))
    as (H1 & H2 & H3).
  split_and!; [intros; apply H1 in H; lia|intros; apply H2 in H; lia|done].
Qed.


Lemma own_idx_range v k : 0 ≤ v < 2 ^ n → 0 ≤ k < n → 0 ≤ own_idx v k < 2 ^ n * n.
Proof. intros Hv Hk. by apply index_ok. Qed.

Lemma nb_idx_range v k : 0 ≤ v < 2 ^ n → 0 ≤ k < n → 0 ≤ nb_idx v k < 2 ^ n * n.
Proof.
  intros Hv Hk. destruct (neighbour_of_ok n v k Hn Hv Hk) as [_ Hnb].
  by apply index_ok.
Qed.

Lemma own_nb_ne v k l :
  0 ≤ v < 2 ^ n → 0 ≤ k < n → 0 ≤ l < n → own_idx v k ≠ nb_idx v l.
Proof.
  intros Hv Hk Hl Heq. unfold own_idx, nb_idx in Heq.
  apply index_inj in Heq as [Heq _]; [|done|done].
  symmetry in Heq. apply neighbour_ne in Heq; [done|by destruct Hl].
Qed.

Lemma own_index_eq v k :
  0 ≤ v < 2 ^ n → 0 ≤ k < n → Int.add (Int.mul v n) k = own_idx v k.
Proof. intros Hv Hk. by apply index_ok. Qed.

Lemma nb_index_eq v k :
  0 ≤ v < 2 ^ n → 0 ≤ k < n →
  Int.add (Int.mul (neighbour_of v k) n) k = nb_idx v k.
Proof.
  intros Hv Hk. destruct (neighbour_of_ok n v k Hn Hv Hk) as [-> Hnb].
  by apply index_ok.
Qed.

Lemma slot_eq k :
  0 ≤ k < n →
  Int.mul 2 k = 2 * k ∧ Int.add (Int.mul 2 k) 1 = 2 * k + 1 ∧ Int.add k 1 = k + 1.
Proof.
  intros Hk. destruct Hn. unfold Int.add, Int.mul.
  rewrite !(wrap_id (2 * k)) by (unfold Int.in_range, Int.INT_MIN, Int.INT_MAX; lia).
  rewrite !wrap_id by (unfold Int.in_range, Int.INT_MIN, Int.INT_MAX; lia).
  done.
Qed.

(** What the first loop of the child leaves in [connectedPipes] and in the
    descriptor table, from dimension [j] on. *)
Lemma connect_loop_spec v (Hv : 0 ≤ v < 2 ^ n) : ∀ c j cp open,
  j + Z.of_nat c = n → 0 ≤ j → Z.of_nat (length cp) = 2 * n →
  ∃ cp' open',
    connect_loop c j n v pipes cp open = Ret (cp', open')
    ∧ length cp' = length cp
    ∧ (∀ idx : nat, Z.of_nat idx < 2 * j → cp' !! idx = cp !! idx)
    ∧ (∀ k, j ≤ k < n →
         cp' !! Z.to_nat (2 * k) = Some (rd (chan (own_idx v k)))
         ∧ cp' !! Z.to_nat (2 * k + 1) = Some (wr (chan (nb_idx v k))))
    ∧ (∀ fd, fd ∈ open' ↔
         fd ∈ open ∧ ∀ k, j ≤ k < n →
           fd ≠ wr (chan (own_idx v k)) ∧ fd ≠ rd (chan (nb_idx v k))).
Proof.
  induction c as [|c IH]; intros j cp open Hj Hj0 Hcp.
  - exists cp, open. split_and!; try done.
    + intros k Hk. lia.
    + intros fd. split; [intros Hfd; split; [done|intros; lia]|by intros []].
  - assert (Hjn : 0 ≤ j < n) by lia.
    destruct (slot_eq j Hjn) as (E1 & E2 & E3).
    cbn [connect_loop].
    rewrite (own_index_eq v j), (nb_index_eq v j), E2, E1, E3 by done.
    rewrite (aget_Ret pipes (own_idx v j) (chan (own_idx v j)));
      [|by apply own_idx_range|by apply chan_lookup, own_idx_range].
    cbn [mbind res_bind].
    rewrite aset_Ret by lia. cbn [mbind res_bind].
    rewrite (aget_Ret pipes (nb_idx v j) (chan (nb_idx v j)));
      [|by apply nb_idx_range|by apply chan_lookup, nb_idx_range].
    cbn [mbind res_bind].
    rewrite aset_Ret by (rewrite length_insert; lia). cbn [mbind res_bind].
    set (cp2 := <[Z.to_nat (2 * j + 1) := wr (chan (nb_idx v j))]>
                  (<[Z.to_nat (2 * j) := rd (chan (own_idx v j))]> cp)).
    set (open2 := sys_close (rd (chan (nb_idx v j)))
                    (sys_close (wr (chan (own_idx v j))) open)).
    destruct (IH (j + 1) cp2 open2) as (cp' & open' & Hrun & Hlen' & Hkeep & Hnew & Hopen).
    { lia. } { lia. } { unfold cp2. rewrite !length_insert. lia. }
    exists cp', open'. split_and!.
    + exact Hrun.
    + rewrite Hlen'. unfold cp2. by rewrite !length_insert.
    + intros idx Hidx. rewrite Hkeep by lia. unfold cp2.
      rewrite !list_lookup_insert_ne by lia. done.
    + intros k Hk. destruct (decide (k = j)) as [->|Hkj].
      * rewrite !Hkeep by lia. unfold cp2. split.
        -- rewrite list_lookup_insert_ne by lia.
           apply list_lookup_insert_eq. lia.
        -- apply list_lookup_insert_eq. rewrite length_insert. lia.
      * apply Hnew. lia.
    + intros fd. rewrite Hopen. unfold open2, sys_close. split.
      * intros [Hfd Hrest]. split; [set_solver|].
        intros k Hk. destruct (decide (k = j)) as [->|Hkj]; [set_solver|].
        apply Hrest. lia.
      * intros [Hfd Hrest]. split.
        -- destruct (Hrest j) as [? ?]; [lia|]. set_solver.
        -- intros k Hk. apply Hrest. lia.
Qed.

Lemma chan_of_elem p :
  p ∈ pipes → ∃ a, 0 ≤ a < 2 ^ n * n ∧ p = chan a.
Proof.
  intros Hp. apply list_elem_of_lookup in Hp as [i Hi].
  pose proof (lookup_lt_Some _ _ _ Hi) as Hlt.
  exists (Z.of_nat i). split; [lia|].
  unfold chan. rewrite Nat2Z.id. symmetry. by apply list_lookup_total_correct.
Qed.

(** The child branch for vertex [v]: it runs to the call of [passToken],
    [connectedPipes] holds for each dimension the read end of the pipe at
    [v * n + k] and the write end of the pipe at [neighbour * n + k], and of
    the descriptors of the table exactly those stay open. *)
Lemma child_setup_spec v open :
  0 ≤ v < 2 ^ n → (∀ fd, fd ∈ table_fds pipes → fd ∈ open) →
  ∃ cp open_v,
    child_setup n v pipes open = Ret (cp, open_v)
    ∧ Z.of_nat (length cp) = 2 * n
    ∧ (∀ k, 0 ≤ k < n →
         cp !! Z.to_nat (2 * k) = Some (rd (chan (own_idx v k)))
         ∧ cp !! Z.to_nat (2 * k + 1) = Some (wr (chan (nb_idx v k))))
    ∧ (∀ fd, fd ∈ cp ↔
         ∃ k, 0 ≤ k < n
              ∧ (fd = rd (chan (own_idx v k)) ∨ fd = wr (chan (nb_idx v k))))
    ∧ (∀ fd, fd ∈ table_fds pipes → fd ∈ open_v ↔ fd ∈ cp).
Proof.
  intros Hv Hopen. unfold child_setup.
  assert (E : Int.mul n 2 = 2 * n).
  { destruct Hn. unfold Int.mul. rewrite wrap_id; [lia|].
    unfold Int.in_range, Int.INT_MIN, Int.INT_MAX. lia. }
  rewrite E.
  destruct (connect_loop_spec v Hv (Z.to_nat n) 0
              (replicate (Z.to_nat (2 * n)) 0) open)
    as (cp & open1 & -> & Hlen' & _ & Hcp & Hopen1).
  { destruct Hn. lia. } { done. } { rewrite length_replicate. destruct Hn. lia. }
  rewrite length_replicate in Hlen'. cbn [mbind res_bind].
  assert (Hmem : ∀ fd, fd ∈ cp ↔
            ∃ k, 0 ≤ k < n
                 ∧ (fd = rd (chan (own_idx v k)) ∨ fd = wr (chan (nb_idx v k)))).
  { intros fd. split.
    - intros Hfd. apply list_elem_of_lookup in Hfd as [i Hi].
      pose proof (lookup_lt_Some _ _ _ Hi) as Hlt.
      exists (Z.of_nat i `div` 2).
      assert (Hk : 0 ≤ Z.of_nat i `div` 2 < n).
      { split; [apply Z.div_pos; lia|apply Z.div_lt_upper_bound; lia]. }
      split; [done|]. destruct (Hcp _ Hk) as [H0 H1].
      destruct (decide (Z.of_nat i `mod` 2 = 0)) as [Hm|Hm].
      + left. replace (Z.to_nat (2 * (Z.of_nat i `div` 2))) with i in H0
          by (pose proof (Z.div_mod (Z.of_nat i) 2); lia).
        congruence.
      + right. replace (Z.to_nat (2 * (Z.of_nat i `div` 2) + 1)) with i in H1
          by (pose proof (Z.div_mod (Z.of_nat i) 2);
              pose proof (Z.mod_pos_bound (Z.of_nat i) 2); lia).
        congruence.
    - intros (k & Hk & [->| ->]); destruct (Hcp _ Hk) as [H0 H1];
        by eapply list_elem_of_lookup_2. }
  exists cp, (close_unconnected cp pipes open1). split_and!; try done.
  - destruct Hn. lia.
  - intros fd Hfd. rewrite close_unconnected_spec, Hopen1. split.
    + intros [[_ Hfirst] Hsweep].
      apply list_elem_of_bind in Hfd as (p & Hend & Hp).
      destruct (needClose cp p) eqn:Hc.
      { destruct (Hsweep p Hp Hc). set_solver. }
      destruct (chan_of_elem p Hp) as (a & Ha & ->).
      apply needClose_false in Hc as [Hc|Hc];
        apply Hmem in Hc as (k & Hk & [Hc|Hc]).
      * apply chan_inj in Hc as ->; [|done|by apply own_idx_range].
        destruct (Hfirst k) as [? ?]; [lia|].
        apply Hmem. exists k. split; [done|]. left. set_solver.
      * by apply chan_inj in Hc; [|done|by apply nb_idx_range].
      * symmetry in Hc.
        by apply chan_inj in Hc; [|by apply own_idx_range|done].
      * apply chan_inj in Hc as ->; [|done|by apply nb_idx_range].
        destruct (Hfirst k) as [? ?]; [lia|].
        apply Hmem. exists k. split; [done|]. right. set_solver.
    + intros Hcpfd. pose proof Hcpfd as Hcpfd'.
      apply Hmem in Hcpfd as (k & Hk & [->| ->]).
      * split_and!; [by apply Hopen| |].
        -- intros k' Hk'. split.
           ++ by apply chan_inj; [apply own_idx_range|apply own_idx_range].
           ++ intros Heq. apply chan_inj in Heq;
                [|by apply own_idx_range|by apply nb_idx_range].
              exact (own_nb_ne v k k' Hv Hk Hk' Heq).
        -- intros p Hp Hc.
           destruct (chan_of_elem p Hp) as (a & Ha & ->). split.
           ++ intros Heq. rewrite Heq in Hcpfd'.
              assert (needClose cp (chan a) = false)
                by (apply needClose_false; by left).
              congruence.
           ++ by apply chan_inj; [apply own_idx_range|].
      * split_and!; [by apply Hopen| |].
        -- intros k' Hk'. split.
           ++ intros Heq. apply chan_inj in Heq;
                [|by apply nb_idx_range|by apply own_idx_range].
              symmetry in Heq. exact (own_nb_ne v k' k Hv Hk' Hk Heq).
           ++ intros Heq. symmetry in Heq. revert Heq.
              by apply chan_inj; [apply nb_idx_range|apply nb_idx_range].
        -- intros p Hp Hc.
           destruct (chan_of_elem p Hp) as (a & Ha & ->). split.
           ++ intros Heq. symmetry in Heq. revert Heq.
              by apply chan_inj; [|apply nb_idx_range].
           ++ intros Heq. rewrite Heq in Hcpfd'.
              assert (needClose cp (chan a) = false)
                by (apply needClose_false; by right).
              congruence.
Qed.

Local Abbreviation wired := (wired n pipes).

Lemma read_ends_wired v cp :
  wired v cp →
  read_ends n cp = (λ k : nat, rd (chan (own_idx v (Z.of_nat k)))) <$> seq 0 (Z.to_nat n).
Proof.
  intros [_ Hcp]. unfold read_ends. apply omap_total.
  intros k Hk. apply elem_of_seq in Hk.
  destruct (Hcp (Z.of_nat k)) as [H0 _]; [lia|].
  by replace (Z.to_nat (2 * Z.of_nat k)) with (2 * k)%nat in H0 by lia.
Qed.

Lemma write_ends_wired v cp :
  wired v cp →
  write_ends n cp = (λ k : nat, wr (chan (nb_idx v (Z.of_nat k)))) <$> seq 0 (Z.to_nat n).
Proof.
  intros [_ Hcp]. unfold write_ends. apply omap_total.
  intros k Hk. apply elem_of_seq in Hk.
  destruct (Hcp (Z.of_nat k)) as [_ H1]; [lia|].
  by replace (Z.to_nat (2 * Z.of_nat k + 1)) with (2 * k + 1)%nat in H1 by lia.
Qed.

Lemma elem_of_read_ends v cp fd :
  wired v cp →
  fd ∈ read_ends n cp ↔ ∃ k, 0 ≤ k < n ∧ fd = rd (chan (own_idx v k)).
Proof.
  intros Hw. rewrite (read_ends_wired v cp Hw), list_elem_of_fmap. split.
  - intros (k & -> & Hk). apply elem_of_seq in Hk. exists (Z.of_nat k). split; [lia|done].
  - intros (k & Hk & ->). exists (Z.to_nat k). rewrite Z2Nat.id by lia.
    split; [done|]. apply elem_of_seq. lia.
Qed.

Lemma elem_of_write_ends v cp fd :
  wired v cp →
  fd ∈ write_ends n cp ↔ ∃ k, 0 ≤ k < n ∧ fd = wr (chan (nb_idx v k)).
Proof.
  intros Hw. rewrite (write_ends_wired v cp Hw), list_elem_of_fmap. split.
  - intros (k & -> & Hk). apply elem_of_seq in Hk. exists (Z.of_nat k). split; [lia|done].
  - intros (k & Hk & ->). exists (Z.to_nat k). rewrite Z2Nat.id by lia.
    split; [done|]. apply elem_of_seq. lia.
Qed.

Lemma nb_idx_inj v k w l :
  0 ≤ k < n → 0 ≤ l < n → nb_idx v k = nb_idx w l → v = w ∧ k = l.
Proof.
  intros Hk Hl Heq. unfold nb_idx in Heq.
  apply index_inj in Heq as [Heq ->]; [|done|done].
  split; [by eapply neighbour_inj|done].
Qed.

Lemma chan_elem k : 0 ≤ k < 2 ^ n * n → chan k ∈ pipes.
Proof. intros Hk. eapply list_elem_of_lookup_2. by apply chan_lookup. Qed.

Lemma wired_holds v cp open_v :
  0 ≤ v < 2 ^ n → wired v cp →
  (∀ fd, fd ∈ table_fds pipes → fd ∈ open_v ↔ fd ∈ cp) →
  (∀ fd, fd ∈ cp ↔
     ∃ k, 0 ≤ k < n
          ∧ (fd = rd (chan (own_idx v k)) ∨ fd = wr (chan (nb_idx v k)))) →
  holds_endpoints n pipes cp open_v.
Proof.
  intros Hv Hw Hopen Hmem. unfold holds_endpoints. split_and!.
  - rewrite (read_ends_wired v cp Hw), length_fmap, length_seq. destruct Hn. lia.
  - rewrite (read_ends_wired v cp Hw). apply NoDup_fmap_2_strong; [|apply NoDup_seq].
    intros x y Hx Hy Heq. apply elem_of_seq in Hx, Hy.
    apply chan_inj in Heq; [|apply own_idx_range; lia|apply own_idx_range; lia].
    apply index_inj in Heq; lia.
  - intros fd Hfd. apply (elem_of_read_ends v cp fd Hw) in Hfd as (k & Hk & ->).
    apply list_elem_of_fmap_2. by apply chan_elem, own_idx_range.
  - rewrite (write_ends_wired v cp Hw), length_fmap, length_seq. destruct Hn. lia.
  - rewrite (write_ends_wired v cp Hw). apply NoDup_fmap_2_strong; [|apply NoDup_seq].
    intros x y Hx Hy Heq. apply elem_of_seq in Hx, Hy.
    apply chan_inj in Heq; [|apply nb_idx_range; lia|apply nb_idx_range; lia].
    apply nb_idx_inj in Heq; lia.
  - intros fd Hfd. apply (elem_of_write_ends v cp fd Hw) in Hfd as (k & Hk & ->).
    apply list_elem_of_fmap_2. by apply chan_elem, nb_idx_range.
  - intros fd Hfd. rewrite (Hopen fd Hfd), Hmem.
    rewrite (elem_of_read_ends v cp fd Hw), (elem_of_write_ends v cp fd Hw).
    naive_solver.
Qed.

Lemma wired_no_shared v w cp cp' :
  0 ≤ v < 2 ^ n → 0 ≤ w < 2 ^ n → v ≠ w → wired v cp → wired w cp' →
  no_shared_endpoint n cp cp'.
Proof.
  intros Hv Hw Hne Hcp Hcp'. split; intros fd Hfd Hfd'.
  - apply (elem_of_read_ends v cp fd Hcp) in Hfd as (k & Hk & ->).
    apply (elem_of_read_ends w cp' _ Hcp') in Hfd' as (l & Hl & Heq).
    apply chan_inj in Heq; [|by apply own_idx_range|by apply own_idx_range].
    apply index_inj in Heq as [? ?]; done.
  - apply (elem_of_write_ends v cp fd Hcp) in Hfd as (k & Hk & ->).
    apply (elem_of_write_ends w cp' _ Hcp') in Hfd' as (l & Hl & Heq).
    apply chan_inj in Heq; [|by apply nb_idx_range|by apply nb_idx_range].
    apply nb_idx_inj in Heq as [? ?]; done.
Qed.

End topology.

Lemma createPipes_Ret limit open0 n nb pipes open :
  dim_ok n → createPipes limit open0 n = Ret (nb, pipes, open) →
  nb = 2 ^ n * n ∧ Z.of_nat (length pipes) = 2 ^ n * n
  ∧ NoDup (table_fds pipes)
  ∧ (∀ fd, fd ∈ table_fds pipes → (fd ∉ open0) ∧ fd ∈ open).
Proof.
  intros Hn. unfold createPipes. rewrite (nbPipes_of_ok n Hn).
  destruct (pipe_loop _ limit open0) as [[ps open1]| |] eqn:Hl; try done.
  cbn [mbind res_bind]. intros [= <- <- <-].
  apply pipe_loop_Ret in Hl as (Hlen & Hnd & Hfresh & ->).
  pose proof (dim_ok_pow n Hn). destruct Hn.
  split_and!; [done|nia|done|].
  intros fd Hfd. split; [by apply Hfresh|set_solver].
Qed.

Lemma createPipes_success limit open0 n :
  dim_ok n → Z.of_nat (size open0) + 2 * (n * 2 ^ n) ≤ limit →
  ∃ nb pipes open, createPipes limit open0 n = Ret (nb, pipes, open).
Proof.
  intros Hn Hroom. unfold createPipes. rewrite (nbPipes_of_ok n Hn).
  pose proof (dim_ok_pow n Hn). destruct Hn.
  destruct (pipe_loop_success limit (Z.to_nat (2 ^ n * n)) open0) as (ps & open1 & ->);
    [nia|].
  cbn [mbind res_bind]. by eexists _, _, _.
Qed.

(** ** Dimensions whose table does not fit in an [int] *)

Lemma nbPipes_of_large n : 27 ≤ n → nbPipes_of n ≤ 0.
Proof.
  intros Hn. destruct (decide (n ≤ 31)) as [Hle|Hgt].
  - assert (n = 27 ∨ n = 28 ∨ n = 29 ∨ n = 30 ∨ n = 31) as [->|[->|[->|[->| ->]]]]
      by lia; by vm_compute.
  - assert (Hshl : Int.shl 1 n = 0).
    { unfold Int.shl, Int.wrap. rewrite Z.shiftl_1_l.
      replace n with (32 + (n - 32)) by lia. rewrite Z.pow_add_r by lia.
      rewrite Z.add_comm, Z.mul_comm, Z_mod_plus_full. done. }
    unfold nbPipes_of. rewrite Hshl. by vm_compute.
Qed.

Lemma createPipes_large limit open0 n nb pipes open :
  27 ≤ n → createPipes limit open0 n = Ret (nb, pipes, open) → pipes = [].
Proof.
  intros Hn. unfold createPipes.
  replace (Z.to_nat (nbPipes_of n)) with 0%nat by (pose proof (nbPipes_of_large n Hn); lia).
  cbn [pipe_loop mbind res_bind]. by intros [= _ <- _].
Qed.

Lemma child_setup_no_table n v open :
  1 ≤ n → child_setup n v [] open = Fault OutOfBounds.
Proof.
  intros Hn. unfold child_setup.
  destruct (Z.to_nat n) as [|c] eqn:Hc; [lia|].
  assert (E : ∀ k, aget ([] : list pipe_t) k = Fault OutOfBounds).
  { intros k. unfold aget. rewrite lookup_nil. by destruct (bool_decide _). }
  cbn [connect_loop]. rewrite (E (Int.add (Int.mul v n) 0)). reflexivity.
Qed.

Lemma large_dim_not_wired limit open0 n nb pipes open v cp open_v :
  27 ≤ n → createPipes limit open0 n = Ret (nb, pipes, open) →
  child_setup n v pipes open = Ret (cp, open_v) → False.
Proof.
  intros Hn Hcreate Hsetup. apply createPipes_large in Hcreate as ->; [|done].
  rewrite child_setup_no_table in Hsetup by lia. done.
Qed.

(** ** The wiring of the hypercube *)

(** C1, as the code has it: for every dimension [n ≥ 1], every vertex [v] and
    every dimension [j], the wired child of vertex [v] reads along edge [j]
    from the pipe at table index [v * n + j], and writes along edge [j] to the
    pipe at table index [neighbour * n + j], where [neighbour = v ^ (1 << j)];
    and for [n ≤ 26] the child is wired whenever [createPipes] has
    returned. *)
Theorem vertex_receives_on_own_sends_on_neighbour limit open0 n nb pipes open v j :
  1 ≤ n →
  createPipes limit open0 n = Ret (nb, pipes, open) →
  0 ≤ v < 2 ^ n → 0 ≤ j < n →
  (n ≤ 26 → ∃ connectedPipes open_v,
     child_setup n v pipes open = Ret (connectedPipes, open_v))
  ∧ ∀ connectedPipes open_v,
      child_setup n v pipes open = Ret (connectedPipes, open_v) →
      receives_on pipes connectedPipes j (v * n + j)
      ∧ sends_on pipes connectedPipes j (Z.lxor v (Z.shiftl 1 j) * n + j).
Proof.
  intros Hn Hcreate Hv Hj.
  destruct (decide (n ≤ 26)) as [Hle|Hgt].
  - assert (Hd : dim_ok n) by (unfold dim_ok; lia).
    destruct (createPipes_Ret _ _ _ _ _ _ Hd Hcreate) as (_ & Hlen & Hnd & Hopen).
    destruct (child_setup_spec n pipes Hd Hlen Hnd v open Hv)
      as (cp & open_v & Hrun & Hcplen & Hcp & _); [intros; by apply Hopen|].
    split; [intros _; by exists cp, open_v|].
    intros cp' open_v' Hrun'. rewrite Hrun in Hrun'. injection Hrun' as <- <-.
    destruct (Hcp j Hj) as [H0 H1]. destruct (slot_eq n pipes Hd j Hj) as (E1 & E2 & _).
    rewrite Z.shiftl_1_l. split.
    + exists (chan pipes (own_idx n v j)).
      pose proof (own_idx_range n Hd v j Hv Hj) as Hr. unfold own_idx in *.
      split_and!; [lia|by apply (chan_lookup n pipes Hlen)|].
      unfold recv_fd. rewrite E1. apply aget_Ret; [lia|done].
    + exists (chan pipes (nb_idx n v j)).
      pose proof (nb_idx_range n Hd v j Hv Hj) as Hr. unfold nb_idx in *.
      split_and!; [lia|by apply (chan_lookup n pipes Hlen)|].
      unfold send_fd. rewrite E2. apply aget_Ret; [lia|done].
  - split; [lia|]. intros cp open_v Hsetup.
    destruct (large_dim_not_wired limit open0 n nb pipes open v cp open_v); (done || lia).
Qed.

Lemma vertex_receives_on_own_sends_on_neighbour_witness :
  (1 ≤ 26 → ∃ connectedPipes open_v,
     child_setup 1 1 [(3, 4); (5, 6)] (list_to_set (seqZ 0 7))
     = Ret (connectedPipes, open_v))
  ∧ ∀ connectedPipes open_v,
      child_setup 1 1 [(3, 4); (5, 6)] (list_to_set (seqZ 0 7))
      = Ret (connectedPipes, open_v) →
      receives_on [(3, 4); (5, 6)] connectedPipes 0 (1 * 1 + 0)
      ∧ sends_on [(3, 4); (5, 6)] connectedPipes 0 (Z.lxor 1 (Z.shiftl 1 0) * 1 + 0).
Proof.
  apply (vertex_receives_on_own_sends_on_neighbour 16 {[0; 1; 2]} 1 2);
    [lia|vm_compute; reflexivity|simpl; lia|lia].
Defined.

(** C1 as the specification words it fails: in the 1-cube, vertex 0 does not
    send on the channel at index [0 * 1 + 0] and does not receive on the channel
    at index [neighbour * 1 + 0]. *)
Lemma vertex_sends_on_own_counterexample :
  ∃ nb pipes open connectedPipes open_v,
    createPipes 16 {[0; 1; 2]} 1 = Ret (nb, pipes, open)
    ∧ child_setup 1 0 pipes open = Ret (connectedPipes, open_v)
    ∧ ¬ sends_on pipes connectedPipes 0 (0 * 1 + 0)
    ∧ ¬ receives_on pipes connectedPipes 0 (Z.lxor 0 (Z.shiftl 1 0) * 1 + 0).
Proof.
  eexists _, [(3, 4); (5, 6)], _, [3; 6], _. split_and!.
  - vm_compute. reflexivity.
  - vm_compute. reflexivity.
  - intros (p & _ & Hp & Hs). vm_compute in Hp. injection Hp as <-.
    vm_compute in Hs. discriminate.
  - intros (p & _ & Hp & Hs). vm_compute in Hp. injection Hp as <-.
    vm_compute in Hs. discriminate.
Qed.

(** C2, as the code has it: for a dimension [n] in [1, 26] (those whose table
    size fits in an [int]), [createPipes] returns whenever the descriptor
    limit leaves room for [2 * n * 2^n] more descriptors, and when it returns
    the table has exactly [n * 2^n] pipes whose descriptors are pairwise
    distinct; the child of every vertex then reaches [passToken] holding
    exactly [n] read ends and [n] write ends, and two different vertices share
    no read end and no write end. *)
Theorem topology_partition limit open0 n :
  1 ≤ n ≤ 26 →
  (Z.of_nat (size open0) + 2 * (n * 2 ^ n) ≤ limit →
   ∃ nb pipes open, createPipes limit open0 n = Ret (nb, pipes, open))
  ∧ ∀ nb pipes open,
      createPipes limit open0 n = Ret (nb, pipes, open) →
      nb = n * 2 ^ n
      ∧ Z.of_nat (length pipes) = n * 2 ^ n
      ∧ NoDup (table_fds pipes)
      ∧ ∀ v, 0 ≤ v < 2 ^ n →
          ∃ cp open_v,
            child_setup n v pipes open = Ret (cp, open_v)
            ∧ holds_endpoints n pipes cp open_v
            ∧ ∀ w cp' open_w,
                0 ≤ w < 2 ^ n → v ≠ w →
                child_setup n w pipes open = Ret (cp', open_w) →
                no_shared_endpoint n cp cp'.
Proof.
  intros Hn. assert (Hd : dim_ok n) by (unfold dim_ok; lia).
  split; [by apply createPipes_success|].
  intros nb pipes open Hcreate.
  destruct (createPipes_Ret _ _ _ _ _ _ Hd Hcreate) as (-> & Hlen & Hnd & Hopen).
  split_and!; [lia|lia|done|].
  intros v Hv.
  destruct (child_setup_spec n pipes Hd Hlen Hnd v open Hv)
    as (cp & open_v & Hrun & Hcplen & Hcp & Hmem & Hheld); [intros; by apply Hopen|].
  exists cp, open_v. split_and!; [done| |].
  - by apply (wired_holds n pipes Hd Hlen Hnd v).
  - intros w cp' open_w Hw Hne Hrun'.
    destruct (child_setup_spec n pipes Hd Hlen Hnd w open Hw)
      as (cp2 & open2 & Hrun2 & Hcplen2 & Hcp2 & _); [intros; by apply Hopen|].
    rewrite Hrun' in Hrun2. injection Hrun2 as <- <-.
    by apply (wired_no_shared n pipes Hd Hlen Hnd v w).
Qed.

Lemma topology_partition_witness :
  (Z.of_nat (size ({[0; 1; 2]} : gset Z)) + 2 * (2 * 2 ^ 2) ≤ 64 →
   ∃ nb pipes open, createPipes 64 {[0; 1; 2]} 2 = Ret (nb, pipes, open))
  ∧ ∀ nb pipes open,
      createPipes 64 {[0; 1; 2]} 2 = Ret (nb, pipes, open) →
      nb = 2 * 2 ^ 2
      ∧ Z.of_nat (length pipes) = 2 * 2 ^ 2
      ∧ NoDup (table_fds pipes)
      ∧ ∀ v, 0 ≤ v < 2 ^ 2 →
          ∃ cp open_v,
            child_setup 2 v pipes open = Ret (cp, open_v)
            ∧ holds_endpoints 2 pipes cp open_v
            ∧ ∀ w cp' open_w,
                0 ≤ w < 2 ^ 2 → v ≠ w →
                child_setup 2 w pipes open = Ret (cp', open_w) →
                no_shared_endpoint 2 cp cp'.
Proof. apply (topology_partition 64 {[0; 1; 2]} 2). lia. Defined.

(** C2 as the specification words it, for every [n ≥ 1], fails at [n = 27]:
    [(1 << 27) * 27] does not fit in an [int], [nbPipes] is negative and the
    loop of [createPipes] creates no pipe at all. *)
Lemma topology_partition_counterexample :
  1 ≤ 27
  ∧ ∃ open, createPipes 1024 {[0; 1; 2]} 27 = Ret (-671088640, [], open)
            ∧ Z.of_nat (length ([] : list pipe_t)) ≠ 27 * 2 ^ 27.
Proof.
  split; [lia|]. eexists. split; [vm_compute; reflexivity|]. vm_compute. discriminate.
Qed.

(** ** The coordinator *)

Lemma lnot_lnot_zero a : Int.lnot (Int.lnot a) = 0 ↔ a = 0.
Proof. unfold Int.lnot. repeat case_bool_decide; split; intros; try done; lia. Qed.

(** C6: a toggle received while not paused sends [SIGSTOP] to every registered
    child and leaves the coordinator paused; a toggle received while paused
    sends [SIGCONT] and leaves it not paused; two toggles in a row give back the
    paused state they started from. *)
Theorem toggle_involution (st : coordinator) :
  (paused st = false →
     (handler SIGUSR1 st).2 = kill_all st SIGSTOP
     ∧ paused (handler SIGUSR1 st).1 = true)
  ∧ (paused st = true →
     (handler SIGUSR1 st).2 = kill_all st SIGCONT
     ∧ paused (handler SIGUSR1 st).1 = false)
  ∧ paused (handler SIGUSR1 (handler SIGUSR1 st).1).1 = paused st
  ∧ childs (handler SIGUSR1 st).1 = childs st
  ∧ nbProcesses (handler SIGUSR1 st).1 = nbProcesses st.
Proof.
  unfold paused, handler. simpl. split_and!.
  - intros Hp. apply bool_decide_eq_false in Hp.
    rewrite (bool_decide_true (n_sigusr1 st ≠ 0)) by done.
    split; [done|]. apply bool_decide_eq_true. unfold Int.lnot.
    by rewrite bool_decide_false.
  - intros Hp. apply bool_decide_eq_true in Hp.
    rewrite (bool_decide_false (n_sigusr1 st ≠ 0)) by (intros H; by apply H).
    split; [done|]. apply bool_decide_eq_false. unfold Int.lnot.
    by rewrite bool_decide_true.
  - apply bool_decide_ext, lnot_lnot_zero.
  - done.
  - done.
Qed.

Lemma toggle_involution_witness :
  let st := {| nbProcesses := 2; childs := [100; 101]; n_sigusr1 := 1;
               sa_handler := λ _, Handler; terminated := false |} in
  paused st = false
  ∧ (handler SIGUSR1 st).2 = [(100, SIGSTOP); (101, SIGSTOP)]
  ∧ paused (handler SIGUSR1 st).1 = true
  ∧ (handler SIGUSR1 (handler SIGUSR1 st).1).2 = [(100, SIGCONT); (101, SIGCONT)]
  ∧ paused (handler SIGUSR1 (handler SIGUSR1 st).1).1 = false.
Proof.
  intros st.
  destruct (toggle_involution st) as (H1 & _ & H3 & _).
  destruct (H1 eq_refl) as [H1a H1b].
  destruct (toggle_involution (handler SIGUSR1 st).1) as (_ & H2 & _).
  destruct (H2 H1b) as [H2a H2b].
  split_and!; [reflexivity|exact H1a|exact H1b|exact H2a|exact H2b].
Defined.

(** C5 on the code: [createProcesses] installs [handler] for [SIGUSR1] only.
    In a run with two children, [SIGINT] keeps its default disposition, its
    delivery ends the parent and calls [kill] for no child; the branch of
    [handler] that would send [SIGINT] to both children is never entered. *)
Lemma sigint_is_not_relayed :
  ∃ st,
    createProcesses_parent 1 (λ i, 100 + Z.of_nat i) = Ret st
    ∧ childs st = [100; 101]
    ∧ sa_handler st SIGUSR1 = Handler
    ∧ sa_handler st SIGINT = SIG_DFL
    ∧ (deliver SIGINT st).2 = []
    ∧ terminated (deliver SIGINT st).1 = true
    ∧ (handler SIGINT st).2 = [(100, SIGINT); (101, SIGINT)].
Proof. eexists. split; [vm_compute; reflexivity|]. by vm_compute. Qed.

(** What [createProcesses] installs, for every dimension and every run of the
    [fork] loop. *)
Lemma createProcesses_parent_dispositions n forks st :
  createProcesses_parent n forks = Ret st →
  sa_handler st SIGUSR1 = Handler ∧ sa_handler st SIGINT = SIG_DFL
  ∧ (deliver SIGINT st).2 = [].
Proof.
  unfold createProcesses_parent.
  destruct (fork_loop _ _ _) as [pids| |]; try done.
  cbn [mbind res_bind]. intros [= <-]. by vm_compute.
Qed.










(** ** The name of the log file *)

Lemma string_length_app (a b : string) :
  String.length (a +:+ b) = (String.length a + String.length b)%nat.
Proof. induction a as [|c a IH]; simpl; [done|]. by rewrite IH. Qed.

Lemma intToBinary_loop_length c : ∀ num s,
  String.length (intToBinary_loop c num s) = (c + String.length s)%nat.
Proof.
  induction c as [|c IH]; intros num s; simpl; [done|].
  rewrite IH. simpl. lia.
Qed.

Lemma intToBinary_length num n :
  0 ≤ n → Z.of_nat (String.length (intToBinary num n)) = n.
Proof.
  intros Hn. unfold intToBinary. rewrite intToBinary_loop_length. simpl. lia.
Qed.

Lemma pretty_N_go_length (k : nat) : ∀ (x : N) s,
  (x < 10 ^ N.of_nat k)%N →
  (String.length (pretty_N_go x s) ≤ String.length s + k)%nat.
Proof.
  induction k as [|k IH]; intros x s Hx.
  - assert (x = 0%N) as -> by (simpl in Hx; lia). rewrite pretty_N_go_0. lia.
  - destruct (decide (x = 0%N)) as [->|Hx0]; [rewrite pretty_N_go_0; lia|].
    rewrite pretty_N_go_step by lia.
    etrans; [apply IH|simpl; lia].
    apply N.Div0.div_lt_upper_bound.
    rewrite Nat2N.inj_succ, N.pow_succ_r' in Hx. lia.
Qed.

Lemma dirName_length n :
  0 ≤ n < 10 ^ 10 → (String.length (dirName n) ≤ 10)%nat.
Proof.
  intros Hn. unfold dirName, pretty, pretty_Z.
  destruct n as [|p|p]; [simpl; lia| |lia].
  unfold pretty, pretty_positive, pretty, pretty_N.
  rewrite decide_False by done.
  etrans; [apply (pretty_N_go_length 10)|simpl; lia].
  change (10 ^ N.of_nat 10)%N with (Z.to_N (10 ^ 10)). lia.
Qed.

Lemma filename_sizes id n :
  0 ≤ n →
  filename_written id n
  = Z.of_nat (String.length (dirName n +:+ "/" +:+ intToBinary id n)) + 5
  ∧ Z.of_nat (String.length (dirName n +:+ "/" +:+ intToBinary id n))
    = Z.of_nat (String.length (dirName n)) + 1 + n.
Proof.
  intros Hn. unfold filename_written, filename.
  rewrite !string_length_app. simpl String.length.
  pose proof (intToBinary_length id n Hn). lia.
Qed.

Lemma filename_alloc_short id n :
  1 ≤ n ≤ 2147483635 →
  filename_alloc id n + 4 = filename_written id n
  ∧ filename_alloc id n < filename_written id n.
Proof.
  intros Hn.
  destruct (filename_sizes id n) as [Hw Hl]; [lia|].
  pose proof (dirName_length n) as Hd.
  assert (Ha : filename_alloc id n
               = Z.of_nat (String.length (dirName n +:+ "/" +:+ intToBinary id n)) + 1).
  { unfold filename_alloc, snprintf_ret.
    rewrite bool_decide_true by (unfold Int.INT_MAX; lia).
    unfold Int.add. apply wrap_id.
    unfold Int.in_range, Int.INT_MIN, Int.INT_MAX. lia. }
  lia.
Qed.

(** C10: in every call [passToken(v, connectedPipes, n)] the program makes,
    that is for every dimension [n ≥ 1] and every vertex [v] whose child has
    been wired, the argument of [malloc] for the file name is exactly 4
    smaller than the number of bytes [sprintf] writes with ["%s/%s.txt"], the
    terminating 0 included; the allocation never covers the written string.
    (A child is wired for [n ≤ 26] only, where the lengths are far from the
    end of [int].) *)
Theorem filename_allocation_four_short limit open0 n nb pipes open v cp open_v :
  1 ≤ n →
  createPipes limit open0 n = Ret (nb, pipes, open) →
  child_setup n v pipes open = Ret (cp, open_v) →
  filename_alloc v n + 4 = filename_written v n
  ∧ filename_alloc v n < filename_written v n.
Proof.
  intros Hn Hcreate Hsetup.
  destruct (decide (n ≤ 26)) as [Hle|Hgt].
  - apply filename_alloc_short. lia.
  - exfalso.
    apply (large_dim_not_wired limit open0 n nb pipes open v cp open_v); [lia|done|done].
Qed.

Lemma filename_allocation_four_short_witness :
  filename 1 1 = "1/1.txt"
  ∧ filename_alloc 1 1 + 4 = filename_written 1 1
  ∧ filename_alloc 1 1 < filename_written 1 1.
Proof.
  split; [reflexivity|].
  apply (filename_allocation_four_short 16 {[0; 1; 2]} 1 2 [(3, 4); (5, 6)]
           {[3; 4; 5; 6; 0; 1; 2]} 1 [5; 4] {[5; 4; 0; 1; 2]});
    [lia|vm_compute; reflexivity|vm_compute; reflexivity].
Defined.

(** ** The choice of a neighbour *)

Lemma c_rem_pos r n :
  1 ≤ n → c_rem (Z.of_N r) n = Ret (Z.of_N r `mod` n) ∧ 0 ≤ Z.of_N r `mod` n < n.
Proof.
  intros Hn. unfold c_rem. rewrite bool_decide_false by lia.
  rewrite Z.rem_mod_nonneg by lia. split; [done|]. apply Z.mod_pos_bound. lia.
Qed.

(** C9: for [n ≥ 1] the choice [rand() % n] is a dimension in [0, n); the
    command line ["0"] is accepted by [main], which forks the single vertex 0,
    and that vertex, once its file is open, increments the token and then
    divides by zero in [rand() % n], before it has written anything. *)
Theorem seeding_divides_by_zero limit open0 e :
  ev_vertex e = 0%nat → ev_fopen e = true →
  (∀ n r, 1 ≤ n → ∃ k, c_rem (Z.of_N r) n = Ret k ∧ 0 ≤ k < n)
  ∧ atoi "0" = 0
  ∧ ∃ s, main limit open0 ["./hypercube"; "0"] = Ret (0, [], s)
         ∧ procs s = [Forked []]
         ∧ procs (step 0 [] e s)
           = [Crashed DivisionByZero {| token := 1; start := ev_now e; file := [] |}].
Proof.
  intros Hv Hf. split_and!.
  - intros n r Hn. exists (Z.of_N r `mod` n). by apply c_rem_pos.
  - reflexivity.
  - eexists. split; [reflexivity|]. split; [reflexivity|].
    unfold step. rewrite Hv. simpl.
    unfold passToken_start. rewrite Hf. reflexivity.
Qed.

Lemma seeding_divides_by_zero_witness :
  let e := {| ev_vertex := 0; ev_now := {| tv_sec := 100; tv_usec := 5 |};
              ev_rand := 7; ev_fopen := true |} in
  ∃ s, main 1024 {[0; 1; 2]} ["./hypercube"; "0"] = Ret (0, [], s)
       ∧ procs s = [Forked []]
       ∧ procs (step 0 [] e s)
         = [Crashed DivisionByZero {| token := 1; start := ev_now e; file := [] |}].
Proof.
  intros e.
  destruct (seeding_divides_by_zero 1024 {[0; 1; 2]} e) as (_ & _ & H);
    [reflexivity|reflexivity|exact H].
Defined.

(** ** The pipes as the worker sees them *)

Lemma alter_tail_cons (qs : list (list Z)) p x rest :
  qs !! p = Some (x :: rest) → <[p := rest]> qs = alter tail p qs.
Proof.
  intros Hp. apply list_eq. intros i.
  destruct (decide (i = p)) as [->|Hne].
  - rewrite list_lookup_insert_eq by (by eapply lookup_lt_Some).
    by rewrite list_lookup_alter_eq, Hp.
  - by rewrite list_lookup_insert_ne, list_lookup_alter_ne by done.
Qed.

Lemma alter_tail_nil (qs : list (list Z)) p :
  qs !! p = Some [] → alter tail p qs = qs.
Proof.
  intros Hp. apply list_eq. intros i.
  destruct (decide (i = p)) as [->|Hne].
  - by rewrite list_lookup_alter_eq, Hp.
  - by rewrite list_lookup_alter_ne by done.
Qed.

Lemma alter_snoc (qs : list (list Z)) p q t :
  qs !! p = Some q → <[p := q ++ [t]]> qs = alter (λ q, q ++ [t]) p qs.
Proof.
  intros Hp. apply list_eq. intros i.
  destruct (decide (i = p)) as [->|Hne].
  - rewrite list_lookup_insert_eq by (by eapply lookup_lt_Some).
    by rewrite list_lookup_alter_eq, Hp.
  - by rewrite list_lookup_insert_ne, list_lookup_alter_ne by done.
Qed.

Lemma drain_length slots : ∀ qs, length (drain slots qs) = length qs.
Proof.
  unfold drain. induction slots as [|p slots IH]; intros qs; simpl; [done|].
  by rewrite IH, length_alter.
Qed.

Lemma drain_lookup slots : ∀ qs p,
  NoDup slots →
  drain slots qs !! p = if decide (p ∈ slots) then tail <$> qs !! p else qs !! p.
Proof.
  unfold drain. induction slots as [|a slots IH]; intros qs p Hnd.
  - destruct (decide (p ∈ [])) as [Hin|_]; [by apply elem_of_nil in Hin|done].
  - apply NoDup_cons in Hnd as [Ha Hnd]. cbn [foldl]. rewrite IH by done.
    destruct (decide (p = a)) as [->|Hne].
    + destruct (decide (a ∈ slots)); [done|].
      destruct (decide (a ∈ a :: slots)) as [_|Hn]; [|by destruct Hn; left].
      by rewrite list_lookup_alter_eq.
    + rewrite list_lookup_alter_ne by done.
      destruct (decide (p ∈ slots)) as [Hin|Hnin];
        destruct (decide (p ∈ a :: slots)) as [Hin'|Hnin']; try done.
      * destruct Hnin'. by right.
      * apply elem_of_cons in Hin' as [?|?]; done.
Qed.

Lemma own_idx_inj n v k w l :
  0 ≤ k < n → 0 ≤ l < n → own_idx n v k = own_idx n w l → v = w ∧ k = l.
Proof. unfold own_idx. apply index_inj. Qed.

Lemma nb_idx_own n v k : nb_idx n v k = own_idx n (Z.lxor v (2 ^ k)) k.
Proof. done. Qed.

Lemma elem_of_own_slots n v c : ∀ i p,
  0 ≤ i →
  p ∈ own_slots n v c i ↔ ∃ i', i ≤ i' < i + Z.of_nat c ∧ p = Z.to_nat (own_idx n v i').
Proof.
  induction c as [|c IH]; intros i p Hi; cbn [own_slots].
  - split; [by intros ?%elem_of_nil|]. intros (i' & ? & _). lia.
  - rewrite elem_of_cons, IH by lia. split.
    + intros [->|(i' & Hi' & ->)]; [exists i|exists i']; split; (lia || done).
    + intros (i' & Hi' & ->). destruct (decide (i' = i)) as [->|?]; [by left|].
      right. exists i'. split; [lia|done].
Qed.

Lemma own_slots_NoDup n v c :
  dim_ok n → 0 ≤ v < 2 ^ n →
  ∀ i, 0 ≤ i → i + Z.of_nat c ≤ n → NoDup (own_slots n v c i).
Proof.
  intros Hn Hv.
  induction c as [|c IH]; intros i Hi Hic; cbn [own_slots]; [constructor|].
  apply NoDup_cons. split; [|apply IH; lia].
  rewrite elem_of_own_slots by lia. intros (i' & Hi' & Heq).
  pose proof (own_idx_range n Hn v i Hv) as H1.
  pose proof (own_idx_range n Hn v i' Hv) as H2.
  assert (Heq' : own_idx n v i = own_idx n v i') by lia.
  apply own_idx_inj in Heq'; lia.
Qed.

Section worker.
Context (n : Z) (pipes : list pipe_t) (v : Z) (cp : list Z).
Hypothesis Hn : dim_ok n.
Hypothesis Hlen : Z.of_nat (length pipes) = 2 ^ n * n.
Hypothesis Hnd : NoDup (table_fds pipes).
Hypothesis Hv : 0 ≤ v < 2 ^ n.
Hypothesis Hw : wired n pipes v cp.

Local Abbreviation chan := (chan pipes).
Local Abbreviation own_idx := (own_idx n).
Local Abbreviation nb_idx := (nb_idx n).

Lemma pipe_of_rd_chan k :
  0 ≤ k < 2 ^ n * n → pipe_of_rd pipes (rd (chan k)) = Some (Z.to_nat k).
Proof.
  intros Hk. unfold pipe_of_rd.
  assert (Hf : list_find (λ p, rd p = rd (chan k)) pipes = Some (Z.to_nat k, chan k)).
  { apply list_find_Some. split_and!; [by apply (chan_lookup n)|done|].
    intros j y Hj Hlt Heq.
    destruct (table_fds_distinct pipes _ _ _ _ Hnd Hj (chan_lookup n pipes Hlen k Hk))
      as (H1 & _). apply H1 in Heq. lia. }
  by rewrite Hf.
Qed.

Lemma pipe_of_wr_chan k :
  0 ≤ k < 2 ^ n * n → pipe_of_wr pipes (wr (chan k)) = Some (Z.to_nat k).
Proof.
  intros Hk. unfold pipe_of_wr.
  assert (Hf : list_find (λ p, wr p = wr (chan k)) pipes = Some (Z.to_nat k, chan k)).
  { apply list_find_Some. split_and!; [by apply (chan_lookup n)|done|].
    intros j y Hj Hlt Heq.
    destruct (table_fds_distinct pipes _ _ _ _ Hnd Hj (chan_lookup n pipes Hlen k Hk))
      as (_ & H2 & _). apply H2 in Heq. lia. }
  by rewrite Hf.
Qed.

Lemma readable_chan qs k :
  0 ≤ k < 2 ^ n * n →
  readable pipes qs (rd (chan k)) = true ↔ ∃ x rest, qs !! Z.to_nat k = Some (x :: rest).
Proof.
  intros Hk. unfold readable. rewrite (pipe_of_rd_chan k Hk). simpl.
  destruct (qs !! Z.to_nat k) as [[|x rest]|]; split; try done.
  - by intros (? & ? & ?).
  - intros _. by eexists _, _.
  - by intros (? & ? & ?).
Qed.

Lemma recv_slot i :
  0 ≤ i < n → aget cp (Int.mul 2 i) = Ret (rd (chan (own_idx v i))).
Proof.
  intros Hi. destruct Hw as [_ Hcp]. destruct (Hcp i Hi) as [H0 _].
  destruct (slot_eq n pipes Hn i Hi) as (-> & _). apply aget_Ret; [lia|done].
Qed.

Lemma send_slot i :
  0 ≤ i < n → aget cp (Int.add (Int.mul 2 i) 1) = Ret (wr (chan (nb_idx v i))).
Proof.
  intros Hi. destruct Hw as [_ Hcp]. destruct (Hcp i Hi) as [_ H1].
  destruct (slot_eq n pipes Hn i Hi) as (_ & -> & _). apply aget_Ret; [lia|done].
Qed.

Lemma setReadfds_loop_spec c : ∀ i nfds fds,
  i + Z.of_nat c = n → 0 ≤ i →
  ∃ nfds' fds',
    setReadfds_loop c i cp nfds fds = Ret (nfds', fds')
    ∧ ∀ fd, fd ∈ fds' ↔ fd ∈ fds ∨ ∃ i', i ≤ i' < n ∧ fd = rd (chan (own_idx v i')).
Proof.
  induction c as [|c IH]; intros i nfds fds Hi Hi0; cbn [setReadfds_loop].
  - exists nfds, fds. split; [done|]. intros fd. split; [by left|].
    intros [?|(i' & ? & _)]; [done|lia].
  - rewrite recv_slot by lia. cbn [mbind res_bind].
    destruct (slot_eq n pipes Hn i) as (_ & _ & ->); [lia|].
    edestruct (IH (i + 1)) as (nfds' & fds' & -> & Hfds); [lia|lia|].
    exists nfds', fds'. split; [done|]. intros fd. rewrite Hfds. split.
    + intros [Hfd|(i' & Hi' & ->)].
      * apply elem_of_union in Hfd as [Hfd|Hfd]; [|by left].
        apply elem_of_singleton in Hfd as ->. right. exists i. split; [lia|done].
      * right. exists i'. split; [lia|done].
    + intros [Hfd|(i' & Hi' & ->)].
      * left. set_solver.
      * destruct (decide (i' = i)) as [->|Hne]; [left; set_solver|].
        right. exists i'. split; [lia|done].
Qed.

Lemma setReadfds_spec :
  ∃ nfds readfds, setReadfds n cp = Ret (nfds, readfds) ∧ readfds_of n pipes v readfds.
Proof.
  unfold setReadfds.
  destruct (setReadfds_loop_spec (Z.to_nat n) 0 0 ∅) as (nfds & fds & Hrun & Hfds);
    [destruct Hn; lia|lia|].
  exists nfds, fds. split; [done|]. intros fd. rewrite Hfds. set_solver.
Qed.

Lemma select_ready qs readfds i :
  readfds_of n pipes v readfds → 0 ≤ i < n →
  rd (chan (own_idx v i)) ∈ select pipes qs readfds ↔ ready_at n v qs i.
Proof.
  intros Hfds Hi. unfold select, ready_at. rewrite elem_of_filter.
  rewrite readable_chan by (by apply own_idx_range).
  split; [by intros [? ?]|]. intros Hr. split; [done|].
  apply Hfds. by exists i.
Qed.

Lemma select_empty qs readfds :
  readfds_of n pipes v readfds →
  select pipes qs readfds = ∅ ↔ ∀ i, 0 ≤ i < n → ¬ ready_at n v qs i.
Proof.
  intros Hfds. split.
  - intros Hempty i Hi Hr. apply (select_ready qs readfds i Hfds Hi) in Hr.
    rewrite Hempty in Hr. by apply not_elem_of_empty in Hr.
  - intros Hnone. apply set_eq. intros fd. split; [|by intros ?%not_elem_of_empty].
    intros Hfd. pose proof Hfd as Hfd'. unfold select in Hfd'.
    apply elem_of_filter in Hfd' as [_ Hin]. apply Hfds in Hin as (i & Hi & ->).
    apply (select_ready qs readfds i Hfds Hi) in Hfd. by apply Hnone in Hfd.
Qed.



Lemma own_queue (qs : list (list Z)) i :
  length qs = length pipes → 0 ≤ i < n →
  ∃ q, qs !! Z.to_nat (own_idx v i) = Some q.
Proof.
  intros Hq Hi. apply lookup_lt_is_Some_2.
  pose proof (own_idx_range n Hn v i Hv Hi). lia.
Qed.

Lemma read_token_ready (qs0 : list (list Z)) l p x rest fd :
  pipe_of_rd pipes fd = Some p → qs0 !! p = Some (x :: rest) →
  read_token pipes fd (l, qs0)
  = (({| token := x; start := start l; file := file l |}, alter tail p qs0), Ret ()).
Proof.
  intros Hp Hq. unfold read_token. cbn [fst snd]. rewrite Hp, Hq.
  by rewrite (alter_tail_cons qs0 p x rest Hq).
Qed.

(** The [for] loop over the read ends, from dimension [i] on: [qs] is the
    contents of the pipes when [select] returned, [qs0] their contents now. *)
Lemma read_loop_spec (qs : list (list Z)) readfds :
  length qs = length pipes →
  (∀ i, 0 ≤ i < n → rd (chan (own_idx v i)) ∈ readfds ↔ ready_at n v qs i) →
  ∀ c i l qs0,
    i + Z.of_nat c = n → 0 ≤ i → length qs0 = length qs →
    (∀ i', i ≤ i' < n →
       qs0 !! Z.to_nat (own_idx v i') = qs !! Z.to_nat (own_idx v i')) →
    ∃ tok,
      read_loop c i pipes cp readfds (l, qs0)
      = (({| token := tok; start := start l; file := file l |},
          drain (own_slots n v c i) qs0), Ret ())
      ∧ (∀ i' x rest, i ≤ i' < n →
           qs !! Z.to_nat (own_idx v i') = Some (x :: rest) →
           (∀ i'', i' < i'' < n → qs !! Z.to_nat (own_idx v i'') = Some []) →
           tok = x)
      ∧ ((∀ i', i ≤ i' < n → qs !! Z.to_nat (own_idx v i') = Some []) →
         tok = token l).
Proof.
  intros Hqlen Hsel.
  induction c as [|c IH]; intros i l qs0 Hi Hi0 Hlen0 Hsame.
  - exists (token l). split_and!.
    + by destruct l.
    + intros i' x rest Hi'. lia.
    + done.
  - assert (Hin : 0 ≤ i < n) by lia.
    cbn [read_loop own_slots]. unfold drain. cbn [foldl]. fold (drain (own_slots n v c (i + 1))).
    unfold mbind at 1, M_bind at 1, lift. rewrite (recv_slot i Hin).
    destruct (slot_eq n pipes Hn i Hin) as (_ & _ & ->).
    unfold mbind at 1, M_bind at 1.
    destruct (own_queue qs i Hqlen Hin) as [q Hq].
    pose proof (own_idx_range n Hn v i Hv Hin) as Hrange.
    destruct (decide (rd (chan (own_idx v i)) ∈ readfds)) as [Hready|Hnot].
    + rewrite bool_decide_true by done.
      pose proof Hready as Hready'.
      apply (Hsel i Hin) in Hready' as (x & rest & Hx).
      rewrite (read_token_ready qs0 l (Z.to_nat (own_idx v i)) x rest);
        [|by apply pipe_of_rd_chan|by rewrite Hsame by lia].
      destruct (IH (i + 1) {| token := x; start := start l; file := file l |}
                  (alter tail (Z.to_nat (own_idx v i)) qs0))
        as (tok & Hrun & Htok1 & Htok2).
      { lia. } { lia. } { by rewrite length_alter. }
      { intros i' Hi'. rewrite list_lookup_alter_ne; [apply Hsame; lia|].
        pose proof (own_idx_range n Hn v i' Hv) as Hr'.
        intros Heq. assert (Heq' : own_idx v i = own_idx v i') by lia.
        apply own_idx_inj in Heq'; lia. }
      exists tok. split_and!.
      * exact Hrun.
      * intros i' x' rest' Hi' Hx' Habove.
        destruct (decide (i' = i)) as [->|Hne].
        -- rewrite Hx in Hx'. injection Hx' as <- <-.
           apply Htok2. intros i'' Hi''. apply Habove. lia.
        -- apply (Htok1 i' x' rest'); [lia|done|done].
      * intros Hnone. rewrite Hnone in Hx by lia. done.
    + rewrite bool_decide_false by done.
      assert (Hnil : qs !! Z.to_nat (own_idx v i) = Some []).
      { destruct q as [|x rest]; [done|]. destruct Hnot.
        apply (Hsel i Hin). by exists x, rest. }
      rewrite alter_tail_nil by (by rewrite Hsame by lia).
      destruct (IH (i + 1) l qs0) as (tok & Hrun & Htok1 & Htok2).
      { lia. } { lia. } { done. } { intros i' Hi'. apply Hsame. lia. }
      exists tok. split_and!.
      * exact Hrun.
      * intros i' x' rest' Hi' Hx' Habove.
        destruct (decide (i' = i)) as [->|Hne]; [by rewrite Hnil in Hx'|].
        apply (Htok1 i' x' rest'); [lia|done|done].
      * intros Hnone. apply Htok2. intros i' Hi'. apply Hnone. lia.
Qed.

Lemma write_token_spec (qs0 : list (list Z)) l k :
  length qs0 = length pipes → 0 ≤ k < 2 ^ n * n →
  write_token pipes (wr (chan k)) (l, qs0)
  = ((l, alter (λ q, q ++ [token l]) (Z.to_nat k) qs0), Ret ()).
Proof.
  intros Hq Hk. unfold write_token. cbn [fst snd]. rewrite (pipe_of_wr_chan k Hk).
  destruct (lookup_lt_is_Some_2 qs0 (Z.to_nat k)) as [q Hq0]; [lia|].
  rewrite Hq0. by rewrite (alter_snoc qs0 _ q _ Hq0).
Qed.

(** One pass through the body of the [while] loop, from any contents [qs] of
    the pipes: every pipe of the vertex loses its oldest value, if it has one;
    the token becomes the value read last plus one; one line is printed; the
    token is appended to the pipe of the neighbour chosen by [r]. *)
Lemma loop_body_spec (qs : list (list Z)) readfds l now r :
  1 ≤ n → length qs = length pipes →
  (∀ i, 0 ≤ i < n → rd (chan (own_idx v i)) ∈ readfds ↔ ready_at n v qs i) →
  ∃ tok nfds fds,
    loop_body n pipes cp readfds now r (l, qs)
    = (({| token := Int.add tok 1; start := now;
           file := file l ++ [arrival_line (start l) now (Int.add tok 1)] |},
        alter (λ q, q ++ [Int.add tok 1]) (Z.to_nat (nb_idx v (Z.of_N r `mod` n)))
          (drain (own_slots n v (Z.to_nat n) 0) qs)),
       Ret (nfds, fds))
    ∧ readfds_of n pipes v fds
    ∧ (∀ x, read_last n v qs x → tok = x)
    ∧ ((∀ i, 0 ≤ i < n → ¬ ready_at n v qs i) → tok = token l).
Proof.
  intros Hn1 Hqlen Hsel.
  destruct (read_loop_spec qs readfds Hqlen Hsel (Z.to_nat n) 0 l qs)
    as (tok & Hrun & Htok1 & Htok2); [lia|lia|done|done|].
  destruct setReadfds_spec as (nfds & fds & Hset & Hfds).
  destruct (c_rem_pos r n Hn1) as [Hrem Hk].
  exists tok, nfds, fds. split_and!.
  - unfold loop_body. unfold mbind at 1, M_bind at 1. rewrite Hrun.
    unfold mbind, M_bind, get_token, set_token, get_start, set_start, fprintf, lift.
    cbn [fst snd token start file]. unfold arrival_line.
    destruct (bool_decide (tv_sec (start l) = 0)); cbn [fst snd token start file];
      rewrite Hrem, (send_slot _ Hk);
      rewrite write_token_spec by
        (first [by rewrite drain_length|by apply nb_idx_range]);
      cbn [fst snd token start file]; by rewrite Hset.
  - exact Hfds.
  - intros x (i & rest & Hi & Hx & Habove). by apply (Htok1 i x rest).
  - intros Hnone. apply Htok2. intros i Hi.
    destruct (own_queue qs i Hqlen) as [[|x rest] Hq]; [lia|done|].
    destruct (Hnone i); [lia|]. by exists x, rest.
Qed.

Lemma read_last_exists_below (qs : list (list Z)) (m : nat) :
  length qs = length pipes → Z.of_nat m ≤ n →
  (∀ i', Z.of_nat m ≤ i' < n → qs !! Z.to_nat (own_idx v i') = Some []) →
  (∃ i, 0 ≤ i < Z.of_nat m ∧ ready_at n v qs i) →
  ∃ x, read_last n v qs x.
Proof.
  intros Hqlen. induction m as [|m IH]; intros Hm Habove (i & Hi & Hr); [lia|].
  destruct (own_queue qs (Z.of_nat m) Hqlen) as [[|x rest] Hq]; [lia| |].
  - apply IH; [lia| |].
    + intros i' Hi'. destruct (decide (i' = Z.of_nat m)) as [->|?]; [done|].
      apply Habove. lia.
    + exists i. split; [|done]. destruct (decide (i = Z.of_nat m)) as [->|?]; [|lia].
      destruct Hr as (? & ? & Hr). by rewrite Hq in Hr.
  - exists x, (Z.of_nat m), rest. split; [lia|]. split; [done|].
    intros i' Hi'. apply Habove. lia.
Qed.

Lemma read_last_exists (qs : list (list Z)) readfds :
  length qs = length pipes → readfds_of n pipes v readfds →
  select pipes qs readfds ≠ ∅ → ∃ x, read_last n v qs x.
Proof.
  intros Hqlen Hfds Hne. pose proof Hn as [Hn0 _].
  apply (read_last_exists_below qs (Z.to_nat n) Hqlen); [lia|intros; lia|].
  apply set_choose_L in Hne as [fd Hfd]. pose proof Hfd as Hfd'.
  unfold select in Hfd'. apply elem_of_filter in Hfd' as [_ Hin].
  apply Hfds in Hin as (i & Hi & ->).
  exists i. split; [lia|]. by apply (select_ready qs readfds i Hfds Hi).
Qed.

End worker.

Lemma setup_wired limit open0 n nb pipes open v cp open_v :
  dim_ok n →
  createPipes limit open0 n = Ret (nb, pipes, open) →
  0 ≤ v < 2 ^ n →
  child_setup n v pipes open = Ret (cp, open_v) →
  Z.of_nat (length pipes) = 2 ^ n * n ∧ NoDup (table_fds pipes) ∧ wired n pipes v cp.
Proof.
  intros Hd Hcreate Hv Hsetup.
  destruct (createPipes_Ret _ _ _ _ _ _ Hd Hcreate) as (_ & Hlen & Hnd & Hopen).
  destruct (child_setup_spec n pipes Hd Hlen Hnd v open Hv)
    as (cp' & open' & Hrun & Hcplen & Hcp & _); [intros; by apply Hopen|].
  rewrite Hsetup in Hrun. injection Hrun as <- <-. by split_and!.
Qed.

(** What one pass does to the pipes of the vertex itself. *)
Lemma loop_body_own_pipes n v (qs : list (list Z)) t k i :
  dim_ok n → 0 ≤ v < 2 ^ n → 0 ≤ k < n → 0 ≤ i < n →
  alter (λ q, q ++ [t]) (Z.to_nat (nb_idx n v k))
    (drain (own_slots n v (Z.to_nat n) 0) qs) !! Z.to_nat (own_idx n v i)
  = tail <$> qs !! Z.to_nat (own_idx n v i).
Proof.
  intros Hd Hv Hk Hi.
  pose proof (own_idx_range n Hd v i Hv Hi).
  pose proof (nb_idx_range n Hd v k Hv Hk).
  rewrite list_lookup_alter_ne.
  - rewrite drain_lookup by (apply own_slots_NoDup; (done || lia)).
    rewrite decide_True; [done|].
    apply elem_of_own_slots; [lia|]. exists i. split; [lia|done].
  - intros Heq. assert (Heq' : own_idx n v i = nb_idx n v k) by lia.
    revert Heq'. by apply own_nb_ne.
Qed.

(** ** One round of the forwarding loop *)

(** C3, as the code has it: in one pass through the body of the loop, every
    read end that [select] reported ready is read exactly once (its pipe loses
    its oldest value, the other pipes of the vertex are untouched); each read
    overwrites [token], so after the pass the token is the value read last,
    the one of the highest ready dimension, incremented exactly once, however
    many read ends were ready; that value is the one printed. *)
Theorem loop_body_reads_every_ready_end_increments_once
    limit open0 n nb pipes open v cp open_v (qs : list (list Z)) l now r :
  1 ≤ n →
  createPipes limit open0 n = Ret (nb, pipes, open) →
  0 ≤ v < 2 ^ n →
  child_setup n v pipes open = Ret (cp, open_v) →
  length qs = length pipes →
  ∃ nfds fds,
    setReadfds n cp = Ret (nfds, fds)
    ∧ (select pipes qs fds ≠ ∅ →
       ∃ l' qs' out x,
         loop_body n pipes cp (select pipes qs fds) now r (l, qs) = ((l', qs'), Ret out)
         ∧ (∀ fd, fd ∈ select pipes qs fds →
              ∃ i y rest, 0 ≤ i < n ∧ recv_fd cp i = Ret fd
                ∧ qs !! Z.to_nat (own_idx n v i) = Some (y :: rest)
                ∧ qs' !! Z.to_nat (own_idx n v i) = Some rest)
         ∧ (∀ i, 0 ≤ i < n →
              qs' !! Z.to_nat (own_idx n v i) = tail <$> qs !! Z.to_nat (own_idx n v i))
         ∧ read_last n v qs x
         ∧ token l' = Int.add x 1
         ∧ file l' = file l ++ [arrival_line (start l) now (Int.add x 1)]).
Proof.
  intros Hn Hcreate Hv Hsetup Hqlen.
  assert (Hd : dim_ok n).
  { destruct (decide (n ≤ 26)); [unfold dim_ok; lia|].
    destruct (large_dim_not_wired limit open0 n nb pipes open v cp open_v); (done || lia). }
  destruct (setup_wired _ _ _ _ _ _ _ _ _ Hd Hcreate Hv Hsetup) as (Hlen & Hnd & Hw).
  destruct (setReadfds_spec n pipes v cp Hd Hlen Hnd Hv Hw) as (nfds & fds & Hset & Hfds).
  exists nfds, fds. split; [done|]. intros Hne.
  destruct (loop_body_spec n pipes v cp Hd Hlen Hnd Hv Hw qs
              (select pipes qs fds) l now r)
    as (tok & nfds' & fds' & Hrun & _ & Htok & _);
    [lia|done|intros i Hi; by apply (select_ready n pipes v Hd Hlen Hnd Hv)|].
  destruct (read_last_exists n pipes v Hd Hlen Hnd Hv qs fds Hqlen Hfds Hne) as [x Hx].
  rewrite (Htok x Hx) in Hrun.
  destruct (c_rem_pos r n) as [_ Hk]; [lia|].
  eexists _, _, _, x. split; [exact Hrun|]. split_and!; try done.
  - intros fd Hfd. pose proof Hfd as Hfd'. unfold select in Hfd'.
    apply elem_of_filter in Hfd' as [_ Hin]. apply Hfds in Hin as (i & Hi & ->).
    apply (select_ready n pipes v Hd Hlen Hnd Hv qs fds i Hfds Hi) in Hfd
      as (y & rest & Hy).
    exists i, y, rest. split_and!; [lia|lia| | |].
    + unfold recv_fd. by apply (recv_slot n pipes v cp Hd Hw).
    + done.
    + by rewrite loop_body_own_pipes, Hy.
  - intros i Hi. by apply loop_body_own_pipes.
Qed.

Lemma loop_body_reads_every_ready_end_increments_once_witness :
  let pipes := [(3, 4); (5, 6); (7, 8); (9, 10); (11, 12); (13, 14); (15, 16); (17, 18)] in
  let cp := [3; 8; 5; 14] in
  let qs := [[7]; [7]; []; []; []; []; []; []] in
  let l := {| token := 6; start := {| tv_sec := 100; tv_usec := 0 |}; file := [] |} in
  let now := {| tv_sec := 101; tv_usec := 0 |} in
  ∃ nfds fds,
    setReadfds 2 cp = Ret (nfds, fds)
    ∧ (select pipes qs fds ≠ ∅ →
       ∃ l' qs' out x,
         loop_body 2 pipes cp (select pipes qs fds) now 1%N (l, qs) = ((l', qs'), Ret out)
         ∧ (∀ fd, fd ∈ select pipes qs fds →
              ∃ i y rest, 0 ≤ i < 2 ∧ recv_fd cp i = Ret fd
                ∧ qs !! Z.to_nat (own_idx 2 0 i) = Some (y :: rest)
                ∧ qs' !! Z.to_nat (own_idx 2 0 i) = Some rest)
         ∧ (∀ i, 0 ≤ i < 2 →
              qs' !! Z.to_nat (own_idx 2 0 i) = tail <$> qs !! Z.to_nat (own_idx 2 0 i))
         ∧ read_last 2 0 qs x
         ∧ token l' = Int.add x 1
         ∧ file l' = file l ++ [arrival_line (start l) now (Int.add x 1)]).
Proof.
  intros pipes cp qs l now.
  apply (loop_body_reads_every_ready_end_increments_once 64 {[0; 1; 2]} 2 8 pipes
           (list_to_set (seqZ 0 19)) 0 cp {[0; 1; 2; 3; 5; 8; 14]} qs l now 1%N);
    [lia|vm_compute; reflexivity|simpl; lia|vm_compute; reflexivity|reflexivity].
Defined.

(** The same pass, evaluated: two read ends ready, both holding 7; the token
    after the pass is 8, and both pipes are empty. *)
Example two_arrivals_one_increment :
  let pipes := [(3, 4); (5, 6); (7, 8); (9, 10); (11, 12); (13, 14); (15, 16); (17, 18)] in
  let l := {| token := 6; start := {| tv_sec := 100; tv_usec := 0 |}; file := [] |} in
  size (select pipes [[7]; [7]; []; []; []; []; []; []] {[3; 5]}) = 2%nat
  ∧ loop_body 2 pipes [3; 8; 5; 14]
      (select pipes [[7]; [7]; []; []; []; []; []; []] {[3; 5]})
      {| tv_sec := 101; tv_usec := 0 |} 1%N (l, [[7]; [7]; []; []; []; []; []; []])
    = (({| token := 8; start := {| tv_sec := 101; tv_usec := 0 |};
           file := [LogArrival 8 1000000] |},
        [[]; []; []; []; []; [8]; []; []]), Ret (5, {[3; 5]})).
Proof. split; vm_compute; reflexivity. Qed.

(** The second half of C3 as the specification words it does not hold: no
    pass, with however many read ends ready, leaves the token at anything but
    the value read last plus one. *)
Lemma more_than_one_increment_counterexample :
  ¬ round_with_more_than_one_increment.
Proof.
  intros (limit & open0 & n & nb & pipes & open & v & cp & open_v & qs & nfds & fds
          & l & now & r & l' & qs' & out & x
          & Hn & Hcreate & Hv & Hsetup & Hqlen & Hset & _ & Hrun & Hx & Hne).
  assert (Hd : dim_ok n).
  { destruct (decide (n ≤ 26)); [unfold dim_ok; lia|].
    destruct (large_dim_not_wired limit open0 n nb pipes open v cp open_v); (done || lia). }
  destruct (setup_wired _ _ _ _ _ _ _ _ _ Hd Hcreate Hv Hsetup) as (Hlen & Hnd & Hw).
  destruct (setReadfds_spec n pipes v cp Hd Hlen Hnd Hv Hw) as (nfds' & fds' & Hset' & Hfds).
  rewrite Hset in Hset'. injection Hset' as <- <-.
  destruct (loop_body_spec n pipes v cp Hd Hlen Hnd Hv Hw qs
              (select pipes qs fds) l now r)
    as (tok & nfds' & fds' & Hrun' & _ & Htok & _);
    [lia|done|intros i Hi; by apply (select_ready n pipes v Hd Hlen Hnd Hv)|].
  rewrite (Htok x Hx), Hrun in Hrun'. injection Hrun' as -> _ _. by apply Hne.
Qed.

(** ** The pipes with a single token *)

Lemma drain_replicate slots len :
  drain slots (replicate len ([] : list Z)) = replicate len [].
Proof.
  unfold drain. induction slots as [|p slots IH]; [done|]. cbn [foldl].
  rewrite <- IH at 2. f_equal. apply list_eq. intros i.
  destruct (decide (i = p)) as [->|Hne].
  - rewrite list_lookup_alter_eq. by destruct (replicate len [] !! p) eqn:E;
      [apply lookup_replicate in E as [-> _]|].
  - by rewrite list_lookup_alter_ne.
Qed.

Lemma single_token_length n len d j t : length (single_token n len d j t) = len.
Proof. unfold single_token. by rewrite length_insert, length_replicate. Qed.

Lemma single_token_lookup n len d j t p :
  (Z.to_nat (own_idx n d j) < len)%nat →
  single_token n len d j t !! p
  = if decide (p = Z.to_nat (own_idx n d j)) then Some [t]
    else if decide (p < len)%nat then Some [] else None.
Proof.
  intros Hlt. unfold single_token. destruct (decide (p = _)) as [->|Hne].
  - by rewrite list_lookup_insert_eq by (by rewrite length_replicate).
  - rewrite list_lookup_insert_ne by done.
    destruct (decide (p < len)%nat).
    + by apply lookup_replicate_2.
    + apply lookup_ge_None. rewrite length_replicate. lia.
Qed.

Section single_token.
Context (n : Z) (pipes : list pipe_t).
Hypothesis Hn : dim_ok n.
Hypothesis Hlen : Z.of_nat (length pipes) = 2 ^ n * n.
Hypothesis Hnd : NoDup (table_fds pipes).

Local Abbreviation len := (length pipes).

Lemma own_slot_lt v i : 0 ≤ v < 2 ^ n → 0 ≤ i < n → (Z.to_nat (own_idx n v i) < len)%nat.
Proof. intros Hv Hi. pose proof (own_idx_range n Hn v i Hv Hi). lia. Qed.

Lemma drain_single v j t :
  0 ≤ v < 2 ^ n → 0 ≤ j < n →
  drain (own_slots n v (Z.to_nat n) 0) (single_token n len v j t) = replicate len [].
Proof.
  intros Hv Hj. pose proof (own_slot_lt v j Hv Hj) as Hlt.
  apply list_eq. intros p.
  rewrite drain_lookup by (apply own_slots_NoDup; (done || lia)).
  rewrite single_token_lookup by done.
  destruct (decide (p = Z.to_nat (own_idx n v j))) as [->|Hne].
  - rewrite decide_True.
    + symmetry. by apply lookup_replicate_2.
    + apply elem_of_own_slots; [lia|]. exists j. split; [lia|done].
  - destruct (decide (p < len)%nat).
    + rewrite lookup_replicate_2 by done. by destruct (decide _).
    + rewrite (proj2 (lookup_ge_None (replicate len []) p))
        by (rewrite length_replicate; lia).
      by destruct (decide _).
Qed.

Lemma snoc_replicate p t :
  (p < len)%nat →
  alter (λ q : list Z, q ++ [t]) p (replicate len []) = <[p := [t]]> (replicate len []).
Proof.
  intros Hp. apply list_eq. intros i. destruct (decide (i = p)) as [->|Hne].
  - rewrite list_lookup_alter_eq, list_lookup_insert_eq by (by rewrite length_replicate).
    by rewrite lookup_replicate_2.
  - by rewrite list_lookup_alter_ne, list_lookup_insert_ne.
Qed.

Lemma ready_at_single v d j t i :
  0 ≤ v < 2 ^ n → 0 ≤ d < 2 ^ n → 0 ≤ j < n → 0 ≤ i < n →
  ready_at n v (single_token n len d j t) i ↔ v = d ∧ i = j.
Proof.
  intros Hv Hd Hj Hi. unfold ready_at.
  pose proof (own_slot_lt d j Hd Hj) as Hlt.
  pose proof (own_slot_lt v i Hv Hi) as Hlt'.
  rewrite single_token_lookup by done. split.
  - intros (x & rest & Hx).
    destruct (decide (Z.to_nat (own_idx n v i) = Z.to_nat (own_idx n d j))) as [Heq|Hne].
    + pose proof (own_idx_range n Hn v i Hv Hi).
      pose proof (own_idx_range n Hn d j Hd Hj).
      assert (Heq' : own_idx n v i = own_idx n d j) by lia.
      by apply own_idx_inj in Heq'.
    + by destruct (decide (Z.to_nat (own_idx n v i) < len)%nat).
  - intros [-> ->]. rewrite decide_True by done. by exists t, [].
Qed.

Lemma ready_at_replicate v i : ¬ ready_at n v (replicate len []) i.
Proof.
  intros (x & rest & Hx). by apply lookup_replicate in Hx as [? _].
Qed.

Lemma read_last_single v j t :
  0 ≤ v < 2 ^ n → 0 ≤ j < n → read_last n v (single_token n len v j t) t.
Proof.
  intros Hv Hj. exists j, []. split; [done|].
  pose proof (own_slot_lt v j Hv Hj) as Hlt.
  split.
  - rewrite single_token_lookup by done. by rewrite decide_True.
  - intros i' Hi'. pose proof (own_slot_lt v i' Hv) as Hlt'.
    destruct (own_queue n pipes v Hn Hlen Hv (single_token n len v j t) i')
      as [[|x rest] Hq]; [by rewrite single_token_length|lia|done|].
    assert (Hr : ready_at n v (single_token n len v j t) i') by (by exists x, rest).
    apply ready_at_single in Hr; [|done|done|done|lia]. lia.
Qed.

End single_token.

(** ** The steps of a run *)

Section run.
Context (n : Z) (pipes : list pipe_t).
Hypothesis Hn : dim_ok n.
Hypothesis Hn1 : 1 ≤ n.
Hypothesis Hlen : Z.of_nat (length pipes) = 2 ^ n * n.
Hypothesis Hnd : NoDup (table_fds pipes).

Local Abbreviation len := (length pipes).

Lemma passToken_start_other v cp now r (qs : list (list Z)) :
  0 ≤ v < 2 ^ n → v ≠ 0 → wired n pipes v cp →
  ∃ nfds fds,
    passToken_start v n pipes cp true now r (locals_init, qs)
    = ((locals_init, qs), Ret (nfds, fds))
    ∧ readfds_of n pipes v fds.
Proof.
  intros Hv Hv0 Hw.
  destruct (setReadfds_spec n pipes v cp Hn Hlen Hnd Hv Hw) as (nfds & fds & Hset & Hfds).
  exists nfds, fds. split; [|done].
  unfold passToken_start. cbn [negb]. rewrite bool_decide_false by done.
  unfold mbind, M_bind, mret, M_ret, lift. by rewrite Hset.
Qed.

Lemma passToken_start_seed cp now r :
  wired n pipes 0 cp →
  ∃ nfds fds,
    passToken_start 0 n pipes cp true now r (locals_init, replicate len [])
    = (({| token := 1; start := now; file := [LogSeed 1] |},
        single_token n len (Z.lxor 0 (2 ^ (Z.of_N r `mod` n))) (Z.of_N r `mod` n) 1),
       Ret (nfds, fds))
    ∧ readfds_of n pipes 0 fds.
Proof.
  intros Hw. pose proof (dim_ok_pow n Hn) as Hp.
  assert (Hv : 0 ≤ 0 < 2 ^ n) by lia.
  destruct (setReadfds_spec n pipes 0 cp Hn Hlen Hnd Hv Hw) as (nfds & fds & Hset & Hfds).
  destruct (c_rem_pos r n Hn1) as [Hrem Hk].
  pose proof (nb_idx_range n Hn 0 _ Hv Hk) as Hnb.
  exists nfds, fds. split; [|done].
  unfold passToken_start. cbn [negb]. rewrite bool_decide_true by done.
  unfold mbind, M_bind, get_token, set_token, get_start, set_start, fprintf, lift.
  cbn [fst snd token start file locals_init]. rewrite Hrem.
  rewrite (send_slot n pipes 0 cp Hn Hw _ Hk).
  rewrite (write_token_spec n pipes Hlen Hnd) by (by rewrite ?length_replicate).
  cbn [fst snd token start file]. rewrite Hset.
  rewrite snoc_replicate by lia. done.
Qed.

Lemma loop_body_single v cp fds l now r j t :
  0 ≤ v < 2 ^ n → 0 ≤ j < n → wired n pipes v cp → readfds_of n pipes v fds →
  Int.in_range (t + 1) →
  select pipes (single_token n len v j t) fds ≠ ∅
  ∧ ∃ nfds fds',
      loop_body n pipes cp (select pipes (single_token n len v j t) fds) now r
        (l, single_token n len v j t)
      = (({| token := t + 1; start := now;
             file := file l ++ [arrival_line (start l) now (t + 1)] |},
          single_token n len (Z.lxor v (2 ^ (Z.of_N r `mod` n))) (Z.of_N r `mod` n) (t + 1)),
         Ret (nfds, fds'))
      ∧ readfds_of n pipes v fds'.
Proof.
  intros Hv Hj Hw Hfds Ht.
  assert (Hsel : ∀ i, 0 ≤ i < n →
            rd (chan pipes (own_idx n v i)) ∈ select pipes (single_token n len v j t) fds
            ↔ ready_at n v (single_token n len v j t) i).
  { intros i Hi. by apply (select_ready n pipes v Hn Hlen Hnd Hv). }
  split.
  - intros Hempty. assert (Hr : ready_at n v (single_token n len v j t) j)
      by (by apply (ready_at_single n pipes Hn Hlen)).
    apply Hsel in Hr; [|done]. rewrite Hempty in Hr. by apply not_elem_of_empty in Hr.
  - destruct (loop_body_spec n pipes v cp Hn Hlen Hnd Hv Hw (single_token n len v j t)
                (select pipes (single_token n len v j t) fds) l now r)
      as (tok & nfds & fds' & Hrun & Hfds' & Htok & _);
      [done|by rewrite single_token_length|done|].
    rewrite (Htok t) in Hrun by (by apply (read_last_single n pipes Hn Hlen)).
    destruct (c_rem_pos r n Hn1) as [_ Hk].
    pose proof (nb_idx_range n Hn v _ Hv Hk) as Hnb.
    exists nfds, fds'. split; [|done]. rewrite Hrun.
    unfold Int.add. rewrite (wrap_id (t + 1)) by done.
    rewrite (drain_single n pipes Hn Hlen) by done.
    rewrite snoc_replicate by lia. done.
Qed.

Lemma vertex_range s m v p :
  inv n pipes m s → procs s !! v = Some p → 0 ≤ Z.of_nat v < 2 ^ n.
Proof.
  intros (Hprocs & _) Hp. apply lookup_lt_Some in Hp. lia.
Qed.

(** Every step of a run that satisfies the invariant is one of the four
    cases. *)
Lemma step_cases e s m :
  inv n pipes m s → m < Int.INT_MAX → ev_fopen e = true →
  step_case n pipes e s (step n pipes e s).
Proof.
  intros Hinv Hm Hf. pose proof Hinv as (Hprocs & Hpi & Hq).
  unfold step. destruct (procs s !! ev_vertex e) as [[cp|cp fds l|st l|f l]|] eqn:Hp;
    try by apply StepIdle.
  - pose proof (vertex_range s m _ _ Hinv Hp) as Hv.
    pose proof (Hpi _ _ Hp) as Hw. cbn [proc_inv] in Hw.
    rewrite Hf.
    + destruct (decide (ev_vertex e = 0%nat)) as [Hv0|Hv0].
      * assert (Hqs : queues s = replicate len []).
        { destruct Hq as [[Hqs _]|(d & j & t & _ & _ & _ & _ & Hnf & _)]; [done|].
          rewrite Hv0 in Hp. by destruct (Hnf cp). }
        rewrite Hv0 in Hw, Hp |- *. change (Z.of_nat 0) with 0 in *.
        destruct (passToken_start_seed cp (ev_now e) (ev_rand e) Hw)
          as (nfds & fds & Hrun & Hfds).
        rewrite Hqs, Hrun. cbn [fst snd resume].
        destruct (c_rem_pos (ev_rand e) n Hn1) as [_ Hk].
        eapply (StepSeed n pipes e s _ cp fds); try done.
        by rewrite Hv0.
      * destruct (passToken_start_other (Z.of_nat (ev_vertex e)) cp (ev_now e)
                    (ev_rand e) (queues s)) as (nfds & fds & Hrun & Hfds);
          [done|lia|done|].
        rewrite Hrun. cbn [fst snd resume].
        by eapply (StepStart n pipes e s _ cp fds).
  - pose proof (vertex_range s m _ _ Hinv Hp) as Hv.
    pose proof (Hpi _ _ Hp) as (Hw & Hfds & _). 
    destruct Hq as [[Hqs _]|(d & j & t & Hd & Hj & Ht & Hqs & _)].
    + rewrite decide_True; [by apply StepIdle|].
      apply (select_empty n pipes _ Hn Hlen Hnd Hv); [done|].
      intros i Hi. rewrite Hqs. apply ready_at_replicate.
    + destruct (decide (Z.of_nat (ev_vertex e) = d)) as [<-|Hne].
      * destruct (loop_body_single (Z.of_nat (ev_vertex e)) cp fds l (ev_now e)
                    (ev_rand e) j t Hv Hj Hw Hfds)
          as (Hsel & nfds & fds' & Hrun & Hfds').
        { unfold Int.in_range, Int.INT_MIN, Int.INT_MAX in *. lia. }
        rewrite Hqs. rewrite decide_False by done. rewrite Hrun.
        cbn [fst snd resume].
        destruct (c_rem_pos (ev_rand e) n Hn1) as [_ Hk].
        by eapply (StepForward n pipes e s _ cp fds fds' l j t).
      * rewrite decide_True; [by apply StepIdle|].
        apply (select_empty n pipes _ Hn Hlen Hnd Hv); [done|].
        intros i Hi Hr. rewrite Hqs in Hr.
        apply (ready_at_single n pipes Hn Hlen) in Hr; [|done..]. by destruct Hr.
Qed.

End run.

(** ** Logs along a run *)

Lemma log_at_lookup s v p : procs s !! v = Some p → log_at s v = log_of p.
Proof. intros Hp. unfold log_at. by rewrite Hp. Qed.

Lemma log_at_upd_eq s v p qs :
  (v < length (procs s))%nat → log_at (upd s v p qs) v = log_of p.
Proof. intros Hv. unfold log_at, upd. cbn [procs]. by rewrite list_lookup_insert_eq. Qed.

Lemma log_at_upd_ne s v p qs w : w ≠ v → log_at (upd s v p qs) w = log_at s w.
Proof. intros Hne. unfold log_at, upd. cbn [procs]. by rewrite list_lookup_insert_ne. Qed.

Lemma procs_upd_lookup s v p qs w p' :
  procs (upd s v p qs) !! w = Some p' →
  (w = v ∧ p' = p) ∨ (w ≠ v ∧ procs s !! w = Some p').
Proof.
  unfold upd. cbn [procs]. intros Hl. destruct (decide (w = v)) as [->|Hne].
  - left. split; [done|]. pose proof (lookup_lt_Some _ _ _ Hl) as Hlt.
    rewrite length_insert in Hlt. rewrite list_lookup_insert_eq in Hl by done. congruence.
  - right. by rewrite list_lookup_insert_ne in Hl.
Qed.

Lemma increasing_by_two_snoc ts b :
  increasing_by_two ts → (∀ a, a ∈ ts → a + 2 ≤ b) → increasing_by_two (ts ++ [b]).
Proof.
  intros Hts Hb i x y Hx Hy.
  destruct (decide (S i < length ts)%nat) as [Hlt|Hge].
  - rewrite lookup_app_l in Hx, Hy by lia. by eapply Hts.
  - pose proof (lookup_lt_Some _ _ _ Hy) as Hlen. rewrite length_app in Hlen.
    simpl in Hlen. assert (Hi : S i = length ts) by lia.
    rewrite lookup_app_l in Hx by lia.
    rewrite lookup_app_r in Hy by lia.
    replace (S i - length ts)%nat with 0%nat in Hy by lia. injection Hy as <-.
    apply Hb. by eapply list_elem_of_lookup_2.
Qed.

Lemma logs_inv_same s s' d t :
  (∀ w, log_at s' w = log_at s w) → logs_inv s d t → logs_inv s' d t.
Proof. intros Hsame Hl v. unfold tokens_at. rewrite Hsame. apply Hl. Qed.

Lemma logged_token_arrival st now t : logged_token (arrival_line st now t) = t.
Proof. unfold arrival_line. by destruct (bool_decide _). Qed.

Lemma single_token_inj n len d j t d' j' t' :
  (Z.to_nat (own_idx n d j) < len)%nat → (Z.to_nat (own_idx n d' j') < len)%nat →
  single_token n len d j t = single_token n len d' j' t' →
  Z.to_nat (own_idx n d j) = Z.to_nat (own_idx n d' j') ∧ t = t'.
Proof.
  intros Hlt Hlt' Heq.
  assert (H : single_token n len d j t !! Z.to_nat (own_idx n d j) = Some [t]).
  { rewrite single_token_lookup by done. by rewrite decide_True. }
  rewrite Heq, single_token_lookup in H by done.
  destruct (decide _) as [?|?]; [|by destruct (decide _)].
  split; [done|congruence].
Qed.

Lemma single_token_not_empty n len d j t :
  (Z.to_nat (own_idx n d j) < len)%nat → single_token n len d j t ≠ replicate len [].
Proof.
  intros Hlt Heq.
  assert (H : single_token n len d j t !! Z.to_nat (own_idx n d j) = Some [t]).
  { rewrite single_token_lookup by done. by rewrite decide_True. }
  rewrite Heq, lookup_replicate_2 in H by done. done.
Qed.

Lemma inv_mono n pipes m m' s : m ≤ m' → inv n pipes m s → inv n pipes m' s.
Proof.
  intros Hm (Hprocs & Hpi & Hq). split_and!; [done|done|].
  destruct Hq as [?|(d & j & t & Hd & Hj & Ht & Hrest)]; [by left|right].
  exists d, j, t. split; [done|]. split; [done|]. split; [lia|done].
Qed.

Section invariant.
Context (n : Z) (pipes : list pipe_t).
Hypothesis Hn : dim_ok n.
Hypothesis Hn1 : 1 ≤ n.
Hypothesis Hlen : Z.of_nat (length pipes) = 2 ^ n * n.
Hypothesis Hnd : NoDup (table_fds pipes).

Local Abbreviation len := (length pipes).

(** A process that has not printed anything leaves [Forked] without touching
    the pipes. *)
Lemma inv_start m s v cp p' :
  inv n pipes m s → procs s !! v = Some (Forked cp) →
  proc_inv n pipes v p' → log_of p' = [] → (∀ cp', p' ≠ Forked cp') →
  inv n pipes m (upd s v p' (queues s)).
Proof.
  intros (Hprocs & Hpi & Hq) Hp Hp' Hlog Hnf.
  pose proof (lookup_lt_Some _ _ _ Hp) as Hlt.
  assert (Hsame : ∀ w, log_at (upd s v p' (queues s)) w = log_at s w).
  { intros w. destruct (decide (w = v)) as [->|Hne].
    - by rewrite log_at_upd_eq, (log_at_lookup s v _ Hp).
    - by apply log_at_upd_ne. }
  split_and!.
  - unfold upd. cbn [procs]. by rewrite length_insert.
  - intros w p Hw. apply procs_upd_lookup in Hw as [[-> ->]|[_ Hw]]; [done|by apply Hpi].
  - destruct Hq as [[Hqs Hlogs]|(d & j & t & Hd & Hj & Ht & Hqs & Hnf0 & Hl & Hd0 & Hfirst)].
    + left. split; [done|]. intros w. by rewrite Hsame.
    + right. exists d, j, t.
      split; [done|]. split; [done|]. split; [done|]. split; [done|].
      split; [|split; [|split]].
      * intros cp' Hcp'. apply procs_upd_lookup in Hcp' as [[_ Heq]|[_ Hcp']].
        -- by destruct (Hnf cp').
        -- by destruct (Hnf0 cp').
      * by apply (logs_inv_same s).
      * done.
      * destruct Hfirst as [?|(w & rest & Hw0 & Hw)]; [by left|right].
        exists w, rest. by rewrite Hsame.
Qed.

Lemma inv_seed m s cp fds k now :
  0 ≤ m → inv n pipes m s → procs s !! 0%nat = Some (Forked cp) →
  0 ≤ k < n → readfds_of n pipes 0 fds →
  inv n pipes (m + 1)
    (upd s 0 (Waiting cp fds {| token := 1; start := now; file := [LogSeed 1] |})
       (single_token n len (Z.lxor 0 (2 ^ k)) k 1)).
Proof.
  intros Hm0 (Hprocs & Hpi & Hq) Hp Hk Hfds.
  pose proof (lookup_lt_Some _ _ _ Hp) as Hlt.
  pose proof (Hpi _ _ Hp) as Hw. cbn [proc_inv] in Hw.
  pose proof (dim_ok_pow n Hn) as Hpow.
  assert (Hlogs : ∀ v, log_at s v = []).
  { destruct Hq as [[_ Hlogs]|(d & j & t & _ & _ & _ & _ & Hnf & _)]; [done|].
    by destruct (Hnf cp). }
  destruct (neighbour_of_ok n 0 k Hn) as [_ Hd]; [lia|done|].
  set (s' := upd s 0 _ _).
  assert (Hlog0 : log_at s' 0 = [LogSeed 1]) by (by apply log_at_upd_eq).
  assert (Hlogw : ∀ w, w ≠ 0%nat → log_at s' w = []).
  { intros w Hw0. unfold s'. by rewrite log_at_upd_ne, Hlogs. }
  split_and!.
  - unfold s', upd. cbn [procs]. by rewrite length_insert.
  - intros w p Hpw. apply procs_upd_lookup in Hpw as [[-> ->]|[_ Hpw]]; [|by apply Hpi].
    cbn [proc_inv file]. split_and!; [done|done|by eexists|done].
  - right. exists (Z.lxor 0 (2 ^ k)), k, 1.
    split; [done|]. split; [done|]. split; [lia|]. split; [done|].
    split; [|split; [|split]].
    + intros cp' Hcp'. by apply procs_upd_lookup in Hcp' as [[_ Heq]|[Hne _]].
    + intros v. unfold tokens_at. destruct (decide (v = 0%nat)) as [->|Hv0].
      * rewrite Hlog0. cbn. split_and!.
        -- intros i a b Ha Hb. by destruct i.
        -- intros a Ha. apply list_elem_of_singleton in Ha. lia.
        -- intros Heq. symmetry in Heq. by apply neighbour_ne in Heq; [|lia].
        -- done.
      * rewrite Hlogw by done. cbn. split_and!.
        -- intros i a b Ha. done.
        -- intros a Ha. by apply elem_of_nil in Ha.
        -- intros _ a Ha. by apply elem_of_nil in Ha.
        -- intros _ a Ha. by apply elem_of_nil in Ha.
    + intros _ Heq. by apply neighbour_ne in Heq; [|lia].
    + by left.
Qed.

Lemma inv_forward m s v cp fds fds' l j t k now :
  0 ≤ m → m < Int.INT_MAX → inv n pipes m s →
  procs s !! v = Some (Waiting cp fds l) →
  queues s = single_token n len (Z.of_nat v) j t →
  0 ≤ j < n → 0 ≤ k < n → readfds_of n pipes (Z.of_nat v) fds' →
  inv n pipes (m + 1)
    (upd s v
       (Waiting cp fds'
          {| token := t + 1; start := now;
             file := file l ++ [arrival_line (start l) now (t + 1)] |})
       (single_token n len (Z.lxor (Z.of_nat v) (2 ^ k)) k (t + 1))).
Proof.
  intros Hm0 Hm Hinv Hp Hqs Hj Hk Hfds'.
  destruct Hinv as (Hprocs & Hpi & Hq).
  pose proof (lookup_lt_Some _ _ _ Hp) as Hlt.
  assert (Hv : 0 ≤ Z.of_nat v < 2 ^ n) by lia.
  pose proof (Hpi _ _ Hp) as (Hw & Hfds & Hseed & Hstart).
  pose proof (own_slot_lt n pipes Hn Hlen _ j Hv Hj) as Hslot.
  destruct Hq as [[Hqs' _]|(d & j0 & t0 & Hd & Hj0 & Ht & Hqs' & Hnf & Hl & Hd0 & Hfirst)].
  { rewrite Hqs in Hqs'. by apply single_token_not_empty in Hqs'. }
  pose proof (own_slot_lt n pipes Hn Hlen d j0 Hd Hj0) as Hslot0.
  rewrite Hqs in Hqs'. apply single_token_inj in Hqs' as [Hidx <-]; [|done|done].
  assert (Hidx' : own_idx n (Z.of_nat v) j = own_idx n d j0).
  { pose proof (own_idx_range n Hn _ j Hv Hj).
    pose proof (own_idx_range n Hn d j0 Hd Hj0). lia. }
  apply own_idx_inj in Hidx' as [<- <-]; [|done|done]. clear Hidx Hslot0.
  destruct (neighbour_of_ok n (Z.of_nat v) k Hn Hv Hk) as [_ Hd'].
  assert (Hne : Z.lxor (Z.of_nat v) (2 ^ k) ≠ Z.of_nat v) by (apply neighbour_ne; lia).
  set (line := arrival_line (start l) now (t + 1)).
  set (s' := upd s v _ _).
  assert (Hlogv : log_at s v = file l) by (by rewrite (log_at_lookup s v _ Hp)).
  assert (Hlogv' : log_at s' v = file l ++ [line]) by (by apply log_at_upd_eq).
  assert (Hlogw : ∀ w, w ≠ v → log_at s' w = log_at s w).
  { intros w Hwv. by apply log_at_upd_ne. }
  destruct (Hl v) as (Hinc & Hle & Hdest & Htwo).
  split_and!.
  - unfold s', upd. cbn [procs]. by rewrite length_insert.
  - intros w p Hpw. apply procs_upd_lookup in Hpw as [[-> ->]|[_ Hpw]]; [|by apply Hpi].
    cbn [proc_inv file]. split_and!; [done|done| |].
    + intros Hv0. destruct (Hseed Hv0) as [rest ->]. by eexists.
    + intros _ Hnil. by apply app_nil in Hnil as [_ ?].
  - right. exists (Z.lxor (Z.of_nat v) (2 ^ k)), k, (t + 1).
    split; [done|]. split; [done|]. split; [lia|]. split; [done|].
    split; [|split; [|split]].
    + intros cp' Hcp'. apply procs_upd_lookup in Hcp' as [[_ Heq]|[_ Hcp']]; [done|].
      by destruct (Hnf cp').
    + intros w. unfold tokens_at. destruct (decide (w = v)) as [->|Hwv].
      * rewrite Hlogv', fmap_app. cbn [fmap list_fmap]. unfold line.
        rewrite logged_token_arrival.
        unfold tokens_at in Hinc, Hle, Hdest, Htwo. rewrite Hlogv in Hinc, Hle, Hdest, Htwo.
        split_and!.
        -- apply increasing_by_two_snoc; [done|].
           intros a Ha. specialize (Hdest eq_refl a Ha). lia.
        -- intros a Ha. apply elem_of_app in Ha as [Ha|Ha].
           ++ specialize (Hle a Ha). lia.
           ++ apply list_elem_of_singleton in Ha. lia.
        -- intros Heq. by destruct Hne.
        -- intros Hv0 a Ha. apply elem_of_app in Ha as [Ha|Ha].
           ++ by apply Htwo.
           ++ apply list_elem_of_singleton in Ha. lia.
      * rewrite Hlogw by done. destruct (Hl w) as (Hinc' & Hle' & _ & Htwo').
        split_and!; [done| |  |done].
        -- intros a Ha. specialize (Hle' a Ha). lia.
        -- intros _ a Ha. specialize (Hle' a Ha). lia.
    + lia.
    + right. destruct Hfirst as [->|(w & rest & Hw0 & Hlogfirst)].
      * assert (Hv0 : v ≠ 0%nat) by (specialize (Hd0 eq_refl); lia).
        assert (Hnil : file l = []).
        { destruct (file l) as [|x rest] eqn:Hfile; [done|].
          unfold tokens_at in Hdest, Htwo. rewrite Hlogv in Hdest, Htwo.
          assert (Hin : logged_token x ∈ logged_token <$> x :: rest) by (cbn; left).
          specialize (Hdest eq_refl _ Hin). specialize (Htwo Hv0 _ Hin). lia. }
        exists v, []. split; [done|]. rewrite Hlogv', Hnil. cbn. unfold line, arrival_line.
        by rewrite bool_decide_true by (by apply Hstart).
      * destruct (decide (w = v)) as [->|Hwv].
        -- exists v, (rest ++ [line]). split; [done|].
           rewrite Hlogv'. rewrite Hlogv in Hlogfirst. by rewrite Hlogfirst.
        -- exists w, rest. split; [done|]. by rewrite Hlogw.
Qed.

(** One step of a run keeps the invariant, as long as the token is below
    [INT_MAX]. *)
Lemma inv_step e s m :
  0 ≤ m → m < Int.INT_MAX → ev_fopen e = true → inv n pipes m s →
  inv n pipes (m + 1) (step n pipes e s).
Proof.
  intros Hm0 Hm Hf Hinv.
  destruct (step_cases n pipes Hn Hn1 Hlen Hnd e s m Hinv Hm Hf)
    as [->|cp fds Hp Hv0 Hfds ->|cp fds k Hp Hv0 Hqs Hk Hfds ->
        |cp fds fds' l j t k Hp Hqs Hj Hk Hfds' ->].
  - apply (inv_mono n pipes m); [lia|done].
  - apply (inv_mono n pipes m); [lia|]. apply (inv_start m s _ cp); try done.
    pose proof Hinv as (_ & Hpi & _). pose proof (Hpi _ _ Hp) as Hw.
    cbn [proc_inv] in *. by split_and!.
  - rewrite Hv0 in Hp. by apply inv_seed.
  - by apply (inv_forward m s _ cp fds fds' l j t k).
Qed.

Lemma inv_run es : ∀ s m,
  0 ≤ m → m + Z.of_nat (length es) ≤ Int.INT_MAX → forallb ev_fopen es = true →
  inv n pipes m s →
  inv n pipes (m + Z.of_nat (length es)) (run n pipes es s).
Proof.
  unfold run. induction es as [|e es IH]; intros s m Hm0 Hm Hf Hinv; cbn [foldl length].
  - by rewrite Z.add_0_r.
  - replace (m + Z.of_nat (S (length es))) with ((m + 1) + Z.of_nat (length es)) by lia.
    cbn [length] in Hm. cbn [forallb] in Hf. apply andb_true_iff in Hf as [Hfe Hf].
    apply IH; [lia|lia|done|].
    apply inv_step; [done|lia|done|done].
Qed.

End invariant.

(** ** The system that [main] starts *)

Lemma concat_replicate_nil (len : nat) : concat (replicate len ([] : list Z)) = [].
Proof. induction len as [|len IH]; [done|]. simpl. by rewrite IH. Qed.

Lemma in_flight_single n len d j t s :
  (Z.to_nat (own_idx n d j) < len)%nat →
  queues s = single_token n len d j t → in_flight s = 1%nat.
Proof.
  intros Hlt Hqs. unfold in_flight. rewrite Hqs. unfold single_token.
  rewrite insert_take_drop by (by rewrite length_replicate).
  rewrite take_replicate, drop_replicate, concat_app. cbn [concat].
  by rewrite !concat_replicate_nil.
Qed.

Lemma in_flight_inv n pipes m s :
  dim_ok n → Z.of_nat (length pipes) = 2 ^ n * n →
  inv n pipes m s → (in_flight s ≤ 1)%nat.
Proof.
  intros Hn Hlen (_ & _ & [[Hqs _]|(d & j & t & Hd & Hj & _ & Hqs & _)]).
  - unfold in_flight. rewrite Hqs, concat_replicate_nil. simpl. lia.
  - rewrite (in_flight_single n (length pipes) d j t); [lia| |done].
    by apply (own_slot_lt n pipes Hn Hlen).
Qed.

Lemma spawn_spec n pipes open :
  dim_ok n → Z.of_nat (length pipes) = 2 ^ n * n → NoDup (table_fds pipes) →
  (∀ fd, fd ∈ table_fds pipes → fd ∈ open) →
  ∀ c i, 0 ≤ i → i + Z.of_nat c ≤ 2 ^ n →
    length (spawn c i n pipes open) = c
    ∧ ∀ k p, spawn c i n pipes open !! k = Some p →
        ∃ cp, p = Forked cp ∧ wired n pipes (i + Z.of_nat k) cp.
Proof.
  intros Hn Hlen Hnd Hopen. pose proof (dim_ok_pow n Hn) as Hpow.
  induction c as [|c IH]; intros i Hi Hic; cbn [spawn].
  - split; [done|]. intros k p Hk. done.
  - assert (Hv : 0 ≤ i < 2 ^ n) by lia.
    destruct (child_setup_spec n pipes Hn Hlen Hnd i open Hv Hopen)
      as (cp & open_v & -> & Hcplen & Hcp & _).
    assert (Ei : Int.add i 1 = i + 1).
    { unfold Int.add. apply wrap_id.
      unfold Int.in_range, Int.INT_MIN, Int.INT_MAX. lia. }
    rewrite Ei. destruct (IH (i + 1)) as [Hl Hk]; [lia|lia|].
    split; [cbn; by rewrite Hl|].
    intros [|k] p Hp; cbn in Hp.
    + injection Hp as <-. exists cp. rewrite Z.add_0_r. by split.
    + destruct (Hk k p Hp) as (cp' & -> & Hw'). exists cp'. split; [done|].
      by replace (i + Z.of_nat (S k)) with (i + 1 + Z.of_nat k) by lia.
Qed.

Lemma boot_inv limit open0 n pipes s0 :
  dim_ok n → boot limit open0 n = Ret (pipes, s0) →
  Z.of_nat (length pipes) = 2 ^ n * n ∧ NoDup (table_fds pipes) ∧ inv n pipes 0 s0.
Proof.
  intros Hn. unfold boot.
  destruct (createPipes limit open0 n) as [[[nb ps] open]| |] eqn:Hcreate; try done.
  cbn [mbind res_bind]. intros [= <- <-].
  destruct (createPipes_Ret _ _ _ _ _ _ Hn Hcreate) as (_ & Hlen & Hnd & Hopen).
  pose proof (dim_ok_pow n Hn) as Hpow.
  destruct (spawn_spec n ps open Hn Hlen Hnd) with (c := Z.to_nat (Int.shl 1 n)) (i := 0)
    as [Hl Hk].
  { intros fd Hfd. by apply Hopen. } { done. }
  { rewrite shl_one by done. lia. }
  split; [done|]. split; [done|]. split_and!.
  - cbn [procs]. rewrite Hl, shl_one by done. lia.
  - cbn [procs]. intros v p Hp. destruct (Hk v p Hp) as (cp & -> & Hw).
    by rewrite Z.add_0_l in Hw.
  - left. cbn [queues]. split; [done|]. intros v. unfold log_at. cbn [procs].
    destruct (spawn _ _ _ _ _ !! v) as [p|] eqn:Hp; [|done].
    by destruct (Hk v p Hp) as (cp & -> & _).
Qed.

Lemma run_inv limit open0 n pipes s0 es :
  1 ≤ n ≤ 26 → boot limit open0 n = Ret (pipes, s0) →
  Z.of_nat (length es) ≤ Int.INT_MAX → forallb ev_fopen es = true →
  Z.of_nat (length pipes) = 2 ^ n * n
  ∧ inv n pipes (Z.of_nat (length es)) (run n pipes es s0).
Proof.
  intros Hn Hboot Hes Hf. assert (Hd : dim_ok n) by (unfold dim_ok; lia).
  destruct (boot_inv _ _ _ _ _ Hd Hboot) as (Hlen & Hnd & Hinv).
  split; [done|].
  rewrite <- (Z.add_0_l (Z.of_nat (length es))).
  apply inv_run; try done; lia.
Qed.

Lemma step_all_crashed n pipes e s :
  (∀ v p, procs s !! v = Some p → ∃ f l, p = Crashed f l) → step n pipes e s = s.
Proof.
  intros Hall. unfold step.
  destruct (procs s !! ev_vertex e) as [p|] eqn:Hp; [|done].
  by destruct (Hall _ _ Hp) as (f & l & ->).
Qed.

Lemma run_all_crashed n pipes es s :
  (∀ v p, procs s !! v = Some p → ∃ f l, p = Crashed f l) → run n pipes es s = s.
Proof.
  intros Hall. unfold run. induction es as [|e es IH]; [done|].
  cbn [foldl]. by rewrite step_all_crashed.
Qed.

Lemma spawn_no_table n open c : ∀ i v p,
  1 ≤ n → spawn c i n [] open !! v = Some p → p = Crashed OutOfBounds locals_init.
Proof.
  induction c as [|c IH]; intros i v p Hn Hp; cbn [spawn] in Hp; [done|].
  rewrite child_setup_no_table in Hp by done.
  destruct v as [|v]; cbn in Hp; [congruence|]. by eapply IH.
Qed.

(** For a dimension above 26 every child faults in its wiring, and nothing is
    ever sent or logged. *)
Lemma boot_large limit open0 n pipes s0 es v :
  27 ≤ n → boot limit open0 n = Ret (pipes, s0) →
  in_flight (run n pipes es s0) = 0%nat ∧ log_at (run n pipes es s0) v = [].
Proof.
  intros Hn. unfold boot.
  destruct (createPipes limit open0 n) as [[[nb ps] open]| |] eqn:Hcreate; try done.
  cbn [mbind res_bind]. intros [= <- <-].
  apply createPipes_large in Hcreate as ->; [|done].
  rewrite run_all_crashed.
  - split; [done|]. unfold log_at. cbn [procs].
    destruct (spawn _ _ _ _ _ !! v) as [p|] eqn:Hp; [|done].
    apply spawn_no_table in Hp as ->; [done|lia].
  - cbn [procs]. intros w p Hp. apply spawn_no_table in Hp as ->; [|lia].
    by eexists _, _.
Qed.

(** ** The logs of a run *)

(** C4, as the code has it: in every run of the system [main] starts for a
    dimension [n ≥ 1], in which no [fopen] fails and as long as the token has
    not reached [INT_MAX], there is never more than one token in the pipes (no
    two arrivals ever coincide), and within the log of every vertex the token
    values do not decrease: each one exceeds the one before by 2 or more,
    never by exactly 1. *)
Theorem log_tokens_grow_by_two_or_more limit open0 n pipes s0 es v :
  1 ≤ n →
  boot limit open0 n = Ret (pipes, s0) →
  Z.of_nat (length es) ≤ Int.INT_MAX →
  forallb ev_fopen es = true →
  (in_flight (run n pipes es s0) ≤ 1)%nat
  ∧ non_decreasing (tokens_at (run n pipes es s0) v)
  ∧ increasing_by_two (tokens_at (run n pipes es s0) v)
  ∧ ∀ i a b, tokens_at (run n pipes es s0) v !! i = Some a →
             tokens_at (run n pipes es s0) v !! S i = Some b → b ≠ a + 1.
Proof.
  intros Hn Hboot Hes Hf.
  assert (Hflight : (in_flight (run n pipes es s0) ≤ 1)%nat
                    ∧ increasing_by_two (tokens_at (run n pipes es s0) v)).
  { destruct (decide (n ≤ 26)) as [Hle|Hgt].
    - assert (Hd : dim_ok n) by (unfold dim_ok; lia).
      destruct (run_inv _ _ _ _ _ _ (conj Hn Hle) Hboot Hes Hf) as (Hlen & Hinv).
      split; [by apply (in_flight_inv n pipes (Z.of_nat (length es)))|].
      destruct Hinv as (_ & _ & [[_ Hlogs]|(d & j & t & _ & _ & _ & _ & _ & Hl & _)]).
      + unfold tokens_at. rewrite Hlogs. intros i a b Ha. done.
      + by destruct (Hl v) as (Hinc & _).
    - destruct (boot_large limit open0 n pipes s0 es v) as [Hfl Hlog]; [lia|done|].
      split; [lia|]. unfold tokens_at. rewrite Hlog. intros i a b Ha. done. }
  destruct Hflight as [Hfl Hinc]. split_and!.
  - done.
  - intros i a b Ha Hb. specialize (Hinc i a b Ha Hb). lia.
  - done.
  - intros i a b Ha Hb. specialize (Hinc i a b Ha Hb). lia.
Qed.

Lemma log_tokens_grow_by_two_or_more_witness :
  let pipes := [(3, 4); (5, 6)] in
  let s0 := {| procs := [Forked [3; 6]; Forked [5; 4]]; queues := [[]; []] |} in
  let es := [runs 0; runs 1; runs 1; runs 0] in
  (in_flight (run 1 pipes es s0) ≤ 1)%nat
  ∧ non_decreasing (tokens_at (run 1 pipes es s0) 0)
  ∧ increasing_by_two (tokens_at (run 1 pipes es s0) 0)
  ∧ ∀ i a b, tokens_at (run 1 pipes es s0) 0 !! i = Some a →
             tokens_at (run 1 pipes es s0) 0 !! S i = Some b → b ≠ a + 1.
Proof.
  intros pipes s0 es.
  apply (log_tokens_grow_by_two_or_more 64 {[0; 1; 2]} 1 pipes s0 es 0%nat);
    [lia|vm_compute; reflexivity|vm_compute; discriminate|reflexivity].
Defined.

(** C4 as the specification words it fails in the 1-cube: vertex 0 seeds,
    vertex 1 receives and sends back, vertex 0 receives. At no point of this
    run is there more than one token in the pipes, and the log of vertex 0
    holds 1 and then 3. *)
Lemma log_tokens_by_one_counterexample :
  let pipes := [(3, 4); (5, 6)] in
  let s0 := {| procs := [Forked [3; 6]; Forked [5; 4]]; queues := [[]; []] |} in
  let es := [runs 0; runs 1; runs 1; runs 0] in
  boot 64 {[0; 1; 2]} 1 = Ret (pipes, s0)
  ∧ Forall (λ k, in_flight (run 1 pipes (take k es) s0) ≤ 1)%nat [0; 1; 2; 3; 4]%nat
  ∧ tokens_at (run 1 pipes es s0) 0 = [1; 3]
  ∧ tokens_at (run 1 pipes es s0) 1 = [2]
  ∧ ¬ increasing_by_one (tokens_at (run 1 pipes es s0) 0).
Proof.
  intros pipes s0 es.
  assert (Ht : tokens_at (run 1 pipes es s0) 0 = [1; 3]) by (vm_compute; reflexivity).
  split_and!.
  - vm_compute. reflexivity.
  - repeat constructor; vm_compute; lia.
  - exact Ht.
  - vm_compute. reflexivity.
  - rewrite Ht. intros H. specialize (H 0%nat 1 3 eq_refl eq_refl). lia.
Qed.

(** ** The first lines of the logs in the 1-cube *)

Lemma file_contents_cons line rest :
  file_contents (line :: rest) = render line +:+ file_contents rest.
Proof. done. Qed.

Lemma step_started_self n pipes e s : started (step n pipes e s) (ev_vertex e).
Proof.
  unfold started, step. intros cp0.
  destruct (procs s !! ev_vertex e) as [[cp|cp fds l|st l|f l]|] eqn:Hp;
    try (rewrite Hp; discriminate).
  - cbn [procs]. rewrite list_lookup_insert_eq by (by apply lookup_lt_Some in Hp).
    unfold resume. by destruct (_ : res (Z * gset Z)) as [[? ?]| |].
  - case_decide; [rewrite Hp; discriminate|].
    cbn [procs]. rewrite list_lookup_insert_eq by (by apply lookup_lt_Some in Hp).
    unfold resume. by destruct (_ : res (Z * gset Z)) as [[? ?]| |].
Qed.

Lemma step_other n pipes e s w :
  ev_vertex e ≠ w → procs (step n pipes e s) !! w = procs s !! w.
Proof.
  intros Hne. unfold step.
  destruct (procs s !! ev_vertex e) as [[cp|cp fds l|st l|f l]|] eqn:Hp; try done.
  - cbn [procs]. by rewrite list_lookup_insert_ne.
  - case_decide; [done|]. cbn [procs]. by rewrite list_lookup_insert_ne.
Qed.

Lemma step_started n pipes e s w : started s w → started (step n pipes e s) w.
Proof.
  intros Hs. destruct (decide (ev_vertex e = w)) as [<-|Hne].
  - apply step_started_self.
  - intros cp. rewrite step_other by done. apply Hs.
Qed.

Lemma run_started n pipes es : ∀ s w, started s w → started (run n pipes es s) w.
Proof.
  unfold run. induction es as [|e es IH]; intros s w Hs; cbn [foldl]; [done|].
  by apply IH, step_started.
Qed.

Lemma run_others n pipes w es : ∀ s,
  (∀ e, e ∈ es → ev_vertex e ≠ w) → procs (run n pipes es s) !! w = procs s !! w.
Proof.
  unfold run. induction es as [|e es IH]; intros s Hes; cbn [foldl]; [done|].
  rewrite IH by (intros e' He'; apply Hes; by right).
  apply step_other, Hes. by left.
Qed.

Lemma pending_runs_le s : (pending_runs s ≤ 2)%nat.
Proof.
  unfold pending_runs. destruct (log_at s 1); [|lia].
  destruct (procs s !! 1%nat) as [[| | |]|]; lia.
Qed.

Section one_cube.
Context (pipes : list pipe_t).
Hypothesis Hlen : Z.of_nat (length pipes) = 2 ^ 1 * 1.
Hypothesis Hnd : NoDup (table_fds pipes).

Lemma one_cube_dim : dim_ok 1.
Proof. unfold dim_ok. lia. Qed.

(** Once vertex 0 has entered [passToken], its file begins with the seed. *)
Lemma seeded_log s m :
  inv 1 pipes m s → started s 0 → ∃ rest, log_at s 0 = LogSeed 1 :: rest.
Proof.
  intros (Hprocs & Hpi & _) Hs.
  destruct (lookup_lt_is_Some_2 (procs s) 0) as [p Hp]; [change (2 ^ 1) with 2 in Hprocs; lia|].
  pose proof (Hpi _ _ Hp) as Hinv. rewrite (log_at_lookup _ _ _ Hp).
  destruct p as [cp|cp fds l|st l|f l]; cbn [proc_inv log_of] in *; [|  |done|done].
  - by destruct (Hs cp).
  - destruct Hinv as (_ & _ & Hseed & _). by apply Hseed.
Qed.

(** From then on the file of vertex 1 either begins with the line of the
    first reception, or is empty with the token 1 waiting in its pipe. *)
Lemma first_line_or_token s m :
  inv 1 pipes m s → started s 0 →
  (∃ rest, log_at s 1 = LogFirst 2 :: rest)
  ∨ (log_at s 1 = [] ∧ queues s = single_token 1 (length pipes) 1 0 1).
Proof.
  intros Hinv Hs. destruct (seeded_log s m Hinv Hs) as [rest0 Hlog0].
  destruct Hinv as (Hprocs & Hpi & Hq). change (2 ^ 1) with 2 in Hprocs.
  destruct Hq as [[_ Hlogs]|(d & j & t & Hd & Hj & Ht & Hqs & _ & Hl & Hd0 & Hfirst)].
  { by rewrite Hlogs in Hlog0. }
  destruct Hfirst as [->|(w & rest & Hw0 & Hw)].
  - right. assert (d = 1) as -> by (specialize (Hd0 eq_refl); lia).
    assert (j = 0) as -> by lia. split; [|done].
    destruct (Hl 1%nat) as (_ & _ & Hle & Htwo). unfold tokens_at in Hle, Htwo.
    destruct (log_at s 1) as [|x rest]; [done|].
    assert (Hin : logged_token x ∈ logged_token <$> x :: rest) by (cbn; left).
    specialize (Hle eq_refl _ Hin). specialize (Htwo ltac:(done) _ Hin). lia.
  - left. assert (w = 1%nat) as ->.
    { unfold log_at in Hw. destruct (procs s !! w) as [p|] eqn:Hp; [|done].
      apply lookup_lt_Some in Hp. lia. }
    by exists rest.
Qed.

(** A run of vertex 1 while the token 1 waits in its pipe writes its first
    line. *)
Lemma step_first_reception e s m cp fds l :
  inv 1 pipes m s → ev_vertex e = 1%nat →
  procs s !! 1%nat = Some (Waiting cp fds l) →
  queues s = single_token 1 (length pipes) 1 0 1 →
  log_at (step 1 pipes e s) 1 = file l ++ [arrival_line (start l) (ev_now e) 2].
Proof.
  intros Hinv Hv Hp Hqs. pose proof Hinv as (_ & Hpi & _).
  pose proof (Hpi _ _ Hp) as (Hw & Hfds & _).
  destruct (loop_body_single 1 pipes one_cube_dim ltac:(lia) Hlen Hnd 1 cp fds l
              (ev_now e) (ev_rand e) 0 1)
    as (Hsel & nfds & fds' & Hrun & _); [lia|lia|done|done| |].
  { unfold Int.in_range, Int.INT_MIN, Int.INT_MAX. lia. }
  unfold step. rewrite Hv, Hp, Hqs. rewrite decide_False by done. rewrite Hrun.
  unfold log_at. cbn [procs fst snd resume].
  rewrite list_lookup_insert_eq by (by apply lookup_lt_Some in Hp). done.
Qed.

Lemma pending_runs_step e s m :
  inv 1 pipes m s → m < Int.INT_MAX → ev_fopen e = true → started s 0 →
  (pending_runs (step 1 pipes e s) + (if decide (ev_vertex e = 1%nat) then 1 else 0)
   ≤ Nat.max (pending_runs s) (if decide (ev_vertex e = 1%nat) then 1 else 0))%nat.
Proof.
  intros Hinv Hm Hf Hs.
  destruct (decide (ev_vertex e = 1%nat)) as [Hv|Hv].
  - pose proof Hinv as (Hprocs & Hpi & _). change (2 ^ 1) with 2 in Hprocs.
    destruct (lookup_lt_is_Some_2 (procs s) 1) as [p Hp]; [lia|].
    pose proof (Hpi _ _ Hp) as Hproc.
    destruct p as [cp|cp fds l|st l|f l]; cbn [proc_inv] in Hproc; [| |done|done].
    + pose proof (step_started_self 1 pipes e s) as Hst. rewrite Hv in Hst.
      unfold pending_runs at 2. rewrite (log_at_lookup _ _ _ Hp), Hp. cbn [log_of].
      unfold pending_runs. destruct (log_at (step 1 pipes e s) 1); [|lia].
      destruct (procs (step 1 pipes e s) !! 1%nat) as [[cp'| | |]|] eqn:Hp'; try lia.
      by destruct (Hst cp').
    + destruct (first_line_or_token s m Hinv Hs) as [[rest Hlog]|[Hlog Hqs]].
      * destruct (step_cases 1 pipes one_cube_dim ltac:(lia) Hlen Hnd e s m Hinv Hm Hf)
          as [->|cp' fds' Hp' _ _ ->|cp' fds' k Hp' _ _ _ _ ->
              |cp' fds0 fds' l' j t k Hp' _ _ _ _ ->].
        -- unfold pending_runs. rewrite Hlog. lia.
        -- rewrite Hv, Hp in Hp'. discriminate.
        -- rewrite Hv, Hp in Hp'. discriminate.
        -- rewrite Hv, Hp in Hp'. injection Hp' as <- <- <-.
           unfold pending_runs at 1. rewrite Hv.
           rewrite log_at_upd_eq by (by apply lookup_lt_Some in Hp). cbn [log_of file].
           rewrite (log_at_lookup _ _ _ Hp) in Hlog. cbn [log_of] in Hlog.
           rewrite Hlog. cbn. lia.
      * unfold pending_runs at 1.
        rewrite (step_first_reception e s m cp fds l Hinv Hv Hp Hqs).
        destruct (file l); cbn; lia.
  - assert (Heq : pending_runs (step 1 pipes e s) = pending_runs s).
    { unfold pending_runs, log_at. by rewrite (step_other 1 pipes e s 1 Hv). }
    lia.
Qed.

Lemma pending_runs_run es : ∀ s m,
  0 ≤ m → m + Z.of_nat (length es) ≤ Int.INT_MAX → forallb ev_fopen es = true →
  inv 1 pipes m s → started s 0 →
  (pending_runs (run 1 pipes es s) + runs_of 1 es ≤ Nat.max (pending_runs s) (runs_of 1 es))%nat.
Proof.
  unfold run. induction es as [|e es IH]; intros s m Hm0 Hm Hf Hinv Hs; cbn [foldl].
  - unfold runs_of. cbn. lia.
  - cbn [length] in Hm. cbn [forallb] in Hf. apply andb_true_iff in Hf as [Hfe Hf].
    pose proof (pending_runs_step e s m Hinv ltac:(lia) Hfe Hs) as Hstep.
    specialize (IH (step 1 pipes e s) (m + 1) ltac:(lia) ltac:(lia) Hf).
    assert (Hinv' : inv 1 pipes (m + 1) (step 1 pipes e s)).
    { apply (inv_step 1 pipes one_cube_dim ltac:(lia) Hlen Hnd); [done|lia|done|done]. }
    specialize (IH Hinv' (step_started 1 pipes e s 0 Hs)).
    unfold runs_of in *. rewrite filter_cons.
    destruct (decide (ev_vertex e = 1%nat)); cbn [length] in *; lia.
Qed.

End one_cube.

Lemma starts_with_first line rest :
  starts_with (render line) (file_contents (line :: rest)).
Proof. exists (file_contents rest). by rewrite file_contents_cons. Qed.

(** C8, as the code has it: in every run of the 1-cube in which no [fopen]
    fails, and as long as the token has not reached [INT_MAX]. Nothing is
    written to any file before vertex 0 runs. As soon as vertex 0 has run once
    it has seeded the token with 1, and its file starts with the line
    ["token: 1"] from then on. The file of vertex 1 is empty or starts with
    the line ["first received token: 2"]; and once vertex 1 has run twice
    after the seeding (once to enter [passToken], once when [select] wakes it)
    it has received the token and incremented it to 2, and its file starts
    with that line. *)
Theorem one_cube_first_lines limit open0 pipes s0 es1 e0 es2 :
  boot limit open0 1 = Ret (pipes, s0) →
  Z.of_nat (length (es1 ++ e0 :: es2)) ≤ Int.INT_MAX →
  forallb ev_fopen (es1 ++ e0 :: es2) = true →
  ev_vertex e0 = 0%nat →
  ((∀ e, e ∈ es1 → ev_vertex e ≠ 0%nat) → ∀ v, log_at (run 1 pipes es1 s0) v = [])
  ∧ (∃ rest, log_at (run 1 pipes (es1 ++ e0 :: es2) s0) 0 = LogSeed 1 :: rest
       ∧ starts_with ("token: 1" +:+ LF)
           (file_contents (log_at (run 1 pipes (es1 ++ e0 :: es2) s0) 0)))
  ∧ (log_at (run 1 pipes (es1 ++ e0 :: es2) s0) 1 = []
     ∨ ∃ rest, log_at (run 1 pipes (es1 ++ e0 :: es2) s0) 1 = LogFirst 2 :: rest
         ∧ starts_with ("first received token: 2" +:+ LF)
             (file_contents (log_at (run 1 pipes (es1 ++ e0 :: es2) s0) 1)))
  ∧ ((2 ≤ runs_of 1 es2)%nat →
     ∃ rest, log_at (run 1 pipes (es1 ++ e0 :: es2) s0) 1 = LogFirst 2 :: rest
       ∧ starts_with ("first received token: 2" +:+ LF)
           (file_contents (log_at (run 1 pipes (es1 ++ e0 :: es2) s0) 1))).
Proof.
  intros Hboot Hes Hf Hv0. assert (Hd : dim_ok 1) by (unfold dim_ok; lia).
  destruct (boot_inv _ _ _ _ _ Hd Hboot) as (Hlen & Hnd & Hinv0).
  rewrite length_app in Hes. cbn [length] in Hes.
  rewrite forallb_app in Hf. apply andb_true_iff in Hf as [Hf1 Hf].
  cbn [forallb] in Hf. apply andb_true_iff in Hf as [Hf0 Hf2].
  assert (Hinv1 : inv 1 pipes (0 + Z.of_nat (length es1)) (run 1 pipes es1 s0)).
  { apply (inv_run 1 pipes Hd ltac:(lia) Hlen Hnd); [lia|lia|done|done]. }
  rewrite Z.add_0_l in Hinv1.
  set (s1 := run 1 pipes es1 s0) in *.
  assert (Hinv2 : inv 1 pipes (Z.of_nat (length es1) + 1) (step 1 pipes e0 s1)).
  { apply (inv_step 1 pipes Hd ltac:(lia) Hlen Hnd); [lia|lia|done|done]. }
  assert (Hs2 : started (step 1 pipes e0 s1) 0).
  { rewrite <- Hv0. apply step_started_self. }
  assert (Hrun : run 1 pipes (es1 ++ e0 :: es2) s0 = run 1 pipes es2 (step 1 pipes e0 s1)).
  { unfold run, s1. by rewrite foldl_app. }
  rewrite Hrun. set (s2 := step 1 pipes e0 s1) in *.
  assert (Hinv : inv 1 pipes (Z.of_nat (length es1) + 1 + Z.of_nat (length es2))
                   (run 1 pipes es2 s2)).
  { apply (inv_run 1 pipes Hd ltac:(lia) Hlen Hnd); [lia|lia|done|done]. }
  pose proof (run_started 1 pipes es2 s2 0 Hs2) as Hs.
  assert (Hline : ∀ rest, log_at (run 1 pipes es2 s2) 1 = LogFirst 2 :: rest →
            ∃ rest, log_at (run 1 pipes es2 s2) 1 = LogFirst 2 :: rest
              ∧ starts_with ("first received token: 2" +:+ LF)
                  (file_contents (log_at (run 1 pipes es2 s2) 1))).
  { intros rest Hlog. exists rest. split; [done|]. rewrite Hlog.
    apply (starts_with_first (LogFirst 2)). }
  split; [|split; [|split]].
  - intros Hno v.
    assert (Hp0 : procs s1 !! 0%nat = procs s0 !! 0%nat) by (by apply run_others).
    destruct Hinv1 as (_ & _ & [[_ Hlogs]|(d & j & t & _ & _ & _ & _ & Hnf & _)]); [done|].
    destruct Hinv0 as (Hprocs0 & Hpi0 & Hq0).
    destruct (lookup_lt_is_Some_2 (procs s0) 0) as [p Hp];
      [change (2 ^ 1) with 2 in Hprocs0; lia|].
    destruct Hq0 as [[_ Hlogs0]|(d0 & j0 & t0 & _ & _ & Ht0 & _)]; [|lia].
    pose proof (Hpi0 _ _ Hp) as Hproc. pose proof (Hlogs0 0%nat) as Hl0.
    rewrite (log_at_lookup _ _ _ Hp) in Hl0.
    destruct p as [cp|cp fds l|st l|f l]; cbn [proc_inv log_of] in *; [| |done|done].
    + rewrite Hp in Hp0. by destruct (Hnf cp).
    + destruct Hproc as (_ & _ & Hseed & _). destruct (Hseed eq_refl) as [rest Hrest].
      by rewrite Hrest in Hl0.
  - destruct (seeded_log pipes _ _ Hinv Hs) as [rest Hlog]. exists rest.
    split; [done|]. rewrite Hlog. apply (starts_with_first (LogSeed 1)).
  - destruct (first_line_or_token pipes _ _ Hinv Hs) as [[rest Hlog]|[Hlog _]];
      [right; by apply (Hline rest)|by left].
  - intros Htwice.
    pose proof (pending_runs_run pipes Hlen Hnd es2 s2 (Z.of_nat (length es1) + 1)
                  ltac:(lia) ltac:(lia) Hf2 Hinv2 Hs2)
      as Hpend.
    pose proof (pending_runs_le s2) as Hle.
    assert (Hzero : pending_runs (run 1 pipes es2 s2) = 0%nat) by lia.
    destruct (first_line_or_token pipes _ _ Hinv Hs) as [[rest Hlog]|[Hlog _]];
      [by apply (Hline rest)|].
    unfold pending_runs in Hzero. rewrite Hlog in Hzero.
    by destruct (procs (run 1 pipes es2 s2) !! 1%nat) as [[| | |]|].
Qed.

Lemma one_cube_first_lines_witness :
  let pipes := [(3, 4); (5, 6)] in
  let s0 := {| procs := [Forked [3; 6]; Forked [5; 4]]; queues := [[]; []] |} in
  let es := [] ++ runs 0 :: [runs 1; runs 1] in
  ((∀ e, e ∈ [] → ev_vertex e ≠ 0%nat) → ∀ v, log_at (run 1 pipes [] s0) v = [])
  ∧ (∃ rest, log_at (run 1 pipes es s0) 0 = LogSeed 1 :: rest
       ∧ starts_with ("token: 1" +:+ LF) (file_contents (log_at (run 1 pipes es s0) 0)))
  ∧ (log_at (run 1 pipes es s0) 1 = []
     ∨ ∃ rest, log_at (run 1 pipes es s0) 1 = LogFirst 2 :: rest
         ∧ starts_with ("first received token: 2" +:+ LF)
             (file_contents (log_at (run 1 pipes es s0) 1)))
  ∧ ((2 ≤ runs_of 1 [runs 1; runs 1])%nat →
     ∃ rest, log_at (run 1 pipes es s0) 1 = LogFirst 2 :: rest
       ∧ starts_with ("first received token: 2" +:+ LF)
           (file_contents (log_at (run 1 pipes es s0) 1))).
Proof.
  intros pipes s0 es.
  apply (one_cube_first_lines 64 {[0; 1; 2]} pipes s0 [] (runs 0) [runs 1; runs 1]);
    [vm_compute; reflexivity|vm_compute; discriminate|reflexivity|reflexivity].
Defined.

(** The run "vertex 0 starts, vertex 1 starts, vertex 1 receives" of the
    1-cube, evaluated: the two files. *)
Example one_cube_files :
  let pipes := [(3, 4); (5, 6)] in
  let s0 := {| procs := [Forked [3; 6]; Forked [5; 4]]; queues := [[]; []] |} in
  let s := run 1 pipes [runs 0; runs 1; runs 1] s0 in
  file_contents (log_at s 0) = "token: 1" +:+ LF
  ∧ file_contents (log_at s 1) = "first received token: 2" +:+ LF
  ∧ queues s = [[2]; []].
Proof. by vm_compute. Qed.

(** C8 as the specification words it fails on that run: the file of vertex 0
    does not start with ["seed: 1"] and the file of vertex 1 does not start
    with ["first received: 2"]. *)
Lemma one_cube_first_lines_counterexample :
  let pipes := [(3, 4); (5, 6)] in
  let s0 := {| procs := [Forked [3; 6]; Forked [5; 4]]; queues := [[]; []] |} in
  let s := run 1 pipes [runs 0; runs 1; runs 1] s0 in
  boot 64 {[0; 1; 2]} 1 = Ret (pipes, s0)
  ∧ tokens_at s 0 = [1] ∧ tokens_at s 1 = [2]
  ∧ ¬ starts_with "seed: 1" (file_contents (log_at s 0))
  ∧ ¬ starts_with "first received: 2" (file_contents (log_at s 1)).
Proof.
  intros pipes s0 s. split_and!.
  - vm_compute. reflexivity.
  - vm_compute. reflexivity.
  - vm_compute. reflexivity.
  - intros [rest H]. vm_compute in H. discriminate.
  - intros [rest H]. vm_compute in H. discriminate.
Qed.

(** ** The binary name of a vertex *)

Lemma land_one num : Z.land num 1 = num `mod` 2.
Proof. change 1 with (Z.ones 1). rewrite Z.land_ones by lia. done. Qed.

Lemma intToBinary_loop_value c : ∀ num s acc,
  binary_value_from (intToBinary_loop c num s) acc
  = binary_value_from s (acc * 2 ^ Z.of_nat c + num `mod` 2 ^ Z.of_nat c).
Proof.
  induction c as [|c IH]; intros num s acc.
  - simpl. f_equal. rewrite Z.mod_1_r. lia.
  - cbn [intToBinary_loop]. rewrite IH. cbn [binary_value_from]. f_equal.
    rewrite Z.shiftr_div_pow2 by lia. change (2 ^ 1) with 2.
    rewrite land_one.
    replace (Z.of_nat (S c)) with (Z.of_nat c + 1) by lia.
    rewrite Z.pow_add_r by lia. change (2 ^ 1) with 2.
    assert (Hbit : (if bool_decide
                         ((if bool_decide (num `mod` 2 ≠ 0) then "1"%char else "0"%char)
                          = "1"%char) then 1 else 0) = num `mod` 2).
    { pose proof (Z.mod_pos_bound num 2).
      destruct (decide (num `mod` 2 ≠ 0)) as [Hb|Hb].
      - rewrite (bool_decide_true (num `mod` 2 ≠ 0)) by done.
        rewrite bool_decide_true by done. lia.
      - rewrite (bool_decide_false (num `mod` 2 ≠ 0)) by done.
        rewrite bool_decide_false by done. lia. }
    rewrite Hbit.
    pose proof (Z.pow_pos_nonneg 2 (Z.of_nat c)) as Hpos.
    rewrite (Z.mul_comm (2 ^ Z.of_nat c) 2).
    rewrite (Z.rem_mul_r num 2 (2 ^ Z.of_nat c)) by lia.
    lia.
Qed.

Lemma intToBinary_value num n :
  0 ≤ n → binary_value (intToBinary num n) = num `mod` 2 ^ n.
Proof.
  intros Hn. unfold binary_value, intToBinary. rewrite intToBinary_loop_value.
  cbn [binary_value_from]. rewrite Z2Nat.id by lia. lia.
Qed.

(** X1. [intToBinary(num, n)] writes [n] characters, and read back as a number
    in base 2 they give [num] modulo [2^n]: the name of a vertex is its number
    on [n] binary digits, leading zeros included. *)
Theorem intToBinary_round_trip num n :
  0 ≤ n →
  Z.of_nat (String.length (intToBinary num n)) = n
  ∧ binary_value (intToBinary num n) = num `mod` 2 ^ n.
Proof.
  intros Hn. split; [by apply intToBinary_length|by apply intToBinary_value].
Qed.

Lemma intToBinary_round_trip_witness :
  Z.of_nat (String.length (intToBinary 5 4)) = 4
  ∧ binary_value (intToBinary 5 4) = 5 `mod` 2 ^ 4.
Proof. apply (intToBinary_round_trip 5 4). lia. Defined.

Lemma append_inj_length (s1 s2 t1 t2 : string) :
  String.length s1 = String.length s2 → s1 +:+ t1 = s2 +:+ t2 → s1 = s2 ∧ t1 = t2.
Proof.
  revert s2. induction s1 as [|c s1 IH]; intros [|d s2] Hlen Heq; try done.
  simpl in Hlen, Heq. injection Heq as -> Heq.
  destruct (IH s2) as [-> ->]; [lia|done|done].
Qed.

(** X2. Two different vertices of the [n]-cube write to two different files:
    their names differ, in the binary digits of the vertex. *)
Theorem filename_distinct n v w :
  0 ≤ n → 0 ≤ v < 2 ^ n → 0 ≤ w < 2 ^ n → v ≠ w →
  intToBinary v n ≠ intToBinary w n ∧ filename v n ≠ filename w n.
Proof.
  intros Hn Hv Hw Hne.
  assert (Hb : intToBinary v n ≠ intToBinary w n).
  { intros Heq.
    pose proof (intToBinary_value v n Hn) as Hv'.
    pose proof (intToBinary_value w n Hn) as Hw'.
    rewrite Heq, Hw' in Hv'.
    rewrite (Z.mod_small v), (Z.mod_small w) in Hv' by lia. by apply Hne. }
  split; [exact Hb|]. intros Heq. apply Hb. unfold filename in Heq.
  apply append_inj_length in Heq as [_ Heq]; [|done].
  apply append_inj_length in Heq as [_ Heq]; [|done].
  apply append_inj_length in Heq as [Heq _]; [done|].
  apply Nat2Z.inj. by rewrite !intToBinary_length.
Qed.

Lemma filename_distinct_witness :
  intToBinary 2 3 ≠ intToBinary 5 3 ∧ filename 2 3 ≠ filename 5 3.
Proof. apply (filename_distinct 3 2 5); lia. Defined.

(** ** The descriptor table across [createPipes] and the closing loops *)

Lemma size_below limit (open : gset Z) :
  0 ≤ limit → (∀ fd, fd ∈ open → 0 ≤ fd < limit) → Z.of_nat (size open) ≤ limit.
Proof.
  intros Hl Hb.
  assert (Hsub : open ⊆ list_to_set (seqZ 0 limit)).
  { intros fd Hfd. apply elem_of_list_to_set, elem_of_seqZ. specialize (Hb fd Hfd). lia. }
  apply subseteq_size in Hsub.
  rewrite size_list_to_set, length_seqZ in Hsub by apply NoDup_seqZ. lia.
Qed.

Lemma pipe_loop_exhausted limit c : ∀ open,
  0 ≤ limit → (∀ fd, fd ∈ open → 0 ≤ fd < limit) →
  limit < Z.of_nat (size open) + 2 * Z.of_nat c →
  pipe_loop c limit open = Exit EXIT_FAILURE.
Proof.
  induction c as [|c IH]; intros open Hl Hb Hroom.
  - pose proof (size_below limit open Hl Hb). lia.
  - cbn [pipe_loop]. destruct (sys_pipe limit open) as [[[r w] open']|] eqn:Hp; [|done].
    apply sys_pipe_Some in Hp as (Hr & Hw & Hrw & -> & Hrl & Hwl).
    rewrite IH; [done|done| |].
    + intros fd Hfd. apply elem_of_union in Hfd as [Hfd|Hfd];
        [apply elem_of_singleton in Hfd; lia|].
      apply elem_of_union in Hfd as [Hfd|Hfd]; [apply elem_of_singleton in Hfd; lia|].
      by apply Hb.
    + rewrite !size_union, !size_singleton by set_solver. lia.
Qed.

(** X3. [createPipes] for a dimension from 0 to 26, called with a descriptor
    table that lies below the limit: it ends the program with
    [exit(EXIT_FAILURE)] exactly when the limit leaves no room for the
    [2 * n * 2^n] descriptors of the table, and returns otherwise. *)
Theorem createPipes_exits_iff_no_room limit open0 n :
  0 ≤ n ≤ 26 → 0 ≤ limit → (∀ fd, fd ∈ open0 → 0 ≤ fd < limit) →
  (createPipes limit open0 n = Exit EXIT_FAILURE
   ↔ limit < Z.of_nat (size open0) + 2 * (n * 2 ^ n))
  ∧ ((∃ nb pipes open, createPipes limit open0 n = Ret (nb, pipes, open))
     ↔ Z.of_nat (size open0) + 2 * (n * 2 ^ n) ≤ limit).
Proof.
  intros Hn Hl Hb. assert (Hd : dim_ok n) by done.
  pose proof (dim_ok_pow n Hd) as Hpow.
  assert (Hfail : limit < Z.of_nat (size open0) + 2 * (n * 2 ^ n) →
                  createPipes limit open0 n = Exit EXIT_FAILURE).
  { intros Hroom. unfold createPipes. rewrite (nbPipes_of_ok n Hd).
    rewrite pipe_loop_exhausted; [done|done|done|]. nia. }
  split; split.
  - intros Hex. destruct (decide (limit < Z.of_nat (size open0) + 2 * (n * 2 ^ n)));
      [done|].
    destruct (createPipes_success limit open0 n Hd) as (nb & ps & o & Hr); [lia|].
    rewrite Hr in Hex. done.
  - exact Hfail.
  - intros (nb & ps & o & Hr).
    destruct (decide (limit < Z.of_nat (size open0) + 2 * (n * 2 ^ n))) as [Hlt|]; [|lia].
    rewrite (Hfail Hlt) in Hr. done.
  - by apply createPipes_success.
Qed.

Lemma createPipes_exits_iff_no_room_witness :
  (createPipes 10 {[0; 1; 2]} 2 = Exit EXIT_FAILURE
   ↔ 10 < Z.of_nat (size ({[0; 1; 2]} : gset Z)) + 2 * (2 * 2 ^ 2))
  ∧ ((∃ nb pipes open, createPipes 10 {[0; 1; 2]} 2 = Ret (nb, pipes, open))
     ↔ Z.of_nat (size ({[0; 1; 2]} : gset Z)) + 2 * (2 * 2 ^ 2) ≤ 10).
Proof.
  apply (createPipes_exits_iff_no_room 10 {[0; 1; 2]} 2); [lia|lia|].
  intros fd Hfd. apply elem_of_union in Hfd as [Hfd|Hfd];
    [apply elem_of_union in Hfd as [Hfd|Hfd]|]; apply elem_of_singleton in Hfd; lia.
Defined.

(** X4. The descriptors of the table [createPipes] builds are new ones, below
    the limit, and the table of the process afterwards is the one it had plus
    the descriptors of the table: [createPipes] closes nothing and opens
    nothing else. *)
Theorem createPipes_descriptors_fresh limit open0 n nb pipes open :
  createPipes limit open0 n = Ret (nb, pipes, open) →
  (∀ fd, fd ∈ table_fds pipes → (fd ∉ open0) ∧ 0 ≤ fd < limit)
  ∧ open = list_to_set (table_fds pipes) ∪ open0
  ∧ size open = (size open0 + 2 * length pipes)%nat.
Proof.
  unfold createPipes.
  destruct (pipe_loop _ limit open0) as [[ps open1]| |] eqn:Hl; try done.
  cbn [mbind res_bind]. intros [= <- <- <-].
  apply pipe_loop_Ret in Hl as (Hlen & Hnd & Hfresh & ->).
  split_and!; [done|done|].
  rewrite size_union by (intros fd Hfd; apply elem_of_list_to_set in Hfd;
                         by apply Hfresh).
  rewrite size_list_to_set by done.
  assert (Hfds : ∀ l : list pipe_t, length (table_fds l) = (2 * length l)%nat).
  { induction l as [|p l IH]; [done|]. unfold table_fds in *. cbn. rewrite IH. lia. }
  rewrite Hfds. lia.
Qed.

Lemma createPipes_descriptors_fresh_witness :
  let open0 : gset Z := {[0; 1; 2]} in
  let open : gset Z := {[3; 4; 5; 6; 0; 1; 2]} in
  (∀ fd, fd ∈ table_fds [(3, 4); (5, 6)] → (fd ∉ open0) ∧ 0 ≤ fd < 16)
  ∧ open = list_to_set (table_fds [(3, 4); (5, 6)]) ∪ open0
  ∧ size open = (size open0 + 2 * 2)%nat.
Proof.
  intros open0 open.
  apply (createPipes_descriptors_fresh 16 open0 1 2 [(3, 4); (5, 6)] open).
  vm_compute. reflexivity.
Defined.

Lemma table_fds_cons p (l : list pipe_t) : table_fds (p :: l) = rd p :: wr p :: table_fds l.
Proof. done. Qed.

Lemma close_pipes_loop_spec pipes c : ∀ i open,
  Z.of_nat (length pipes) < Int.INT_MAX →
  0 ≤ i → i + Z.of_nat c = Z.of_nat (length pipes) →
  close_pipes_loop c i pipes open
  = Ret (open ∖ list_to_set (table_fds (drop (Z.to_nat i) pipes))).
Proof.
  induction c as [|c IH]; intros i open Hmax Hi Hc.
  - cbn [close_pipes_loop]. rewrite drop_ge by lia. f_equal. set_solver.
  - cbn [close_pipes_loop].
    destruct (lookup_lt_is_Some_2 pipes (Z.to_nat i)) as [p Hp]; [lia|].
    rewrite (aget_Ret _ _ _ Hi Hp). cbn [mbind res_bind].
    assert (E : Int.add i 1 = i + 1).
    { unfold Int.add. apply wrap_id.
      unfold Int.in_range, Int.INT_MIN, Int.INT_MAX in *. lia. }
    rewrite E, IH by lia.
    rewrite (drop_S _ _ _ Hp). replace (Z.to_nat (i + 1)) with (S (Z.to_nat i)) by lia.
    rewrite table_fds_cons. f_equal. unfold sys_close. set_solver.
Qed.

(** X5. In the parent, the loop that closes both ends of every pipe undoes
    [createPipes]: after it the descriptor table of the parent is the one
    [main] started with, so the parent keeps no end of any pipe open. *)
Theorem parent_close_pipes_restores limit open0 n nb pipes open :
  0 ≤ n ≤ 26 →
  createPipes limit open0 n = Ret (nb, pipes, open) →
  parent_close_pipes nb pipes open = Ret open0.
Proof.
  intros Hn Hcreate. assert (Hd : dim_ok n) by done.
  destruct (createPipes_Ret _ _ _ _ _ _ Hd Hcreate) as (-> & Hlen & _ & _).
  revert Hcreate. unfold createPipes.
  destruct (pipe_loop _ limit open0) as [[ps open1]| |] eqn:Hl; try done.
  cbn [mbind res_bind]. intros [= _ <- <-].
  apply pipe_loop_Ret in Hl as (_ & _ & Hfresh & ->).
  pose proof (dim_ok_pow n Hd) as Hpow.
  unfold parent_close_pipes. rewrite close_pipes_loop_spec.
  - change (Z.to_nat 0) with 0%nat. rewrite drop_0. f_equal. apply set_eq. intros fd.
    rewrite elem_of_difference, elem_of_union, elem_of_list_to_set.
    split; [intros [[?|?] ?]; done|].
    intros Hfd. split; [by right|]. intros Ht. by destruct (Hfresh fd Ht).
  - unfold Int.INT_MAX. nia.
  - done.
  - nia.
Qed.

Lemma parent_close_pipes_restores_witness :
  parent_close_pipes 2 [(3, 4); (5, 6)] {[3; 4; 5; 6; 0; 1; 2]} = Ret {[0; 1; 2]}.
Proof.
  apply (parent_close_pipes_restores 16 {[0; 1; 2]} 1 2 [(3, 4); (5, 6)]); [lia|].
  vm_compute. reflexivity.
Defined.

Section child_descriptors.
Context (n : Z) (pipes : list pipe_t).
Hypothesis Hn : dim_ok n.
Hypothesis Hlen : Z.of_nat (length pipes) = 2 ^ n * n.
Hypothesis Hnd : NoDup (table_fds pipes).

Lemma elem_of_table_fds fd :
  fd ∈ table_fds pipes ↔ ∃ p, p ∈ pipes ∧ (fd = rd p ∨ fd = wr p).
Proof.
  unfold table_fds. rewrite list_elem_of_bind. split.
  - intros (p & Hfd & Hp). exists p. split; [done|]. set_solver.
  - intros (p & Hp & Hfd). exists p. split; [|done]. set_solver.
Qed.

Lemma child_setup_other_descriptors v open cp open_v fd :
  0 ≤ v < 2 ^ n →
  child_setup n v pipes open = Ret (cp, open_v) →
  fd ∉ table_fds pipes → fd ∈ open_v ↔ fd ∈ open.
Proof.
  intros Hv Hsetup Hfd. unfold child_setup in Hsetup.
  assert (E : Int.mul n 2 = 2 * n).
  { destruct Hn. unfold Int.mul. rewrite wrap_id; [lia|].
    unfold Int.in_range, Int.INT_MIN, Int.INT_MAX. lia. }
  rewrite E in Hsetup.
  destruct (connect_loop_spec n pipes Hn Hlen Hnd v Hv (Z.to_nat n) 0
              (replicate (Z.to_nat (2 * n)) 0) open)
    as (cp' & open' & Hrun & _ & _ & _ & Hopen');
    [destruct Hn; lia|lia|rewrite length_replicate; destruct Hn; lia|].
  rewrite Hrun in Hsetup. cbn [mbind res_bind] in Hsetup.
  injection Hsetup as <- <-.
  rewrite close_unconnected_spec, Hopen'.
  assert (Hno : ∀ p, p ∈ pipes → fd ≠ rd p ∧ fd ≠ wr p).
  { intros p Hp. split; intros ->; apply Hfd, elem_of_table_fds; exists p; auto. }
  split; [tauto|]. intros Ho. split_and!; [done| |by intros p Hp _; apply Hno].
  intros k Hk. split.
  - apply Hno, (chan_elem n pipes Hlen), (own_idx_range n Hn v k); done.
  - apply Hno, (chan_elem n pipes Hlen), (nb_idx_range n Hn v k); done.
Qed.

End child_descriptors.

Lemma createPipes_table limit open0 n nb pipes open :
  createPipes limit open0 n = Ret (nb, pipes, open) →
  (∀ fd, fd ∈ table_fds pipes → fd ∉ open0)
  ∧ open = list_to_set (table_fds pipes) ∪ open0.
Proof.
  unfold createPipes.
  destruct (pipe_loop _ limit open0) as [[ps open1]| |] eqn:Hl; try done.
  cbn [mbind res_bind]. intros [= <- <- <-].
  apply pipe_loop_Ret in Hl as (_ & _ & Hfresh & ->).
  split; [|done]. intros fd Hfd. by destruct (Hfresh fd Hfd).
Qed.

Lemma createPipes_below limit open0 n nb pipes open fd :
  createPipes limit open0 n = Ret (nb, pipes, open) →
  fd ∈ table_fds pipes → 0 ≤ fd < limit.
Proof.
  unfold createPipes.
  destruct (pipe_loop _ limit open0) as [[ps open1]| |] eqn:Hl; try done.
  cbn [mbind res_bind]. intros [= <- <- <-] Hfd.
  apply pipe_loop_Ret in Hl as (_ & _ & Hfresh & _). by destruct (Hfresh fd Hfd).
Qed.

Lemma close_connected_loop_spec (cp : list Z) c : ∀ j open,
  Z.of_nat (length cp) < Int.INT_MAX →
  0 ≤ j → j + Z.of_nat c = Z.of_nat (length cp) →
  close_connected_loop c j cp open = Ret (open ∖ list_to_set (drop (Z.to_nat j) cp)).
Proof.
  induction c as [|c IH]; intros j open Hmax Hj Hc.
  - cbn [close_connected_loop]. rewrite drop_ge by lia. f_equal. set_solver.
  - cbn [close_connected_loop].
    destruct (lookup_lt_is_Some_2 cp (Z.to_nat j)) as [fd Hfd]; [lia|].
    rewrite (aget_Ret _ _ _ Hj Hfd). cbn [mbind res_bind].
    assert (E : Int.add j 1 = j + 1).
    { unfold Int.add. apply wrap_id.
      unfold Int.in_range, Int.INT_MIN, Int.INT_MAX in *. lia. }
    rewrite E, IH by lia.
    rewrite (drop_S _ _ _ Hfd). replace (Z.to_nat (j + 1)) with (S (Z.to_nat j)) by lia.
    f_equal. unfold sys_close. set_solver.
Qed.

(** X6. A child that returns from [passToken] closes the [2 * n] descriptors
    of [connectedPipes]; together with what it closed when it was wired, it
    has then closed every descriptor of the pipe table and no other: its
    descriptor table is the one [main] started with. *)
Theorem child_close_connected_leaves_no_pipe limit open0 n nb pipes open v cp open_v :
  0 ≤ n ≤ 26 →
  createPipes limit open0 n = Ret (nb, pipes, open) →
  0 ≤ v < 2 ^ n →
  child_setup n v pipes open = Ret (cp, open_v) →
  child_close_connected n cp open_v = Ret open0
  ∧ ∀ fd, fd ∈ table_fds pipes → fd ∉ open0.
Proof.
  intros Hn Hcreate Hv Hsetup. assert (Hd : dim_ok n) by done.
  destruct (createPipes_Ret _ _ _ _ _ _ Hd Hcreate) as (_ & Hlen & Hnd & Hin).
  destruct (createPipes_table _ _ _ _ _ _ Hcreate) as [Hfresh Hopen].
  split; [|exact Hfresh].
  destruct (child_setup_spec n pipes Hd Hlen Hnd v open Hv)
    as (cp' & open_v' & Hrun & Hcplen & _ & Hcp & Htable); [intros; by apply Hin|].
  rewrite Hsetup in Hrun. injection Hrun as <- <-.
  unfold child_close_connected.
  assert (E : Int.mul n 2 = 2 * n).
  { unfold Int.mul. rewrite wrap_id; [lia|].
    unfold Int.in_range, Int.INT_MIN, Int.INT_MAX. lia. }
  rewrite E, close_connected_loop_spec; [|unfold Int.INT_MAX; lia|done|lia].
  change (Z.to_nat 0) with 0%nat. rewrite drop_0. f_equal. apply set_eq. intros fd.
  rewrite elem_of_difference, elem_of_list_to_set.
  destruct (decide (fd ∈ table_fds pipes)) as [Ht|Ht].
  - rewrite (Htable fd Ht). split; [tauto|]. intros Hfd. by destruct (Hfresh fd Ht).
  - rewrite (child_setup_other_descriptors n pipes Hd Hlen Hnd v open cp open_v fd Hv Hsetup Ht).
    rewrite Hopen, elem_of_union, elem_of_list_to_set.
    assert (Hnot : fd ∉ cp).
    { intros Hfd. apply Ht. apply Hcp in Hfd as (k & Hk & [->| ->]).
      - apply (table_fds_lookup pipes (Z.to_nat (own_idx n v k))),
          (chan_lookup n pipes Hlen), (own_idx_range n Hd v k); done.
      - apply (table_fds_lookup pipes (Z.to_nat (nb_idx n v k))),
          (chan_lookup n pipes Hlen), (nb_idx_range n Hd v k); done. }
    tauto.
Qed.

Lemma child_close_connected_leaves_no_pipe_witness :
  let open0 : gset Z := {[0; 1; 2]} in
  child_close_connected 1 [3; 6] {[3; 6; 0; 1; 2]} = Ret open0
  ∧ ∀ fd, fd ∈ table_fds [(3, 4); (5, 6)] → fd ∉ open0.
Proof.
  intros open0.
  apply (child_close_connected_leaves_no_pipe 16 open0 1 2 [(3, 4); (5, 6)]
           {[3; 4; 5; 6; 0; 1; 2]} 0 [3; 6] {[3; 6; 0; 1; 2]});
    [lia|vm_compute; reflexivity|lia|vm_compute; reflexivity].
Defined.

(** ** The edges of the hypercube *)

Lemma neighbour_testbit v j k :
  0 ≤ j → 0 ≤ k →
  Z.testbit (Z.lxor v (2 ^ j)) k
  = if bool_decide (k = j) then negb (Z.testbit v j) else Z.testbit v k.
Proof.
  intros Hj Hk. rewrite Z.lxor_spec, Z.pow2_bits_eqb by done.
  case_bool_decide as Hkj.
  - subst k. rewrite Z.eqb_refl. by destruct (Z.testbit v j).
  - rewrite (proj2 (Z.eqb_neq j k)) by lia. by destruct (Z.testbit v k).
Qed.

Lemma neighbour_involutive v j : Z.lxor (Z.lxor v (2 ^ j)) (2 ^ j) = v.
Proof. by rewrite Z.lxor_assoc, Z.lxor_nilpotent, Z.lxor_0_r. Qed.

(** X7. The neighbours [i ^ (1 << j)] of a vertex of the [n]-cube, for [n] up
    to 26: each is a vertex of the cube other than [i], it differs from [i] in
    the binary digit [j] and in no other, the neighbour of the neighbour
    across the same dimension is [i] again, and the neighbours across two
    different dimensions are two different vertices. *)
Theorem neighbour_of_adjacency n i j :
  0 ≤ n ≤ 26 → 0 ≤ i < 2 ^ n → 0 ≤ j < n →
  0 ≤ neighbour_of i j < 2 ^ n
  ∧ neighbour_of i j ≠ i
  ∧ neighbour_of (neighbour_of i j) j = i
  ∧ (∀ k, 0 ≤ k →
       Z.testbit (neighbour_of i j) k
       = if bool_decide (k = j) then negb (Z.testbit i j) else Z.testbit i k)
  ∧ (∀ k, 0 ≤ k < n → k ≠ j → neighbour_of i k ≠ neighbour_of i j).
Proof.
  intros Hn Hi Hj. assert (Hd : dim_ok n) by done.
  destruct (neighbour_of_ok n i j Hd Hi Hj) as [E Hr]. rewrite E.
  split; [exact Hr|]. split; [apply neighbour_ne; lia|]. split; [|split].
  - destruct (neighbour_of_ok n _ j Hd Hr Hj) as [-> _]. apply neighbour_involutive.
  - intros k Hk. apply neighbour_testbit; lia.
  - intros k Hk Hkj. destruct (neighbour_of_ok n i k Hd Hi Hk) as [-> _].
    intros Heq. apply (f_equal (λ z, Z.testbit z j)) in Heq.
    rewrite !neighbour_testbit in Heq by lia.
    rewrite bool_decide_false, bool_decide_true in Heq by done.
    by destruct (Z.testbit i j).
Qed.

Lemma neighbour_of_adjacency_witness :
  0 ≤ neighbour_of 5 1 < 2 ^ 3
  ∧ neighbour_of 5 1 ≠ 5
  ∧ neighbour_of (neighbour_of 5 1) 1 = 5
  ∧ (∀ k, 0 ≤ k →
       Z.testbit (neighbour_of 5 1) k
       = if bool_decide (k = 1) then negb (Z.testbit 5 1) else Z.testbit 5 k)
  ∧ (∀ k, 0 ≤ k < 3 → k ≠ 1 → neighbour_of 5 k ≠ neighbour_of 5 1).
Proof. apply (neighbour_of_adjacency 3 5 1); lia. Defined.

Lemma recv_fd_wired n pipes v cp j :
  dim_ok n → wired n pipes v cp → 0 ≤ j < n →
  recv_fd cp j = Ret (rd (chan pipes (own_idx n v j))).
Proof. intros Hd Hw Hj. unfold recv_fd. by apply (recv_slot n pipes v cp). Qed.

Lemma send_fd_wired n pipes v cp j :
  dim_ok n → wired n pipes v cp → 0 ≤ j < n →
  send_fd cp j = Ret (wr (chan pipes (nb_idx n v j))).
Proof. intros Hd Hw Hj. unfold send_fd. by apply (send_slot n pipes v cp). Qed.

(** X8. Every edge of the cube is a pair of pipes, one per direction: what
    vertex [v] writes along dimension [j] goes into the pipe its neighbour
    across [j] reads along [j], and what that neighbour writes along [j] goes
    into the pipe [v] reads along [j]; the two pipes are different. *)
Theorem edge_links_neighbours limit open0 n nb pipes open v j cp_v open_v cp_w open_w :
  1 ≤ n ≤ 26 →
  createPipes limit open0 n = Ret (nb, pipes, open) →
  0 ≤ v < 2 ^ n → 0 ≤ j < n →
  child_setup n v pipes open = Ret (cp_v, open_v) →
  child_setup n (neighbour_of v j) pipes open = Ret (cp_w, open_w) →
  ∃ p q,
    pipes !! Z.to_nat (neighbour_of v j * n + j) = Some p
    ∧ pipes !! Z.to_nat (v * n + j) = Some q
    ∧ send_fd cp_v j = Ret (wr p) ∧ recv_fd cp_w j = Ret (rd p)
    ∧ send_fd cp_w j = Ret (wr q) ∧ recv_fd cp_v j = Ret (rd q)
    ∧ rd p ≠ rd q ∧ wr p ≠ wr q.
Proof.
  intros Hn Hcreate Hv Hj Hsv Hsw. assert (Hd : dim_ok n) by (unfold dim_ok; lia).
  destruct (neighbour_of_ok n v j Hd Hv Hj) as [E Hr]. rewrite E in *.
  destruct (setup_wired _ _ _ _ _ _ _ _ _ Hd Hcreate Hv Hsv) as (Hlen & Hnd & Hwv).
  destruct (setup_wired _ _ _ _ _ _ _ _ _ Hd Hcreate Hr Hsw) as (_ & _ & Hww).
  pose proof (own_idx_range n Hd v j Hv Hj) as Ho.
  pose proof (nb_idx_range n Hd v j Hv Hj) as Hb.
  exists (chan pipes (nb_idx n v j)), (chan pipes (own_idx n v j)).
  assert (Hne : nb_idx n v j ≠ own_idx n v j).
  { intros Heq. symmetry in Heq. by apply (own_nb_ne n v j j) in Heq. }
  destruct (chan_inj n pipes Hlen Hnd _ _ Hb Ho) as (Hrd & Hwr & _).
  split_and!.
  - by apply (chan_lookup n pipes Hlen).
  - by apply (chan_lookup n pipes Hlen).
  - by apply send_fd_wired.
  - rewrite (recv_fd_wired n pipes _ cp_w j Hd Hww Hj). by rewrite nb_idx_own.
  - rewrite (send_fd_wired n pipes _ cp_w j Hd Hww Hj).
    unfold nb_idx. rewrite neighbour_involutive. done.
  - by apply recv_fd_wired.
  - intros Heq. by apply Hne, Hrd.
  - intros Heq. by apply Hne, Hwr.
Qed.

Lemma edge_links_neighbours_witness :
  ∃ p q,
    [(3, 4); (5, 6)] !! Z.to_nat (neighbour_of 0 0 * 1 + 0) = Some p
    ∧ [(3, 4); (5, 6)] !! Z.to_nat (0 * 1 + 0) = Some q
    ∧ send_fd [3; 6] 0 = Ret (wr p) ∧ recv_fd [5; 4] 0 = Ret (rd p)
    ∧ send_fd [5; 4] 0 = Ret (wr q) ∧ recv_fd [3; 6] 0 = Ret (rd q)
    ∧ rd p ≠ rd q ∧ wr p ≠ wr q.
Proof.
  apply (edge_links_neighbours 16 {[0; 1; 2]} 1 2 [(3, 4); (5, 6)]
           {[3; 4; 5; 6; 0; 1; 2]} 0 0 [3; 6] {[3; 6; 0; 1; 2]} [5; 4] {[5; 4; 0; 1; 2]});
    [lia|vm_compute; reflexivity|lia|lia|vm_compute; reflexivity|vm_compute; reflexivity].
Defined.

(** X9. Every pipe of the table has exactly one reader and exactly one writer
    among the children: the pipe at index [k] is read, along dimension
    [k mod n], by vertex [k / n] and by no other, and written, along the same
    dimension, by the neighbour of [k / n] across that dimension and by no
    other. *)
Theorem pipe_one_reader_one_writer limit open0 n nb pipes open k p v j cp open_v :
  1 ≤ n ≤ 26 →
  createPipes limit open0 n = Ret (nb, pipes, open) →
  0 ≤ k < n * 2 ^ n → pipes !! Z.to_nat k = Some p →
  0 ≤ v < 2 ^ n → 0 ≤ j < n →
  child_setup n v pipes open = Ret (cp, open_v) →
  (recv_fd cp j = Ret (rd p) ↔ v = k `div` n ∧ j = k `mod` n)
  ∧ (send_fd cp j = Ret (wr p) ↔ v = neighbour_of (k `div` n) (k `mod` n) ∧ j = k `mod` n).
Proof.
  intros Hn Hcreate Hk Hp Hv Hj Hsetup. assert (Hd : dim_ok n) by (unfold dim_ok; lia).
  destruct (setup_wired _ _ _ _ _ _ _ _ _ Hd Hcreate Hv Hsetup) as (Hlen & Hnd & Hw).
  assert (Hk' : 0 ≤ k < 2 ^ n * n) by lia.
  assert (Hpk : p = chan pipes k).
  { rewrite (chan_lookup n pipes Hlen k Hk') in Hp. by injection Hp. }
  pose proof (own_idx_range n Hd v j Hv Hj) as Ho.
  pose proof (nb_idx_range n Hd v j Hv Hj) as Hb.
  assert (Hdiv : ∀ u, u * n + j = k ↔ u = k `div` n ∧ j = k `mod` n).
  { intros u. split.
    - intros <-. split.
      + rewrite Z.div_add_l, Z.div_small by lia. lia.
      + rewrite (Z.add_comm (u * n) j), Z.mod_add, Z.mod_small by lia. done.
    - intros [-> Hjk]. pose proof (Z.div_mod k n). lia. }
  assert (Hq : 0 ≤ k `div` n < 2 ^ n).
  { split; [apply Z.div_pos; lia|]. apply Z.div_lt_upper_bound; lia. }
  assert (Hm : 0 ≤ k `mod` n < n) by (apply Z.mod_pos_bound; lia).
  rewrite (recv_fd_wired n pipes v cp j Hd Hw Hj), (send_fd_wired n pipes v cp j Hd Hw Hj).
  subst p. split.
  - rewrite <- Hdiv. split.
    + intros [= Heq].
      destruct (chan_inj n pipes Hlen Hnd _ _ Ho Hk') as (Hrd & _ & _). by apply Hrd.
    + intros Heq. unfold own_idx. by rewrite Heq.
  - destruct (neighbour_of_ok n _ _ Hd Hq Hm) as [-> _]. split.
    + intros [= Heq].
      destruct (chan_inj n pipes Hlen Hnd _ _ Hb Hk') as (_ & Hwr & _).
      apply Hwr in Heq. unfold nb_idx in Heq. apply Hdiv in Heq as [Heq Hjm]. split; [|done].
      rewrite <- Hjm, <- Heq. by rewrite neighbour_involutive.
    + intros [-> Hjm]. rewrite <- Hjm. f_equal. f_equal. f_equal.
      unfold nb_idx. rewrite neighbour_involutive. by apply Hdiv.
Qed.

Lemma pipe_one_reader_one_writer_witness :
  (recv_fd [5; 4] 0 = Ret (rd (5, 6)) ↔ 1 = 1 `div` 1 ∧ 0 = 1 `mod` 1)
  ∧ (send_fd [5; 4] 0 = Ret (wr (5, 6))
     ↔ 1 = neighbour_of (1 `div` 1) (1 `mod` 1) ∧ 0 = 1 `mod` 1).
Proof.
  apply (pipe_one_reader_one_writer 16 {[0; 1; 2]} 1 2 [(3, 4); (5, 6)]
           {[3; 4; 5; 6; 0; 1; 2]} 1 (5, 6) 1 0 [5; 4] {[5; 4; 0; 1; 2]});
    [lia|vm_compute; reflexivity|lia|reflexivity|lia|lia|vm_compute; reflexivity].
Defined.

(** ** The coordinator over a whole run *)

Lemma shl_one_30 n : 0 ≤ n ≤ 30 → Int.shl 1 n = 2 ^ n.
Proof.
  intros Hn. unfold Int.shl. rewrite Z.shiftl_1_l. apply wrap_id.
  assert (2 ^ n ≤ 2 ^ 30) by (apply Z.pow_le_mono_r; lia).
  pose proof (Z.pow_pos_nonneg 2 n).
  unfold Int.in_range, Int.INT_MIN, Int.INT_MAX. lia.
Qed.

Lemma fork_loop_Ret c : ∀ i forks,
  (∀ k, (i ≤ k < i + c)%nat → forks k ≠ -1) →
  fork_loop c i forks = Ret (forks <$> seq i c).
Proof.
  induction c as [|c IH]; intros i forks Hok; [done|].
  cbn [fork_loop]. rewrite bool_decide_false by (apply Hok; lia).
  rewrite IH by (intros k Hk; apply Hok; lia). done.
Qed.

Lemma fork_loop_Exit c : ∀ i forks k,
  (i ≤ k < i + c)%nat → forks k = -1 → fork_loop c i forks = Exit EXIT_FAILURE.
Proof.
  induction c as [|c IH]; intros i forks k Hk Hfail; [lia|].
  cbn [fork_loop]. case_bool_decide as Hi; [done|].
  assert (Hk' : (S i ≤ k < S i + c)%nat).
  { destruct (decide (k = i)) as [->|]; [done|lia]. }
  by rewrite (IH (S i) forks k Hk' Hfail).
Qed.

(** X10. The parent in [createProcesses(n)], for [n] up to 30: when no call of
    [fork] returns -1 it registers the [2^n] children in [childs], in the
    order they were forked, and the loops of [handler] then reach every one of
    them; as soon as one call of [fork] returns -1 the parent ends with
    [exit(EXIT_FAILURE)]. *)
Theorem createProcesses_parent_registers n forks :
  0 ≤ n ≤ 30 →
  ((∀ k : nat, Z.of_nat k < 2 ^ n → forks k ≠ -1) →
   ∃ st, createProcesses_parent n forks = Ret st
         ∧ nbProcesses st = 2 ^ n
         ∧ childs st = forks <$> seq 0 (Z.to_nat (2 ^ n))
         ∧ ∀ sig, kill_all st sig = (λ pid, (pid, sig)) <$> childs st)
  ∧ (∀ k : nat, Z.of_nat k < 2 ^ n → forks k = -1 →
     createProcesses_parent n forks = Exit EXIT_FAILURE).
Proof.
  intros Hn. unfold createProcesses_parent. rewrite (shl_one_30 n Hn). split.
  - intros Hok. rewrite fork_loop_Ret by (intros k Hk; apply Hok; lia).
    cbn [mbind res_bind]. eexists. split; [reflexivity|]. cbn. split_and!; [done|done|].
    intros sig. unfold kill_all. cbn.
    rewrite take_ge; [done|]. rewrite length_fmap, length_seq. lia.
  - intros k Hk Hfail. by rewrite (fork_loop_Exit _ 0 forks k) by (done || lia).
Qed.

Lemma createProcesses_parent_registers_witness :
  ((∀ k : nat, Z.of_nat k < 2 ^ 1 → 100 + Z.of_nat k ≠ -1) →
   ∃ st, createProcesses_parent 1 (λ k, 100 + Z.of_nat k) = Ret st
         ∧ nbProcesses st = 2 ^ 1
         ∧ childs st = (λ k, 100 + Z.of_nat k) <$> seq 0 (Z.to_nat (2 ^ 1))
         ∧ ∀ sig, kill_all st sig = (λ pid, (pid, sig)) <$> childs st)
  ∧ (∀ k : nat, Z.of_nat k < 2 ^ 1 → 100 + Z.of_nat k = -1 →
     createProcesses_parent 1 (λ k, 100 + Z.of_nat k) = Exit EXIT_FAILURE).
Proof. apply (createProcesses_parent_registers 1 (λ k, 100 + Z.of_nat k)). lia. Defined.

Lemma kill_all_same st st' sig :
  childs st' = childs st → nbProcesses st' = nbProcesses st →
  kill_all st' sig = kill_all st sig.
Proof. intros Hc Hn. unfold kill_all. by rewrite Hc, Hn. Qed.

Lemma deliver_each_toggles st0 k : ∀ st i,
  sa_handler st SIGUSR1 = Handler →
  childs st = childs st0 → nbProcesses st = nbProcesses st0 →
  paused st = Nat.odd i →
  paused (deliver_each (replicate k SIGUSR1) st).1 = Nat.odd (i + k)
  ∧ (deliver_each (replicate k SIGUSR1) st).2
    = mjoin ((λ m : nat, kill_all st0 (if Nat.even m then SIGSTOP else SIGCONT))
             <$> seq i k)
  ∧ childs (deliver_each (replicate k SIGUSR1) st).1 = childs st0
  ∧ nbProcesses (deliver_each (replicate k SIGUSR1) st).1 = nbProcesses st0
  ∧ terminated (deliver_each (replicate k SIGUSR1) st).1 = terminated st.
Proof.
  induction k as [|k IH]; intros st i Hh Hc Hn Hp.
  - cbn. by rewrite Nat.add_0_r.
  - cbn [replicate deliver_each fst snd].
    assert (Hd : deliver SIGUSR1 st = handler SIGUSR1 st) by (unfold deliver; by rewrite Hh).
    rewrite Hd.
    assert (Hstep : (handler SIGUSR1 st).2
                    = kill_all st0 (if Nat.even i then SIGSTOP else SIGCONT)
                    ∧ paused (handler SIGUSR1 st).1 = Nat.odd (S i)).
    { rewrite Nat.odd_succ, <- Nat.negb_odd, <- Hp.
      unfold handler, paused in *. cbn.
      destruct (decide (n_sigusr1 st = 0)) as [Hz|Hz].
      - rewrite (bool_decide_false (n_sigusr1 st ≠ 0)) by (intros H; by apply H).
        rewrite (bool_decide_true (n_sigusr1 st = 0)) by done. cbn.
        split; [by apply kill_all_same|]. unfold Int.lnot.
        rewrite (bool_decide_true (n_sigusr1 st = 0)) by done. done.
      - rewrite (bool_decide_true (n_sigusr1 st ≠ 0)) by done.
        rewrite (bool_decide_false (n_sigusr1 st = 0)) by done. cbn.
        split; [by apply kill_all_same|]. unfold Int.lnot.
        rewrite (bool_decide_false (n_sigusr1 st = 0)) by done. done. }
    destruct Hstep as [Hkills Hpaused].
    destruct (IH (handler SIGUSR1 st).1 (S i)) as (H1 & H2 & H3 & H4 & H5);
      [done|done|done|done|].
    rewrite H1, H2, H3, H4, H5, Hkills.
    replace (i + S k)%nat with (S i + k)%nat by lia. done.
Qed.

(** X11. After [createProcesses] has installed [handler], [k] deliveries of
    [SIGUSR1] in a row stop and continue the children in turn, beginning with
    a stop: the parent is paused after an odd number of them and not paused
    after an even number, every delivery signals every registered child, and
    the parent itself goes on. *)
Theorem toggles_alternate n forks st k :
  createProcesses_parent n forks = Ret st →
  paused (deliver_each (replicate k SIGUSR1) st).1 = Nat.odd k
  ∧ (deliver_each (replicate k SIGUSR1) st).2 = alternate_stop_cont st k
  ∧ childs (deliver_each (replicate k SIGUSR1) st).1 = childs st
  ∧ terminated (deliver_each (replicate k SIGUSR1) st).1 = false.
Proof.
  intros Hst.
  destruct (createProcesses_parent_dispositions n forks st Hst) as (Hh & _ & _).
  assert (Hinit : paused st = false ∧ terminated st = false).
  { revert Hst. unfold createProcesses_parent.
    destruct (fork_loop _ _ _) as [pids| |]; try done.
    cbn [mbind res_bind]. by intros [= <-]. }
  destruct Hinit as [Hp Ht].
  destruct (deliver_each_toggles st k st 0%nat Hh eq_refl eq_refl Hp)
    as (H1 & H2 & H3 & _ & H5).
  rewrite H1, H2, H3, H5. done.
Qed.

Lemma toggles_alternate_witness :
  let st := {| nbProcesses := 2; childs := [100; 101]; n_sigusr1 := 1;
               sa_handler := λ s, if decide (s = SIGUSR1) then Handler else SIG_DFL;
               terminated := false |} in
  paused (deliver_each (replicate 3 SIGUSR1) st).1 = Nat.odd 3
  ∧ (deliver_each (replicate 3 SIGUSR1) st).2 = alternate_stop_cont st 3
  ∧ childs (deliver_each (replicate 3 SIGUSR1) st).1 = childs st
  ∧ terminated (deliver_each (replicate 3 SIGUSR1) st).1 = false.
Proof.
  intros st. apply (toggles_alternate 1 (λ i, 100 + Z.of_nat i) st 3). reflexivity.
Defined.

Lemma waitChild_loop_length childs : ∀ i waits,
  (length (waitChild_loop childs i waits) ≤ length childs)%nat.
Proof.
  induction childs as [|pid rest IH]; intros i waits; cbn; [done|].
  specialize (IH (S i) waits). destruct (waits i); cbn; lia.
Qed.

Lemma waitChild_loop_sublist childs : ∀ i waits,
  waitChild_loop childs i waits `sublist_of` childs.
Proof.
  induction childs as [|pid rest IH]; intros i waits; cbn; [done|].
  destruct (waits i); [by apply sublist_skip|by apply sublist_cons].
Qed.

Lemma waitChild_loop_all childs : ∀ i waits,
  waitChild_loop childs i waits = childs
  ↔ ∀ k, (k < length childs)%nat → waits (i + k)%nat = Reaped.
Proof.
  induction childs as [|pid rest IH]; intros i waits; cbn.
  - split; [intros _ k Hk; lia|done].
  - destruct (waits i) eqn:Hw.
    + split.
      * intros [= Heq] k Hk. destruct k as [|k]; [by rewrite Nat.add_0_r|].
        replace (i + S k)%nat with (S i + k)%nat by lia.
        apply (proj1 (IH (S i) waits) Heq). lia.
      * intros Hall. f_equal. apply IH. intros k Hk.
        replace (S i + k)%nat with (i + S k)%nat by lia. apply Hall. lia.
    + split.
      * intros Heq. pose proof (waitChild_loop_length rest (S i) waits) as Hlen.
        rewrite Heq in Hlen. cbn in Hlen. lia.
      * intros Hall. specialize (Hall 0%nat). rewrite Nat.add_0_r, Hw in Hall.
        discriminate Hall. lia.
Qed.

(** X12. [waitChild] calls [waitpid] once for every registered child, in
    order. The children it has reaped when it returns are registered
    children, each at most once and in the order of [childs]; they are all of
    them exactly when no call of [waitpid] was interrupted. *)
Theorem waitChild_reaps_all_iff st waits :
  Z.of_nat (length (childs st)) = nbProcesses st →
  waitChild st waits `sublist_of` childs st
  ∧ (waitChild st waits = childs st
     ↔ ∀ k, (k < length (childs st))%nat → waits k = Reaped).
Proof.
  intros Hlen. unfold waitChild. rewrite take_ge by lia.
  split; [apply waitChild_loop_sublist|]. apply (waitChild_loop_all (childs st) 0).
Qed.

Lemma waitChild_reaps_all_iff_witness :
  let st := {| nbProcesses := 2; childs := [100; 101]; n_sigusr1 := 1;
               sa_handler := λ s, if decide (s = SIGUSR1) then Handler else SIG_DFL;
               terminated := false |} in
  waitChild st (λ _, Reaped) `sublist_of` childs st
  ∧ (waitChild st (λ _, Reaped) = childs st
     ↔ ∀ k, (k < length (childs st))%nat → (λ _ : nat, Reaped) k = Reaped).
Proof. intros st. apply (waitChild_reaps_all_iff st (λ _, Reaped)). reflexivity. Defined.

(** ** The descriptor set of [select] *)

Lemma setReadfds_loop_largest n (cp : list Z) c : ∀ i nfds fds,
  n ≤ 2 ^ 30 → 2 * n ≤ Z.of_nat (length cp) →
  i + Z.of_nat c = n → 0 ≤ i →
  (∀ fd, fd ∈ fds → fd ≤ nfds) →
  ∃ nfds' fds',
    setReadfds_loop c i cp nfds fds = Ret (nfds', fds')
    ∧ (∀ fd, fd ∈ fds' ↔
         fd ∈ fds ∨ ∃ i', i ≤ i' < n ∧ cp !! Z.to_nat (2 * i') = Some fd)
    ∧ (∀ fd, fd ∈ fds' → fd ≤ nfds')
    ∧ (nfds' = nfds ∨ ∃ i', i ≤ i' < n ∧ cp !! Z.to_nat (2 * i') = Some nfds').
Proof.
  induction c as [|c IH]; intros i nfds fds Hn Hlen Hc Hi Hmax.
  - exists nfds, fds. split_and!; [done| |done|by left].
    intros fd. split; [by left|]. intros [?|(i' & ? & _)]; [done|lia].
  - cbn [setReadfds_loop].
    assert (E2 : Int.mul 2 i = 2 * i).
    { unfold Int.mul. apply wrap_id. unfold Int.in_range, Int.INT_MIN, Int.INT_MAX. lia. }
    assert (E1 : Int.add i 1 = i + 1).
    { unfold Int.add. apply wrap_id. unfold Int.in_range, Int.INT_MIN, Int.INT_MAX. lia. }
    destruct (lookup_lt_is_Some_2 cp (Z.to_nat (2 * i))) as [fd0 Hfd0]; [lia|].
    assert (H2i : 0 ≤ 2 * i) by lia.
    rewrite E2, (aget_Ret _ _ _ H2i Hfd0), E1. cbn [mbind res_bind].
    destruct (IH (i + 1) (if bool_decide (fd0 > nfds) then fd0 else nfds) ({[fd0]} ∪ fds))
      as (nfds' & fds' & Hrun & Hfds & Hle & Hin); [done|done|lia|lia| |].
    { intros fd Hfd. apply elem_of_union in Hfd as [Hfd|Hfd].
      - apply elem_of_singleton in Hfd as ->. case_bool_decide; lia.
      - specialize (Hmax fd Hfd). case_bool_decide; lia. }
    exists nfds', fds'. split_and!; [done| |done|].
    + intros fd. rewrite Hfds, elem_of_union, elem_of_singleton. split.
      * intros [[->|?]|(i' & Hi' & Hl)]; [right; exists i; split; [lia|done]|by left|].
        right. exists i'. split; [lia|done].
      * intros [?|(i' & Hi' & Hl)]; [left; by right|].
        destruct (decide (i' = i)) as [->|Hne].
        -- left. left. rewrite Hfd0 in Hl. by injection Hl.
        -- right. exists i'. split; [lia|done].
    + destruct Hin as [->|(i' & Hi' & Hl)].
      * case_bool_decide; [right; exists i; split; [lia|done]|by left].
      * right. exists i'. split; [lia|done].
Qed.

(** X13. [setReadfds(n, &readfds)] on an array of at least [2 * n] cells whose
    cells [connectedPipes[2 * i]], [i < n], are descriptors an [fd_set] has a
    bit for (from 0 to [FD_SETSIZE - 1], whatever [FD_SETSIZE] is on the
    platform): the set it builds holds those cells and nothing else, every
    member is below [FD_SETSIZE], the number it returns is 0 or one of them
    and no member of the set is larger; so [nfds + 1], which [passToken]
    passes to [select], covers every descriptor of the set and does not exceed
    [FD_SETSIZE]. For [n = 0] the set is empty and the number is 0. *)
Theorem setReadfds_largest FD_SETSIZE n (connectedPipes : list Z) :
  0 ≤ n ≤ 2 ^ 30 → 2 * n ≤ Z.of_nat (length connectedPipes) →
  (∀ i fd, 0 ≤ i < n → connectedPipes !! Z.to_nat (2 * i) = Some fd →
     0 ≤ fd < FD_SETSIZE) →
  ∃ nfds readfds,
    setReadfds n connectedPipes = Ret (nfds, readfds)
    ∧ (∀ fd, fd ∈ readfds ↔
         ∃ i, 0 ≤ i < n ∧ connectedPipes !! Z.to_nat (2 * i) = Some fd)
    ∧ (∀ fd, fd ∈ readfds → 0 ≤ fd < FD_SETSIZE ∧ fd < nfds + 1)
    ∧ (nfds = 0 ∨ nfds ∈ readfds)
    ∧ (0 < n → nfds + 1 ≤ FD_SETSIZE)
    ∧ (n = 0 → nfds = 0 ∧ readfds = ∅).
Proof.
  intros Hn Hlen Hcells. unfold setReadfds.
  destruct (setReadfds_loop_largest n connectedPipes (Z.to_nat n) 0 0 ∅)
    as (nfds & fds & Hrun & Hfds & Hle & Hin); [lia|done|lia|done|set_solver|].
  assert (Hmem : ∀ fd, fd ∈ fds ↔
            ∃ i, 0 ≤ i < n ∧ connectedPipes !! Z.to_nat (2 * i) = Some fd).
  { intros fd. rewrite Hfds. split; [intros [?|?]; [set_solver|done]|by right]. }
  assert (Hrange : ∀ fd, fd ∈ fds → 0 ≤ fd < FD_SETSIZE).
  { intros fd Hfd. apply Hmem in Hfd as (i & Hi & Hcell). by apply (Hcells i). }
  exists nfds, fds. split; [done|]. split; [exact Hmem|]. split; [|split; [|split]].
  - intros fd Hfd. split; [by apply Hrange|]. specialize (Hle fd Hfd). lia.
  - destruct Hin as [->|Hin]; [by left|]. right. apply Hfds. by right.
  - intros Hpos.
    destruct (lookup_lt_is_Some_2 connectedPipes (Z.to_nat (2 * 0))) as [fd0 Hfd0]; [lia|].
    pose proof (Hcells 0 fd0 ltac:(lia) Hfd0) as Hfd0r.
    destruct Hin as [->|(i & Hi & Hcell)]; [lia|].
    pose proof (Hcells i nfds ltac:(lia) Hcell). lia.
  - intros ->. split.
    + destruct Hin as [->|(i' & ? & _)]; [done|lia].
    + apply set_eq. intros fd. rewrite Hfds. split; [|set_solver].
      intros [?|(i' & ? & _)]; [done|lia].
Qed.

Lemma setReadfds_largest_witness :
  ∃ nfds readfds,
    setReadfds 2 [7; 8; 5; 14] = Ret (nfds, readfds)
    ∧ (∀ fd, fd ∈ readfds ↔
         ∃ i, 0 ≤ i < 2 ∧ [7; 8; 5; 14] !! Z.to_nat (2 * i) = Some fd)
    ∧ (∀ fd, fd ∈ readfds → 0 ≤ fd < 1024 ∧ fd < nfds + 1)
    ∧ (nfds = 0 ∨ nfds ∈ readfds)
    ∧ (0 < 2 → nfds + 1 ≤ 1024)
    ∧ (2 = 0 → nfds = 0 ∧ readfds = ∅).
Proof.
  apply (setReadfds_largest 1024 2 [7; 8; 5; 14]); [lia|cbn; lia|].
  intros i fd Hi Hcell.
  assert (Hcases : i = 0 ∨ i = 1) by lia.
  destruct Hcases as [-> | ->]; cbn in Hcell; injection Hcell as <-; lia.
Defined.

(** ** Further properties of runs *)

Lemma run_preserves n pipes (Q : event → Prop) (P : system → Prop) :
  dim_ok n → 1 ≤ n → Z.of_nat (length pipes) = 2 ^ n * n → NoDup (table_fds pipes) →
  (∀ e s s' m, Q e → inv n pipes m s → P s → step_case n pipes e s s' → P s') →
  ∀ es s m,
    0 ≤ m → m + Z.of_nat (length es) ≤ Int.INT_MAX →
    forallb ev_fopen es = true → Forall Q es →
    inv n pipes m s → P s → P (run n pipes es s).
Proof.
  intros Hn Hn1 Hlen Hnd Hstep. unfold run.
  induction es as [|e es IH]; intros s m Hm0 Hm Hf HQ Hinv HP; cbn [foldl]; [done|].
  cbn [length] in Hm. cbn [forallb] in Hf. apply andb_true_iff in Hf as [Hfe Hf].
  apply Forall_cons in HQ as [HQe HQ].
  apply (IH _ (m + 1)); [lia|lia|done|done| |].
  - apply (inv_step n pipes Hn Hn1 Hlen Hnd); [done|lia|done|done].
  - apply (Hstep e s _ m HQe Hinv HP).
    apply (step_cases n pipes Hn Hn1 Hlen Hnd e s m Hinv); [lia|done].
Qed.

Lemma boot_table_below limit open0 n pipes s0 fd :
  boot limit open0 n = Ret (pipes, s0) → fd ∈ table_fds pipes → 0 ≤ fd < limit.
Proof.
  unfold boot.
  destruct (createPipes limit open0 n) as [[[nb ps] open]| |] eqn:Hcreate; try done.
  cbn [mbind res_bind]. intros [= <- <-]. by apply (createPipes_below _ _ _ _ _ _ _ Hcreate).
Qed.

(** X14. In a run of the system [main] starts for a dimension from 1 to 26,
    with a descriptor limit that does not exceed [FD_SETSIZE] (whatever it is
    on the platform), in which no [fopen] fails and the token stays below
    [INT_MAX]: none of the [2^n] children has ended with [exit] and none has
    met one of the two faults of the tables, an index into [pipes] or
    [connectedPipes] that is out of range or a remainder [rand() % n] by zero;
    no [read] or [write] of a token has failed; and every descriptor a child
    gives to [FD_SET] and [select] is one an [fd_set] has a bit for. (The
    bytes [sprintf] writes past the allocation of the file name are not among
    these faults; they are what [filename_alloc] and [filename_written]
    measure.) *)
Theorem run_never_fails FD_SETSIZE limit open0 n pipes s0 es :
  1 ≤ n ≤ 26 →
  limit ≤ FD_SETSIZE →
  boot limit open0 n = Ret (pipes, s0) →
  Z.of_nat (length es) ≤ Int.INT_MAX →
  forallb ev_fopen es = true →
  Z.of_nat (length (procs (run n pipes es s0))) = 2 ^ n
  ∧ ∀ v p, procs (run n pipes es s0) !! v = Some p →
      (∀ status l, p ≠ Ended status l)
      ∧ (∀ f l, p ≠ Crashed f l)
      ∧ ∀ cp fds l, p = Waiting cp fds l → ∀ fd, fd ∈ fds → 0 ≤ fd < FD_SETSIZE.
Proof.
  intros Hn Hlimit Hboot Hes Hf. assert (Hd : dim_ok n) by (unfold dim_ok; lia).
  destruct (run_inv _ _ _ _ _ _ Hn Hboot Hes Hf) as (Hlen & Hinv).
  pose proof Hinv as (Hprocs & Hpi & _).
  split; [done|]. intros v p Hp. pose proof (Hpi v p Hp) as Hproc.
  pose proof (vertex_range n pipes (proj1 Hn) _ _ _ _ Hinv Hp) as Hv.
  destruct p as [cp|cp fds l|st l|f l]; cbn [proc_inv] in Hproc; [| |done|done].
  - by split_and!.
  - split; [done|]. split; [done|]. intros cp' fds' l' [= <- <- <-] fd Hfd.
    destruct Hproc as (_ & Hfds & _). apply Hfds in Hfd as (i & Hi & ->).
    assert (Hin : rd (chan pipes (own_idx n (Z.of_nat v) i)) ∈ table_fds pipes).
    { apply (table_fds_lookup pipes (Z.to_nat (own_idx n (Z.of_nat v) i))),
        (chan_lookup n pipes Hlen), (own_idx_range n Hd _ i); done. }
    pose proof (boot_table_below _ _ _ _ _ _ Hboot Hin). lia.
Qed.

Lemma run_never_fails_witness :
  let pipes := [(3, 4); (5, 6)] in
  let s0 := {| procs := [Forked [3; 6]; Forked [5; 4]]; queues := [[]; []] |} in
  let es := [runs 0; runs 1; runs 1; runs 0] in
  Z.of_nat (length (procs (run 1 pipes es s0))) = 2 ^ 1
  ∧ ∀ v p, procs (run 1 pipes es s0) !! v = Some p →
      (∀ status l, p ≠ Ended status l)
      ∧ (∀ f l, p ≠ Crashed f l)
      ∧ ∀ cp fds l, p = Waiting cp fds l → ∀ fd, fd ∈ fds → 0 ≤ fd < 1024.
Proof.
  intros pipes s0 es.
  apply (run_never_fails 1024 64 {[0; 1; 2]} 1 pipes s0 es);
    [lia|lia|vm_compute; reflexivity|vm_compute; discriminate|reflexivity].
Defined.

Lemma concat_single_token n len d j t :
  (Z.to_nat (own_idx n d j) < len)%nat → concat (single_token n len d j t) = [t].
Proof.
  intros Hlt. unfold single_token.
  rewrite insert_take_drop by (by rewrite length_replicate).
  rewrite take_replicate, drop_replicate, concat_app. cbn [concat].
  by rewrite !concat_replicate_nil.
Qed.

Lemma sum_list_with_insert {A} (f : A → nat) (l : list A) : ∀ v p p',
  l !! v = Some p →
  (sum_list_with f (<[v := p']> l) + f p = sum_list_with f l + f p')%nat.
Proof.
  induction l as [|x l IH]; intros v p p' Hp; [done|].
  destruct v as [|v]; simpl in *.
  - injection Hp as ->. lia.
  - specialize (IH v p p' Hp). lia.
Qed.

Lemma lines_logged_upd s v p p' qs :
  procs s !! v = Some p →
  (lines_logged (upd s v p' qs) + length (log_of p)
   = lines_logged s + length (log_of p'))%nat.
Proof.
  intros Hp. unfold lines_logged, upd. cbn [procs].
  by apply (sum_list_with_insert (λ p, length (log_of p))).
Qed.

Lemma lines_logged_zero s : (∀ v, log_at s v = []) → lines_logged s = 0%nat.
Proof.
  intros Hlogs. unfold lines_logged.
  assert (Hall : ∀ v p, procs s !! v = Some p → log_of p = []).
  { intros v p Hp. by rewrite <- (log_at_lookup s v p Hp). }
  clear Hlogs. induction (procs s) as [|p l IH]; [done|]. cbn.
  rewrite (Hall 0%nat p eq_refl). cbn. apply IH. intros v q Hq. by apply (Hall (S v)).
Qed.

Section counting.
Context (n : Z) (pipes : list pipe_t).
Hypothesis Hn : dim_ok n.
Hypothesis Hn1 : 1 ≤ n.
Hypothesis Hlen : Z.of_nat (length pipes) = 2 ^ n * n.
Hypothesis Hnd : NoDup (table_fds pipes).

Lemma neighbour_slot_lt v k :
  0 ≤ v < 2 ^ n → 0 ≤ k < n →
  (Z.to_nat (own_idx n (Z.lxor v (2 ^ k)) k) < length pipes)%nat.
Proof.
  intros Hv Hk. apply (own_slot_lt n pipes Hn Hlen); [|done].
  by apply (neighbour_of_ok n v k Hn).
Qed.

Lemma count_inv_step e s s' m :
  inv n pipes m s → count_inv s → step_case n pipes e s s' → count_inv s'.
Proof.
  intros Hinv Hcount
    [->|cp fds Hp Hv0 Hfds ->|cp fds k Hp Hv0 Hqs Hk Hfds ->
     |cp fds fds' l j t k Hp Hqs Hj Hk Hfds' ->]; [done| | |].
  - pose proof (lines_logged_upd s _ _ (Waiting cp fds locals_init) (queues s) Hp) as Hl.
    cbn [log_of locals_init file length] in Hl.
    unfold count_inv in *. rewrite !Nat.add_0_r in Hl. cbn [upd queues] in *.
    by rewrite Hl.
  - pose proof (lines_logged_upd s 0 _
                  (Waiting cp fds {| token := 1; start := ev_now e; file := [LogSeed 1] |})
                  (single_token n (length pipes) (Z.lxor 0 (2 ^ k)) k 1)
                  ltac:(by rewrite <- Hv0)) as Hl.
    cbn [log_of file length] in Hl.
    assert (Hz : lines_logged s = 0%nat).
    { destruct Hcount as [[Hz _]|[_ Hc]]; [done|].
      rewrite Hqs, concat_replicate_nil in Hc. done. }
    right. cbn [upd queues] in *.
    rewrite concat_single_token by (apply neighbour_slot_lt; [pose proof (dim_ok_pow n Hn)|]; lia).
    split; [lia|]. f_equal. lia.
  - pose proof (lines_logged_upd s _ _
                  (Waiting cp fds'
                     {| token := t + 1; start := ev_now e;
                        file := file l ++ [arrival_line (start l) (ev_now e) (t + 1)] |})
                  (single_token n (length pipes)
                     (Z.lxor (Z.of_nat (ev_vertex e)) (2 ^ k)) k (t + 1)) Hp) as Hl.
    cbn [log_of file] in Hl. rewrite length_app in Hl. cbn [length] in Hl.
    pose proof (vertex_range n pipes Hn1 s m _ _ Hinv Hp) as Hv.
    assert (Ht : (0 < lines_logged s)%nat ∧ t = Z.of_nat (lines_logged s)).
    { unfold count_inv in Hcount. rewrite Hqs, concat_single_token in Hcount
        by (by apply (own_slot_lt n pipes Hn Hlen)).
      destruct Hcount as [[_ Hc]|[Hpos Hc]]; [done|]. injection Hc as ->. done. }
    destruct Ht as [Hpos ->].
    right. cbn [upd queues] in *.
    rewrite concat_single_token by (by apply neighbour_slot_lt).
    split; [lia|]. f_equal. lia.
Qed.

Lemma shape_inv_step e s s' m :
  tv_sec (ev_now e) ≠ 0 →
  inv n pipes m s → shape_inv s → step_case n pipes e s s' → shape_inv s'.
Proof.
  intros Hnow Hinv Hshape
    [->|cp fds Hp Hv0 Hfds ->|cp fds k Hp Hv0 Hqs Hk Hfds ->
     |cp fds fds' l j t k Hp Hqs Hj Hk Hfds' ->]; [done| | |].
  - intros v cp' fds0 l' Hv.
    apply procs_upd_lookup in Hv as [[-> Heq]|[Hne Hv]]; [|by apply (Hshape v cp' fds0)].
    injection Heq as -> -> ->. by cbn.
  - intros v cp' fds0 l' Hv.
    apply procs_upd_lookup in Hv as [[-> Heq]|[Hne Hv]]; [|by apply (Hshape v cp' fds0)].
    injection Heq as -> -> ->. cbn. rewrite decide_True by done. by split_and!.
  - intros v cp' fds0 l' Hv.
    apply procs_upd_lookup in Hv as [[-> Heq]|[Hne Hv]]; [|by apply (Hshape v cp' fds0)].
    injection Heq as -> -> ->. cbn [file start].
    destruct (Hshape _ _ _ _ Hp) as [Hsh Hst].
    pose proof Hinv as (_ & Hpi & _). pose proof (Hpi _ _ Hp) as (_ & _ & Hzero & Hfirst).
    split; [|intros _; exact Hnow].
    destruct (file l) as [|first rest] eqn:Hfile.
    + destruct (decide (ev_vertex e = 0%nat)) as [Hz|Hz].
      { destruct (Hzero Hz) as [rest Hrest]. done. }
      unfold arrival_line. rewrite bool_decide_true by (by apply Hfirst).
      cbn. rewrite decide_False by done. split; [by eexists|done].
    + cbn in Hsh |- *. destruct Hsh as [Hsh Hrest]. split; [done|].
      apply Forall_app. split; [done|]. apply Forall_singleton.
      unfold arrival_line. rewrite bool_decide_false by (by apply Hst). done.
Qed.

End counting.

Lemma boot_nothing_logged limit open0 n pipes s0 :
  dim_ok n → boot limit open0 n = Ret (pipes, s0) →
  queues s0 = replicate (length pipes) [] ∧ ∀ v, log_at s0 v = [].
Proof.
  intros Hd Hboot. destruct (boot_inv _ _ _ _ _ Hd Hboot) as (_ & _ & _ & _ & Hq).
  destruct Hq as [Hq|(d & j & t & _ & _ & Ht & _)]; [done|lia].
Qed.

Lemma all_tokens_extend (l : list proc) : ∀ v p p' ext,
  l !! v = Some p → log_of p' = log_of p ++ ext →
  (<[v := p']> l) ≫= (λ q, logged_token <$> log_of q)
  ≡ₚ (l ≫= (λ q, logged_token <$> log_of q)) ++ (logged_token <$> ext).
Proof.
  induction l as [|x l IH]; intros v p p' ext Hp Hext; [done|].
  destruct v as [|v]; cbn in Hp |- *.
  - injection Hp as ->. rewrite Hext, fmap_app, <- !app_assoc.
    apply Permutation_app_head, Permutation_app_comm.
  - rewrite (IH v p p' ext Hp Hext). by rewrite app_assoc.
Qed.

Lemma all_tokens_upd s v p p' qs ext :
  procs s !! v = Some p → log_of p' = log_of p ++ ext →
  all_tokens (upd s v p' qs) ≡ₚ all_tokens s ++ (logged_token <$> ext).
Proof. intros Hp Hext. unfold all_tokens, upd. cbn [procs]. by eapply all_tokens_extend. Qed.

Lemma tokens_inv_step n pipes e s s' m :
  dim_ok n → 1 ≤ n → Z.of_nat (length pipes) = 2 ^ n * n →
  inv n pipes m s → count_inv s →
  all_tokens s ≡ₚ seqZ 1 (Z.of_nat (lines_logged s)) →
  step_case n pipes e s s' →
  all_tokens s' ≡ₚ seqZ 1 (Z.of_nat (lines_logged s')).
Proof.
  intros Hn Hn1 Hlen Hinv Hcount Hall
    [->|cp fds Hp Hv0 Hfds ->|cp fds k Hp Hv0 Hqs Hk Hfds ->
     |cp fds fds' l j t k Hp Hqs Hj Hk Hfds' ->]; [done| | |].
  - pose proof (lines_logged_upd s _ _ (Waiting cp fds locals_init) (queues s) Hp) as Hl.
    cbn [log_of locals_init file length] in Hl. rewrite !Nat.add_0_r in Hl.
    rewrite Hl, (all_tokens_upd s _ _ _ _ [] Hp) by done. by rewrite app_nil_r.
  - rewrite Hv0 in Hp.
    pose proof (lines_logged_upd s 0 _
                  (Waiting cp fds {| token := 1; start := ev_now e; file := [LogSeed 1] |})
                  (single_token n (length pipes) (Z.lxor 0 (2 ^ k)) k 1) Hp) as Hl.
    cbn [log_of file length] in Hl.
    assert (Hz : lines_logged s = 0%nat).
    { destruct Hcount as [[Hz _]|[_ Hc]]; [done|].
      rewrite Hqs, concat_replicate_nil in Hc. done. }
    rewrite (all_tokens_upd s 0 _ _ _ [LogSeed 1] Hp) by done.
    rewrite Hall, Hz. replace (lines_logged (upd s 0 _ _)) with 1%nat by lia. done.
  - pose proof (lines_logged_upd s _ _
                  (Waiting cp fds'
                     {| token := t + 1; start := ev_now e;
                        file := file l ++ [arrival_line (start l) (ev_now e) (t + 1)] |})
                  (single_token n (length pipes)
                     (Z.lxor (Z.of_nat (ev_vertex e)) (2 ^ k)) k (t + 1)) Hp) as Hl.
    cbn [log_of file] in Hl. rewrite length_app in Hl. cbn [length] in Hl.
    pose proof (vertex_range n pipes Hn1 s m _ _ Hinv Hp) as Hv.
    assert (Ht : t = Z.of_nat (lines_logged s)).
    { unfold count_inv in Hcount. rewrite Hqs, concat_single_token in Hcount
        by (by apply (own_slot_lt n pipes Hn Hlen)).
      destruct Hcount as [[_ Hc]|[_ Hc]]; [done|]. by injection Hc. }
    subst t.
    rewrite (all_tokens_upd s _ _ _ _ [arrival_line (start l) (ev_now e)
                                           (Z.of_nat (lines_logged s) + 1)] Hp) by done.
    cbn [fmap list_fmap]. rewrite logged_token_arrival, Hall.
    replace (lines_logged (upd s _ _ _)) with (S (lines_logged s)) by lia.
    rewrite seqZ_S. by rewrite Z.add_comm.
Qed.

(** X15. In a run of the system [main] starts for a dimension from 1 to 26, in
    which no [fopen] fails and the token stays below [INT_MAX], the token
    values written to the files of all the vertices together are the numbers
    1, 2, ..., L, each of them once, where L is the number of lines written so
    far: no two lines of any files carry the same token and no value is
    skipped. *)
Theorem logs_hold_each_token_once limit open0 n pipes s0 es :
  1 ≤ n ≤ 26 →
  boot limit open0 n = Ret (pipes, s0) →
  Z.of_nat (length es) ≤ Int.INT_MAX →
  forallb ev_fopen es = true →
  all_tokens (run n pipes es s0)
  ≡ₚ seqZ 1 (Z.of_nat (lines_logged (run n pipes es s0))).
Proof.
  intros Hn Hboot Hes Hf. assert (Hd : dim_ok n) by (unfold dim_ok; lia).
  destruct (boot_inv _ _ _ _ _ Hd Hboot) as (Hlen & Hnd & Hinv).
  destruct (boot_nothing_logged _ _ _ _ _ Hd Hboot) as [Hq Hlogs].
  assert (Hzero : lines_logged s0 = 0%nat) by (by apply lines_logged_zero).
  assert (Hboth : count_inv (run n pipes es s0)
                  ∧ all_tokens (run n pipes es s0)
                    ≡ₚ seqZ 1 (Z.of_nat (lines_logged (run n pipes es s0)))).
  { apply (run_preserves n pipes (λ _, True)
             (λ s, count_inv s ∧ all_tokens s ≡ₚ seqZ 1 (Z.of_nat (lines_logged s)))
             Hd (proj1 Hn) Hlen Hnd) with (m := 0);
      [|done|lia|done|by apply Forall_forall|done|].
    - intros e s s' m _ Hinv' [Hc Ha] Hstep. split.
      + by apply (count_inv_step n pipes Hd (proj1 Hn) Hlen e s s' m).
      + exact (tokens_inv_step n pipes e s s' m Hd (proj1 Hn) Hlen Hinv' Hc Ha Hstep).
    - split.
      + left. split; [done|]. by rewrite Hq, concat_replicate_nil.
      + rewrite Hzero. cbn.
        assert (Hall : ∀ v p, procs s0 !! v = Some p → log_of p = []).
        { intros v p Hp. by rewrite <- (log_at_lookup s0 v p Hp). }
        unfold all_tokens. clear -Hall. induction (procs s0) as [|p l IH]; [done|].
        cbn. rewrite (Hall 0%nat p eq_refl). cbn. apply IH.
        intros v q Hq. by apply (Hall (S v)). }
  apply Hboth.
Qed.

Lemma logs_hold_each_token_once_witness :
  let pipes := [(3, 4); (5, 6)] in
  let s0 := {| procs := [Forked [3; 6]; Forked [5; 4]]; queues := [[]; []] |} in
  let es := [runs 0; runs 1; runs 1; runs 0] in
  all_tokens (run 1 pipes es s0) = [1; 3; 2]
  ∧ lines_logged (run 1 pipes es s0) = 3%nat
  ∧ all_tokens (run 1 pipes es s0)
    ≡ₚ seqZ 1 (Z.of_nat (lines_logged (run 1 pipes es s0))).
Proof.
  intros pipes s0 es. split; [vm_compute; reflexivity|]. split; [vm_compute; reflexivity|].
  apply (logs_hold_each_token_once 64 {[0; 1; 2]} 1 pipes s0 es);
    [lia|vm_compute; reflexivity|vm_compute; discriminate|reflexivity].
Defined.

(** X16. In such a run, if moreover the clock never reads 0 seconds, the file
    of every vertex has one shape: it is empty, or it begins with one first
    line, ["token: 1"] for vertex 0 and ["first received token: %d"] for every
    other vertex, and every line after the first is of the form
    ["Token: %d, Time : %ld"]. *)
Theorem log_files_shape limit open0 n pipes s0 es v :
  1 ≤ n ≤ 26 →
  boot limit open0 n = Ret (pipes, s0) →
  Z.of_nat (length es) ≤ Int.INT_MAX →
  forallb ev_fopen es = true →
  Forall (λ e, tv_sec (ev_now e) ≠ 0) es →
  log_shape v (log_at (run n pipes es s0) v).
Proof.
  intros Hn Hboot Hes Hf Hclock. assert (Hd : dim_ok n) by (unfold dim_ok; lia).
  destruct (boot_inv _ _ _ _ _ Hd Hboot) as (Hlen & Hnd & Hinv).
  destruct (boot_nothing_logged _ _ _ _ _ Hd Hboot) as [Hq Hlogs].
  assert (Hshape : shape_inv (run n pipes es s0)).
  { apply (run_preserves n pipes (λ e, tv_sec (ev_now e) ≠ 0) shape_inv
             Hd (proj1 Hn) Hlen Hnd) with (m := 0);
      [|done|lia|done|done|done|].
    - intros e s s' m. by apply shape_inv_step.
    - intros w cp fds l Hw. pose proof (Hlogs w) as Hl.
      rewrite (log_at_lookup _ _ _ Hw) in Hl. cbn [log_of] in Hl. by rewrite Hl. }
  unfold log_at.
  destruct (procs (run n pipes es s0) !! v) as [[cp|cp fds l|st l|f l]|] eqn:Hp;
    cbn [from_option log_of]; [done| | | |done].
  - by destruct (Hshape v cp fds l Hp).
  - destruct (run_inv _ _ _ _ _ _ Hn Hboot Hes Hf) as (_ & _ & Hpi & _).
    by destruct (Hpi _ _ Hp).
  - destruct (run_inv _ _ _ _ _ _ Hn Hboot Hes Hf) as (_ & _ & Hpi & _).
    by destruct (Hpi _ _ Hp).
Qed.

Lemma log_files_shape_witness :
  let pipes := [(3, 4); (5, 6)] in
  let s0 := {| procs := [Forked [3; 6]; Forked [5; 4]]; queues := [[]; []] |} in
  let es := [runs 0; runs 1; runs 1; runs 0; runs 1] in
  log_at (run 1 pipes es s0) 1 = [LogFirst 2; LogArrival 4 0]
  ∧ log_shape 1 (log_at (run 1 pipes es s0) 1).
Proof.
  intros pipes s0 es. split; [vm_compute; reflexivity|].
  apply (log_files_shape 64 {[0; 1; 2]} 1 pipes s0 es 1%nat);
    [lia|vm_compute; reflexivity|vm_compute; discriminate|reflexivity|].
  repeat constructor; vm_compute; discriminate.
Defined.

(** X17. In such a run [select] wakes one process at most: while the pipes are
    empty no process that waits in [select] is woken, and while the token is
    in the pipes there is one vertex such that a process that waits in
    [select] is woken exactly when it is that vertex. *)
Theorem select_wakes_the_destination_only limit open0 n pipes s0 es :
  1 ≤ n ≤ 26 →
  boot limit open0 n = Ret (pipes, s0) →
  Z.of_nat (length es) ≤ Int.INT_MAX →
  forallb ev_fopen es = true →
  (in_flight (run n pipes es s0) = 0%nat →
   ∀ v cp fds l, procs (run n pipes es s0) !! v = Some (Waiting cp fds l) →
     select pipes (queues (run n pipes es s0)) fds = ∅)
  ∧ (in_flight (run n pipes es s0) = 1%nat →
     ∃ d, 0 ≤ d < 2 ^ n
       ∧ ∀ v cp fds l, procs (run n pipes es s0) !! v = Some (Waiting cp fds l) →
           select pipes (queues (run n pipes es s0)) fds ≠ ∅ ↔ Z.of_nat v = d).
Proof.
  intros Hn Hboot Hes Hf. assert (Hd : dim_ok n) by (unfold dim_ok; lia).
  destruct (boot_inv _ _ _ _ _ Hd Hboot) as (_ & Hnd & _).
  destruct (run_inv _ _ _ _ _ _ Hn Hboot Hes Hf) as (Hlen & Hinv).
  pose proof Hinv as (Hprocs & Hpi & Hq).
  assert (Hfds : ∀ v cp fds l,
             procs (run n pipes es s0) !! v = Some (Waiting cp fds l) →
             0 ≤ Z.of_nat v < 2 ^ n ∧ readfds_of n pipes (Z.of_nat v) fds).
  { intros v cp fds l Hp. split; [by apply (vertex_range n pipes (proj1 Hn) _ _ _ _ Hinv Hp)|].
    by destruct (Hpi _ _ Hp) as (_ & ? & _). }
  destruct Hq as [[Hqs _]|(d & j & t & Hdr & Hj & _ & Hqs & _)].
  - split.
    + intros _ v cp fds l Hp. destruct (Hfds _ _ _ _ Hp) as [Hv Hr].
      apply (select_empty n pipes (Z.of_nat v) Hd Hlen Hnd Hv _ fds Hr).
      intros i _. rewrite Hqs. apply ready_at_replicate.
    + unfold in_flight. rewrite Hqs, concat_replicate_nil. done.
  - split.
    + rewrite (in_flight_single n (length pipes) d j t); [done| |done].
      by apply (own_slot_lt n pipes Hd Hlen).
    + intros _. exists d. split; [done|]. intros v cp fds l Hp.
      destruct (Hfds _ _ _ _ Hp) as [Hv Hr].
      rewrite (select_empty n pipes (Z.of_nat v) Hd Hlen Hnd Hv _ fds Hr), Hqs.
      split.
      * intros Hready. destruct (decide (Z.of_nat v = d)) as [|Hne]; [done|].
        exfalso. apply Hready. intros i Hi.
        rewrite (ready_at_single n pipes Hd Hlen (Z.of_nat v) d j t i Hv Hdr Hj Hi). tauto.
      * intros Hvd Hnone. apply (Hnone j Hj).
        by apply (ready_at_single n pipes Hd Hlen (Z.of_nat v) d j t j Hv Hdr Hj Hj).
Qed.

Lemma select_wakes_the_destination_only_witness :
  let pipes := [(3, 4); (5, 6)] in
  let s0 := {| procs := [Forked [3; 6]; Forked [5; 4]]; queues := [[]; []] |} in
  let es := [runs 1; runs 0] in
  in_flight (run 1 pipes es s0) = 1%nat
  ∧ ∃ d, 0 ≤ d < 2 ^ 1
      ∧ ∀ v cp fds l, procs (run 1 pipes es s0) !! v = Some (Waiting cp fds l) →
          select pipes (queues (run 1 pipes es s0)) fds ≠ ∅ ↔ Z.of_nat v = d.
Proof.
  intros pipes s0 es. split; [vm_compute; reflexivity|].
  apply (select_wakes_the_destination_only 64 {[0; 1; 2]} 1 pipes s0 es);
    [lia|vm_compute; reflexivity|vm_compute; discriminate|reflexivity|vm_compute; reflexivity].
Defined.

(** ** What one worker sends *)

(** X18. One pass through the body of the loop of [passToken], from any
    contents of the pipes: the worker logs one line, with the token it ends
    the pass with, and sends that same token, once, into the pipe of its
    neighbour across dimension [rand() % n]; a pipe that is neither that one
    nor one of its own [n] is left as it was. *)
Theorem loop_body_sends_what_it_logs
    limit open0 n nb pipes open v cp open_v (qs : list (list Z)) nfds fds l now r :
  1 ≤ n ≤ 26 →
  createPipes limit open0 n = Ret (nb, pipes, open) →
  0 ≤ v < 2 ^ n →
  child_setup n v pipes open = Ret (cp, open_v) →
  length qs = length pipes →
  setReadfds n cp = Ret (nfds, fds) →
  ∃ l' qs' out line,
    loop_body n pipes cp (select pipes qs fds) now r (l, qs) = ((l', qs'), Ret out)
    ∧ file l' = file l ++ [line]
    ∧ logged_token line = token l'
    ∧ start l' = now
    ∧ qs' !! Z.to_nat (nb_idx n v (Z.of_N r `mod` n))
      = (λ q, q ++ [token l']) <$> qs !! Z.to_nat (nb_idx n v (Z.of_N r `mod` n))
    ∧ ∀ p, (∀ i, 0 ≤ i < n → p ≠ Z.to_nat (own_idx n v i)) →
           p ≠ Z.to_nat (nb_idx n v (Z.of_N r `mod` n)) →
           qs' !! p = qs !! p.
Proof.
  intros Hn Hcreate Hv Hsetup Hqlen Hset.
  assert (Hd : dim_ok n) by (unfold dim_ok; lia).
  destruct (setup_wired _ _ _ _ _ _ _ _ _ Hd Hcreate Hv Hsetup) as (Hlen & Hnd & Hw).
  destruct (setReadfds_spec n pipes v cp Hd Hlen Hnd Hv Hw) as (nfds' & fds' & Hset' & Hfds).
  rewrite Hset in Hset'. injection Hset' as <- <-.
  destruct (loop_body_spec n pipes v cp Hd Hlen Hnd Hv Hw qs (select pipes qs fds) l now r)
    as (tok & nfds' & fds' & Hrun & _); [lia|done| |].
  { intros i Hi. by apply (select_ready n pipes v Hd Hlen Hnd Hv). }
  pose proof (Z.mod_pos_bound (Z.of_N r) n ltac:(lia)) as Hk.
  set (k := Z.of_N r `mod` n) in *.
  assert (Hslots : NoDup (own_slots n v (Z.to_nat n) 0))
    by (apply own_slots_NoDup; [done|done|done|lia]).
  assert (Hnb : Z.to_nat (nb_idx n v k) ∉ own_slots n v (Z.to_nat n) 0).
  { rewrite elem_of_own_slots by done. intros (i & Hi & Heq).
    pose proof (own_idx_range n Hd v i Hv ltac:(lia)).
    pose proof (nb_idx_range n Hd v k Hv Hk).
    apply (own_nb_ne n v i k Hv); [lia|done|lia]. }
  eexists _, _, _, _. split; [exact Hrun|]. cbn [file token start]. split_and!.
  - done.
  - apply logged_token_arrival.
  - done.
  - rewrite list_lookup_alter_eq, drain_lookup by done. by rewrite decide_False.
  - intros p Hown Hp. rewrite list_lookup_alter_ne by done.
    rewrite drain_lookup by done. rewrite decide_False; [done|].
    rewrite elem_of_own_slots by done. intros (i & Hi & ->). apply (Hown i); [lia|done].
Qed.

Lemma loop_body_sends_what_it_logs_witness :
  let pipes := [(3, 4); (5, 6)] in
  let l := {| token := 0; start := {| tv_sec := 0; tv_usec := 0 |}; file := [] |} in
  ∃ l' qs' out line,
    loop_body 1 pipes [5; 4] (select pipes [[]; [1]] {[5]})
      {| tv_sec := 100; tv_usec := 5 |} 7%N (l, [[]; [1]]) = ((l', qs'), Ret out)
    ∧ file l' = file l ++ [line]
    ∧ logged_token line = token l'
    ∧ start l' = {| tv_sec := 100; tv_usec := 5 |}
    ∧ qs' !! Z.to_nat (nb_idx 1 1 (Z.of_N 7 `mod` 1))
      = (λ q, q ++ [token l']) <$> [[]; [1]] !! Z.to_nat (nb_idx 1 1 (Z.of_N 7 `mod` 1))
    ∧ ∀ p, (∀ i, 0 ≤ i < 1 → p ≠ Z.to_nat (own_idx 1 1 i)) →
           p ≠ Z.to_nat (nb_idx 1 1 (Z.of_N 7 `mod` 1)) →
           qs' !! p = [[]; [1]] !! p.
Proof.
  intros pipes l.
  apply (loop_body_sends_what_it_logs 16 {[0; 1; 2]} 1 2 pipes {[3; 4; 5; 6; 0; 1; 2]}
           1 [5; 4] {[5; 4; 0; 1; 2]} [[]; [1]] 5 {[5]} l);
    [lia|vm_compute; reflexivity|lia|vm_compute; reflexivity|reflexivity
    |vm_compute; reflexivity].
Defined.

(** X19. [passToken] up to its first [select], in a wired child of the
    [n]-cube: a vertex other than 0 writes no line and sends nothing; vertex 0
    sets the token to 1, writes the line ["token: 1"] and sends the value 1
    into the pipe of its neighbour across dimension [rand() % n], which is
    vertex [2^(rand() % n)]; and whatever the vertex, when [fopen] fails the
    process ends with [exit(EXIT_FAILURE)] before it writes or sends
    anything. *)
Theorem passToken_start_seeds_at_vertex_0
    limit open0 n nb pipes open v cp open_v now r (qs : list (list Z)) :
  1 ≤ n ≤ 26 →
  createPipes limit open0 n = Ret (nb, pipes, open) →
  0 ≤ v < 2 ^ n →
  child_setup n v pipes open = Ret (cp, open_v) →
  (v ≠ 0 →
   ∃ out, passToken_start v n pipes cp true now r (locals_init, qs)
          = ((locals_init, qs), Ret out))
  ∧ (v = 0 →
     ∃ out, passToken_start 0 n pipes cp true now r
              (locals_init, replicate (length pipes) [])
            = (({| token := 1; start := now; file := [LogSeed 1] |},
                <[Z.to_nat (2 ^ (Z.of_N r `mod` n) * n + Z.of_N r `mod` n) := [1]]>
                  (replicate (length pipes) [])),
               Ret out))
  ∧ passToken_start v n pipes cp false now r (locals_init, qs)
    = ((locals_init, qs), Exit EXIT_FAILURE).
Proof.
  intros Hn Hcreate Hv Hsetup. assert (Hd : dim_ok n) by (unfold dim_ok; lia).
  destruct (setup_wired _ _ _ _ _ _ _ _ _ Hd Hcreate Hv Hsetup) as (Hlen & Hnd & Hw).
  split_and!.
  - intros Hv0.
    destruct (passToken_start_other n pipes Hd Hlen Hnd v cp now r qs Hv Hv0 Hw)
      as (nfds & fds & Hrun & _).
    by eexists.
  - intros ->.
    destruct (passToken_start_seed n pipes Hd (proj1 Hn) Hlen Hnd cp now r Hw)
      as (nfds & fds & Hrun & _).
    eexists. rewrite Hrun. unfold single_token, own_idx. by rewrite Z.lxor_0_l.
  - done.
Qed.

Lemma passToken_start_seeds_at_vertex_0_witness :
  let pipes := [(3, 4); (5, 6)] in
  let now := {| tv_sec := 100; tv_usec := 5 |} in
  (0 ≠ 0 →
   ∃ out, passToken_start 0 1 pipes [3; 6] true now 7%N (locals_init, [[]; []])
          = ((locals_init, [[]; []]), Ret out))
  ∧ (0 = 0 →
     ∃ out, passToken_start 0 1 pipes [3; 6] true now 7%N
              (locals_init, replicate (length pipes) [])
            = (({| token := 1; start := now; file := [LogSeed 1] |},
                <[Z.to_nat (2 ^ (Z.of_N 7 `mod` 1) * 1 + Z.of_N 7 `mod` 1) := [1]]>
                  (replicate (length pipes) [])),
               Ret out))
  ∧ passToken_start 0 1 pipes [3; 6] false now 7%N (locals_init, [[]; []])
    = ((locals_init, [[]; []]), Exit EXIT_FAILURE).
Proof.
  intros pipes now.
  apply (passToken_start_seeds_at_vertex_0 16 {[0; 1; 2]} 1 2 pipes {[3; 4; 5; 6; 0; 1; 2]}
           0 [3; 6] {[3; 6; 0; 1; 2]} now 7%N [[]; []]);
    [lia|vm_compute; reflexivity|lia|vm_compute; reflexivity].
Defined.

(** ** The two halves of the cube *)

Lemma pos_parity_pow2 (k : nat) : pos_parity (Pos.shiftl_nat 1 k) = true.
Proof. induction k as [|k IH]; [done|]. simpl. exact IH. Qed.

Lemma N_parity_double x : N_parity (Pos.Ndouble x) = N_parity x.
Proof. by destruct x. Qed.

Lemma N_parity_succ_double x : N_parity (Pos.Nsucc_double x) = negb (N_parity x).
Proof. by destruct x. Qed.

Lemma pos_parity_lxor_pow2 (k : nat) : ∀ p,
  N_parity (Pos.lxor p (Pos.shiftl_nat 1 k)) = negb (pos_parity p).
Proof.
  induction k as [|k IH]; intros p.
  - destruct p as [p|p|]; simpl; [by rewrite negb_involutive|done|done].
  - change (Pos.shiftl_nat 1 (S k)) with (xO (Pos.shiftl_nat 1 k)).
    pose proof (pos_parity_pow2 k) as Hq.
    set (q := Pos.shiftl_nat 1 k) in *.
    destruct p as [p|p|].
    + change (Pos.lxor p~1 q~0) with (Pos.Nsucc_double (Pos.lxor p q)).
      by rewrite N_parity_succ_double, IH.
    + change (Pos.lxor p~0 q~0) with (Pos.Ndouble (Pos.lxor p q)).
      by rewrite N_parity_double, IH.
    + simpl. by rewrite Hq.
Qed.

Lemma pow2_shiftl_nat (k : nat) : 2 ^ Z.of_nat k = Zpos (Pos.shiftl_nat 1 k).
Proof.
  induction k as [|k IH]; [done|].
  rewrite Nat2Z.inj_succ, Z.pow_succ_r, IH by lia. done.
Qed.

Lemma bit_parity_neighbour v k :
  0 ≤ v → 0 ≤ k → bit_parity (Z.lxor v (2 ^ k)) = negb (bit_parity v).
Proof.
  intros Hv Hk. rewrite <- (Z2Nat.id k Hk), pow2_shiftl_nat.
  destruct v as [|p|p]; [|  |lia].
  - rewrite Z.lxor_0_l. cbn [bit_parity]. by rewrite pos_parity_pow2.
  - change (Z.lxor (Z.pos p) (Z.pos (Pos.shiftl_nat 1 (Z.to_nat k))))
      with (Z.of_N (Pos.lxor p (Pos.shiftl_nat 1 (Z.to_nat k)))).
    pose proof (pos_parity_lxor_pow2 (Z.to_nat k) p) as Hp.
    destruct (Pos.lxor p (Pos.shiftl_nat 1 (Z.to_nat k))); exact Hp.
Qed.

Section parity.
Context (n : Z) (pipes : list pipe_t).
Hypothesis Hn : dim_ok n.
Hypothesis Hn1 : 1 ≤ n.
Hypothesis Hlen : Z.of_nat (length pipes) = 2 ^ n * n.
Hypothesis Hnd : NoDup (table_fds pipes).

Lemma single_token_same d j t d' j' t' :
  0 ≤ d < 2 ^ n → 0 ≤ j < n → 0 ≤ d' < 2 ^ n → 0 ≤ j' < n →
  single_token n (length pipes) d j t = single_token n (length pipes) d' j' t' →
  d = d' ∧ t = t'.
Proof.
  intros Hd Hj Hd' Hj' Heq.
  apply single_token_inj in Heq as [Hidx Ht];
    [|by apply (own_slot_lt n pipes Hn Hlen)..].
  pose proof (own_idx_range n Hn d j Hd Hj).
  pose proof (own_idx_range n Hn d' j' Hd' Hj').
  split; [|done].
  assert (Hidx' : own_idx n d j = own_idx n d' j') by lia.
  by apply own_idx_inj in Hidx' as [-> _].
Qed.

Lemma parity_inv_step e s s' m :
  inv n pipes m s → parity_inv n (length pipes) s → step_case n pipes e s s' →
  parity_inv n (length pipes) s'.
Proof.
  intros Hinv [Hlogs Hq]
    [->|cp fds Hp Hv0 Hfds ->|cp fds k Hp Hv0 Hqs Hk Hfds ->
     |cp fds fds' l j t k Hp Hqs Hj Hk Hfds' ->]; [done| | |].
  - split; [|done]. intros v a Ha. apply Hlogs. revert Ha. unfold tokens_at.
    destruct (decide (v = ev_vertex e)) as [->|Hne].
    + rewrite log_at_upd_eq by (by apply lookup_lt_Some in Hp). cbn. set_solver.
    + by rewrite log_at_upd_ne.
  - assert (Hr : 0 ≤ Z.lxor 0 (2 ^ k) < 2 ^ n).
    { apply (neighbour_of_ok n 0 k Hn); [pose proof (dim_ok_pow n Hn); lia|done]. }
    split.
    + intros v a Ha. revert Ha. unfold tokens_at.
      destruct (decide (v = 0%nat)) as [->|Hne].
      * rewrite log_at_upd_eq by (rewrite <- Hv0; by apply lookup_lt_Some in Hp).
        cbn. intros Ha. apply list_elem_of_singleton in Ha as ->. done.
      * rewrite log_at_upd_ne by done. apply Hlogs.
    + intros d j t Hd Hj Heq. cbn [upd queues] in Heq.
      apply single_token_same in Heq as [<- <-]; [|done..].
      by rewrite bit_parity_neighbour by lia.
  - pose proof (vertex_range n pipes Hn1 s m _ _ Hinv Hp) as Hv.
    assert (Hr : 0 ≤ Z.lxor (Z.of_nat (ev_vertex e)) (2 ^ k) < 2 ^ n).
    { by apply (neighbour_of_ok n _ k Hn). }
    assert (Ht : Z.odd (t + 1) = negb (bit_parity (Z.of_nat (ev_vertex e)))).
    { rewrite <- (Hq _ j t Hv Hj Hqs). by rewrite Z.add_1_r, Z.odd_succ, <- Z.negb_odd. }
    split.
    + intros v a Ha. revert Ha. unfold tokens_at.
      destruct (decide (v = ev_vertex e)) as [->|Hne].
      * rewrite log_at_upd_eq by (by apply lookup_lt_Some in Hp).
        cbn [log_of file]. rewrite fmap_app, elem_of_app. cbn.
        rewrite logged_token_arrival. intros [Ha|Ha].
        -- apply Hlogs. unfold tokens_at. by rewrite (log_at_lookup _ _ _ Hp).
        -- apply list_elem_of_singleton in Ha as ->. done.
      * rewrite log_at_upd_ne by done. apply Hlogs.
    + intros d j' t' Hd Hj' Heq. cbn [upd queues] in Heq.
      apply single_token_same in Heq as [<- <-]; [|done..].
      rewrite bit_parity_neighbour by lia. done.
Qed.

End parity.

(** X20. In a run of the system [main] starts for a dimension from 1 to 26, in
    which no [fopen] fails and the token stays below [INT_MAX], a vertex whose
    number has an even number of 1s in binary logs odd token values only, and
    a vertex whose number has an odd number of 1s logs even token values
    only: each hop changes one binary digit of the vertex and adds one to the
    token. *)
Theorem logged_tokens_parity limit open0 n pipes s0 es v a :
  1 ≤ n ≤ 26 →
  boot limit open0 n = Ret (pipes, s0) →
  Z.of_nat (length es) ≤ Int.INT_MAX →
  forallb ev_fopen es = true →
  a ∈ tokens_at (run n pipes es s0) v →
  Z.odd a = negb (bit_parity (Z.of_nat v)).
Proof.
  intros Hn Hboot Hes Hf. assert (Hd : dim_ok n) by (unfold dim_ok; lia).
  destruct (boot_inv _ _ _ _ _ Hd Hboot) as (Hlen & Hnd & Hinv).
  destruct (boot_nothing_logged _ _ _ _ _ Hd Hboot) as [Hq Hlogs].
  assert (Hpar : parity_inv n (length pipes) (run n pipes es s0)).
  { apply (run_preserves n pipes (λ _, True) (parity_inv n (length pipes))
             Hd (proj1 Hn) Hlen Hnd) with (m := 0);
      [|done|lia|done|by apply Forall_forall|done|].
    - intros e s s' m _. apply (parity_inv_step n pipes Hd (proj1 Hn) Hlen Hnd).
    - split.
      + intros w b Hb. unfold tokens_at in Hb. rewrite Hlogs in Hb. set_solver.
      + intros d j t Hdr Hj Heq. rewrite Hq in Heq. symmetry in Heq.
        apply single_token_not_empty in Heq; [done|].
        by apply (own_slot_lt n pipes Hd Hlen). }
  apply Hpar.
Qed.

Lemma logged_tokens_parity_witness :
  let pipes := [(3, 4); (5, 6)] in
  let s0 := {| procs := [Forked [3; 6]; Forked [5; 4]]; queues := [[]; []] |} in
  let es := [runs 0; runs 1; runs 1; runs 0] in
  tokens_at (run 1 pipes es s0) 0 = [1; 3]
  ∧ Z.odd 3 = negb (bit_parity (Z.of_nat 0)).
Proof.
  intros pipes s0 es.
  assert (Ht : tokens_at (run 1 pipes es s0) 0 = [1; 3]) by (vm_compute; reflexivity).
  split; [exact Ht|].
  apply (logged_tokens_parity 64 {[0; 1; 2]} 1 pipes s0 es 0%nat 3);
    [lia|vm_compute; reflexivity|vm_compute; discriminate|reflexivity|].
  rewrite Ht. apply list_elem_of_further, list_elem_of_here.
Defined.
